(** * regen: the transcript editor's client-side core

    A shallow embedding of the pieces of the front end that hold its logic:

    - [Diff]: [computeWordDiff] of [components/TranscriptSegment.tsx], the
      inline word-level diff;
    - [Hook]: the [useTranscription] hook of [hooks/useTranscription.ts]:
      optimistic segment edits, speaker renames and the undo/redo log;
    - [Poll]: the status poll loop that [transcribe] of the [useAudioUpload]
      hook installs with [setInterval];
    - [Upload]: [uploadFile] and [reset] of the same hook;
    - [Editor]: the early returns and the rename dialog of
      [TranscriptEditor];
    - [Row]: the paragraph and the text area handlers of
      [TranscriptSegment].

    A callback of the hook reads the cells through the render that made it
    and writes the cells of the moment of the call.  A call therefore takes
    two states: the one of the render its callback comes from, which may be
    an older one (the debounce timer of a row keeps the callback of the
    render in which the key was typed), and the one it updates.  Calls are
    taken one at a time, and the backend's answer to the request of a call
    is an argument of the call. *)

From Equations Require Import Equations.
From Stdlib Require Import ZArith NArith Floats Ascii.
From stdpp Require Import base decidable option list strings gmap.

Open Scope Z_scope.

(** ** JavaScript strings *)

(** A JavaScript string is a sequence of UTF-16 code units. *)
Abbreviation jsstring := (list N).

(** The code units of an ASCII literal. *)
Definition js (s : string) : jsstring :=
  map N_of_ascii (String.list_ascii_of_string s).

Module Diff.

(** *** [String.prototype.trim] and [split(/\s+/)] *)

(** The code units that [trim] strips and that the class [\s] matches:
    ECMAScript's WhiteSpace and LineTerminator productions. *)
Definition isWhiteSpace (c : N) : bool :=
  ((c =? 9) || (c =? 10) || (c =? 11) || (c =? 12) || (c =? 13) || (c =? 32)
   || (c =? 160) || (c =? 5760) || ((8192 <=? c) && (c <=? 8202))
   || (c =? 8232) || (c =? 8233) || (c =? 8239) || (c =? 8287)
   || (c =? 12288) || (c =? 65279))%N.

Fixpoint trimStart (s : jsstring) : jsstring :=
  match s with
  | c :: s' => if isWhiteSpace c then trimStart s' else s
  | [] => []
  end.

Definition trim (s : jsstring) : jsstring :=
  reverse (trimStart (reverse (trimStart s))).

(** [s.split(/\s+/)], read left to right: [cur] is the substring collected
    since the last separator and [inSep] tells that the scan is inside a run
    of white space, which the greedy [\s+] matches as one separator.  The
    substring after the last separator is always emitted, so the empty
    string splits into the one-element array of the empty string. *)
Fixpoint splitFrom (cur : jsstring) (inSep : bool) (s : jsstring)
  : list jsstring :=
  match s with
  | [] => [cur]
  | c :: s' =>
      if isWhiteSpace c
      then if inSep then splitFrom cur true s'
           else cur :: splitFrom [] true s'
      else splitFrom (cur ++ [c]) false s'
  end.

Definition split (s : jsstring) : list jsstring := splitFrom [] false s.

(** *** [computeWordDiff] *)

Inductive DiffType := added | removed | unchanged.

Record DiffPart := { type : DiffType; text : jsstring }.

(** [words[i]] for an index the loop has tested against [words.length]. *)
Definition at_ (words : list jsstring) (i : nat) : jsstring :=
  default [] (words !! i).

(** The [while] loop of [computeWordDiff], on the two cursors [i] and [j]
    and the [result] array pushed to so far. *)
Equations? diffLoop (originalWords editedWords : list jsstring)
    (i j : nat) (result : list DiffPart) : list DiffPart
    by wf ((length originalWords - i) + (length editedWords - j))%nat lt :=
  diffLoop originalWords editedWords i j result
    with le_lt_dec (length originalWords) i,
         le_lt_dec (length editedWords) j => {
    | left _, left _ => result;
    | left _, right _ =>
        diffLoop originalWords editedWords i (S j)
          (result ++ [{| type := added; text := at_ editedWords j |}]);
    | right _, left _ =>
        diffLoop originalWords editedWords (S i) j
          (result ++ [{| type := removed; text := at_ originalWords i |}]);
    | right _, right _ =>
        if bool_decide (at_ originalWords i = at_ editedWords j) then
          diffLoop originalWords editedWords (S i) (S j)
            (result ++ [{| type := unchanged; text := at_ originalWords i |}])
        else
          let origNextMatchesEdited :=
            bool_decide (S i < length originalWords)%nat
            && bool_decide (at_ originalWords (S i) = at_ editedWords j) in
          let editedNextMatchesOrig :=
            bool_decide (S j < length editedWords)%nat
            && bool_decide (at_ editedWords (S j) = at_ originalWords i) in
          if origNextMatchesEdited then
            diffLoop originalWords editedWords (S i) j
              (result ++ [{| type := removed; text := at_ originalWords i |}])
          else if editedNextMatchesOrig then
            diffLoop originalWords editedWords i (S j)
              (result ++ [{| type := added; text := at_ editedWords j |}])
          else
            diffLoop originalWords editedWords (S i) (S j)
              (result ++ [{| type := removed; text := at_ originalWords i |};
                          {| type := added; text := at_ editedWords j |}]) }.
Proof. all: lia. Qed.

Definition computeWordDiff (original edited : jsstring) : list DiffPart :=
  let originalWords := split (trim original) in
  let editedWords := split (trim edited) in
  diffLoop originalWords editedWords 0 0 [].

(** *** The walk as the specification words it *)

Definition part (t : DiffType) (w : jsstring) : DiffPart :=
  {| type := t; text := w |}.

(** The specification's three rules, on the words still ahead of each
    cursor: equal current words are emitted as unchanged and both cursors
    advance; when one side is exhausted the remaining words of the other are
    emitted, tagged accordingly; at a mismatch one position is looked ahead
    on each side. *)
Equations? specWalk (o e : list jsstring) : list DiffPart
    by wf (length o + length e)%nat lt :=
  specWalk [] e := map (part added) e;
  specWalk o [] := map (part removed) o;
  specWalk (x :: o') (y :: e') :=
    if bool_decide (x = y) then part unchanged x :: specWalk o' e'
    else if bool_decide (head o' = Some y) then
      part removed x :: specWalk o' (y :: e')
    else if bool_decide (head e' = Some x) then
      part added y :: specWalk (x :: o') e'
    else part removed x :: part added y :: specWalk o' e'.
Proof. all: simpl; lia. Qed.

End Diff.

(** ** What the backend answers *)

(** The value a rejected promise carries: an [Error] with its message, or
    anything else. *)
Inductive Thrown := ErrorObject (message : string) | OtherValue.

(** How an awaited request settles. *)
Inductive Settled (A : Type) := Fulfilled (value : A) | Rejected (err : Thrown).
Arguments Fulfilled {A} value.
Arguments Rejected {A} err.

(** [err instanceof Error ? err.message : fallback] *)
Definition messageOf (err : Thrown) (fallback : string) : string :=
  match err with
  | ErrorObject message => message
  | OtherValue => fallback
  end.

(** [v || fallback] for [v : string | null | undefined]: the empty string is
    falsy as well. *)
Definition orElse (v : option string) (fallback : string) : string :=
  match v with
  | Some s => if bool_decide (s = EmptyString) then fallback else s
  | None => fallback
  end.

(** [arr[i]] for an integer-valued number [i]: [undefined] out of range. *)
Definition index {A} (arr : list A) (i : Z) : option A :=
  if i <? 0 then None else arr !! Z.to_nat i.

(** [arr.slice(0, end)]: a negative [end] counts from the end of the array,
    and the bound is clamped to the array. *)
Definition slice0 {A} (arr : list A) (end_ : Z) : list A :=
  let len := Z.of_nat (length arr) in
  let final := if end_ <? 0 then Z.max (len + end_) 0 else Z.min end_ len in
  take (Z.to_nat final) arr.

Inductive Status := pending | processing | completed | failed.

Module Hook.

(** *** The types of [services/api] *)

Module Word.
Record t := {
  text : string; start : float; end_ : float; confidence : float;
  is_filler : bool }.
End Word.

Module Segment.
Record t := {
  id : string;
  segment_index : float;
  start_time : float;
  end_time : float;
  text : string;
  original_text : option string;
  speaker_id : string;
  confidence : float;
  words : list Word.t;
  is_edited : bool;
  created_at : string;
  updated_at : string }.

(** [{ ...s, text, is_edited: true }] *)
Definition edit (text' : string) (s : t) : t :=
  {| id := id s; segment_index := segment_index s;
     start_time := start_time s; end_time := end_time s;
     text := text'; original_text := original_text s;
     speaker_id := speaker_id s; confidence := confidence s;
     words := words s; is_edited := true;
     created_at := created_at s; updated_at := updated_at s |}.

(** [{ ...s, text: text' }] *)
Definition withText (text' : string) (s : t) : t :=
  {| id := id s; segment_index := segment_index s;
     start_time := start_time s; end_time := end_time s;
     text := text'; original_text := original_text s;
     speaker_id := speaker_id s; confidence := confidence s;
     words := words s; is_edited := is_edited s;
     created_at := created_at s; updated_at := updated_at s |}.
End Segment.

Module SpeakerLabel.
Record t := {
  id : string;
  transcript_id : string;
  speaker_id : string;
  custom_name : option string;
  color : string;
  created_at : string;
  updated_at : string }.

(** [{ ...l, custom_name: name }] *)
Definition rename (name : string) (l : t) : t :=
  {| id := id l; transcript_id := transcript_id l;
     speaker_id := speaker_id l; custom_name := Some name;
     color := color l; created_at := created_at l;
     updated_at := updated_at l |}.

(** [label.custom_name || `Speaker ${label.speaker_id}`] *)
Definition displayName (l : t) : string :=
  orElse (custom_name l) ("Speaker " +:+ speaker_id l).
End SpeakerLabel.

Module Transcript.
Record t := {
  id : string;
  filename : string;
  storage_path : option string;
  status : Status;
  duration : option float;
  num_speakers : float;
  full_text : option string;
  segments : list Segment.t;
  speaker_labels : list SpeakerLabel.t;
  created_at : string;
  updated_at : string }.

(** [{ ...prev, segments }] *)
Definition withSegments (segments' : list Segment.t) (tr : t) : t :=
  {| id := id tr; filename := filename tr;
     storage_path := storage_path tr; status := status tr;
     duration := duration tr; num_speakers := num_speakers tr;
     full_text := full_text tr; segments := segments';
     speaker_labels := speaker_labels tr;
     created_at := created_at tr; updated_at := updated_at tr |}.

(** [{ ...prev, speaker_labels }] *)
Definition withSpeakerLabels (labels' : list SpeakerLabel.t) (tr : t) : t :=
  {| id := id tr; filename := filename tr;
     storage_path := storage_path tr; status := status tr;
     duration := duration tr; num_speakers := num_speakers tr;
     full_text := full_text tr; segments := segments tr;
     speaker_labels := labels';
     created_at := created_at tr; updated_at := updated_at tr |}.
End Transcript.

(** *** The hook's state *)

Record EditHistoryItem := {
  segmentId : string;
  previousText : string;
  newText : string;
  timestamp : Z }.

Definition MAX_HISTORY : Z := 50.

(** The requests the hook has sent to the backend, oldest first. *)
Inductive Request :=
| GetTranscript (id : string)
| PatchSegment (segmentId text : string)
| PatchSpeakerLabel (labelId custom_name : string).

(** The [useState] cells and the [isUndoRedo] ref of [useTranscription],
    with the log of the requests sent so far.  [historyIndex] only takes
    integer values; [speakerNames] holds the own properties of the object
    of names. *)
Record HookState := {
  transcript : option Transcript.t;
  loading : bool;
  error : option string;
  speakerNames : gmap string string;
  editHistory : list EditHistoryItem;
  historyIndex : Z;
  isUndoRedo : bool;
  requests : list Request }.

Definition setTranscript (f : option Transcript.t → option Transcript.t)
    (st : HookState) : HookState :=
  {| transcript := f (transcript st); loading := loading st;
     error := error st; speakerNames := speakerNames st;
     editHistory := editHistory st; historyIndex := historyIndex st;
     isUndoRedo := isUndoRedo st; requests := requests st |}.

Definition setLoading (b : bool) (st : HookState) : HookState :=
  {| transcript := transcript st; loading := b;
     error := error st; speakerNames := speakerNames st;
     editHistory := editHistory st; historyIndex := historyIndex st;
     isUndoRedo := isUndoRedo st; requests := requests st |}.

Definition setError (e : option string) (st : HookState) : HookState :=
  {| transcript := transcript st; loading := loading st;
     error := e; speakerNames := speakerNames st;
     editHistory := editHistory st; historyIndex := historyIndex st;
     isUndoRedo := isUndoRedo st; requests := requests st |}.

Definition setSpeakerNames (f : gmap string string → gmap string string)
    (st : HookState) : HookState :=
  {| transcript := transcript st; loading := loading st;
     error := error st; speakerNames := f (speakerNames st);
     editHistory := editHistory st; historyIndex := historyIndex st;
     isUndoRedo := isUndoRedo st; requests := requests st |}.

Definition setEditHistory (f : list EditHistoryItem → list EditHistoryItem)
    (st : HookState) : HookState :=
  {| transcript := transcript st; loading := loading st;
     error := error st; speakerNames := speakerNames st;
     editHistory := f (editHistory st); historyIndex := historyIndex st;
     isUndoRedo := isUndoRedo st; requests := requests st |}.

Definition setHistoryIndex (f : Z → Z) (st : HookState) : HookState :=
  {| transcript := transcript st; loading := loading st;
     error := error st; speakerNames := speakerNames st;
     editHistory := editHistory st; historyIndex := f (historyIndex st);
     isUndoRedo := isUndoRedo st; requests := requests st |}.

(** [isUndoRedo.current = b] *)
Definition setIsUndoRedo (b : bool) (st : HookState) : HookState :=
  {| transcript := transcript st; loading := loading st;
     error := error st; speakerNames := speakerNames st;
     editHistory := editHistory st; historyIndex := historyIndex st;
     isUndoRedo := b; requests := requests st |}.

Definition send (r : Request) (st : HookState) : HookState :=
  {| transcript := transcript st; loading := loading st;
     error := error st; speakerNames := speakerNames st;
     editHistory := editHistory st; historyIndex := historyIndex st;
     isUndoRedo := isUndoRedo st; requests := requests st ++ [r] |}.

(** The state of the first render. *)
Definition initial : HookState :=
  {| transcript := None; loading := false; error := None;
     speakerNames := ∅; editHistory := []; historyIndex := -1;
     isUndoRedo := false; requests := [] |}.

(** *** Plain objects used as maps *)

(** [speakerNames] is an object literal: it has the own properties the hook
    gives it, which the map holds, and it inherits the properties of
    [Object.prototype], whose names these are. *)
Definition objectPrototype : list string :=
  [ "constructor"; "__defineGetter__"; "__defineSetter__"; "hasOwnProperty";
    "__lookupGetter__"; "__lookupSetter__"; "isPrototypeOf";
    "propertyIsEnumerable"; "toString"; "valueOf"; "__proto__";
    "toLocaleString" ].

(** What [names[key] || fallback] evaluates to when the own properties of
    [names] are strings: a string, or the member of [Object.prototype] of
    that name (a function, or the prototype itself under "__proto__"), which
    is truthy and is not a string. *)
Inductive Read := Str (s : string) | Inherited (key : string).

(** [names[key] = value].  Under the key "__proto__" the assignment calls
    the setter that [Object.prototype] has for it, which ignores a string,
    unless the object has an own property of that name. *)
Definition assign (key value : string) (names : gmap string string)
  : gmap string string :=
  if bool_decide (key = "__proto__") && bool_decide (names !! key = None)
  then names
  else <[key := value]> names.

(** [{ ...prev, [key]: value }]: a computed key defines an own property,
    whatever the key. *)
Definition define (key value : string) (prev : gmap string string)
  : gmap string string :=
  <[key := value]> prev.

(** [names[key] || fallback] *)
Definition readOr (names : gmap string string) (key fallback : string)
  : Read :=
  match names !! key with
  | Some s => if bool_decide (s = EmptyString) then Str fallback else Str s
  | None =>
      if bool_decide (key ∈ objectPrototype) then Inherited key
      else Str fallback
  end.

(** The effect on [transcript?.speaker_labels]: the object of names is
    rebuilt from the labels by assignments, a later label overwriting an
    earlier one of the same speaker.  It runs after a render in which the
    labels array is a new one. *)
Definition buildSpeakerNames (labels : list SpeakerLabel.t)
  : gmap string string :=
  foldl (fun names label =>
           assign (SpeakerLabel.speaker_id label)
                  (SpeakerLabel.displayName label) names)
        ∅ labels.

Definition speakerLabelsEffect (st : HookState) : HookState :=
  match transcript st with
  | Some tr =>
      setSpeakerNames
        (fun _ => buildSpeakerNames (Transcript.speaker_labels tr)) st
  | None => st
  end.

(** *** [loadTranscript] *)

Definition loadTranscript (id : string) (reply : Settled Transcript.t)
    (st : HookState) : HookState :=
  let st := setLoading true st in
  let st := setError None st in
  let st := send (GetTranscript id) st in
  let st :=
    match reply with
    | Fulfilled result =>
        let st := setTranscript (fun _ => Some result) st in
        let st := setEditHistory (fun _ => []) st in
        let st := setHistoryIndex (fun _ => -1) st in
        speakerLabelsEffect st
    | Rejected err =>
        setError (Some (messageOf err "Failed to load transcript")) st
    end in
  setLoading false st.

(** *** [updateSegmentText] *)

(** What a call reads from outside the hook: [Date.now()] and how the
    request it sends, if any, settles. *)
Record Env (A : Type) := { now : Z; reply : Settled A }.
Arguments now {A} e.
Arguments reply {A} e.

Definition findSegment (segmentId : string) (segments : list Segment.t)
  : option Segment.t :=
  find (fun s => bool_decide (Segment.id s = segmentId)) segments.

(** [segments.map((s) => s.id === segmentId ? f(s) : s)] *)
Definition mapSegment (segmentId : string) (f : Segment.t → Segment.t)
    (segments : list Segment.t) : list Segment.t :=
  map (fun s => if bool_decide (Segment.id s = segmentId) then f s else s)
      segments.

(** The updater passed to [setEditHistory]: [prev] is the log of the moment
    of the call, [historyIndex] the cursor of the render the callback was
    made in. *)
Definition pushHistory (historyIndex : Z) (historyItem : EditHistoryItem)
    (prev : list EditHistoryItem) : list EditHistoryItem :=
  let newHistory := slice0 prev (historyIndex + 1) ++ [historyItem] in
  if MAX_HISTORY <? Z.of_nat (length newHistory)
  then tail newHistory
  else newHistory.

(** [rd] is the state of the render that made the callback, from which
    the callback has [transcript] and [historyIndex] (its dependencies);
    [st] is the state of the moment of the call, on which the updaters and
    the [catch] act and where the ref lives. *)
Definition updateSegmentText (segmentId text : string)
    (env : Env Segment.t) (rd st : HookState) : HookState :=
  match transcript rd with
  | None => st
  | Some tr =>
      match findSegment segmentId (Transcript.segments tr) with
      | None => st
      | Some segment =>
          if bool_decide (Segment.text segment = text) then st
          else
            let st :=
              if isUndoRedo st then st
              else
                let historyItem :=
                  {| segmentId := segmentId;
                     previousText := Segment.text segment;
                     newText := text;
                     timestamp := now env |} in
                let st' :=
                  setEditHistory (pushHistory (historyIndex rd) historyItem)
                                 st in
                setHistoryIndex
                  (fun prev => Z.min (prev + 1) (MAX_HISTORY - 1)) st' in
            let st :=
              setTranscript
                (fmap (fun prev =>
                   Transcript.withSegments
                     (mapSegment segmentId (Segment.edit text)
                                 (Transcript.segments prev)) prev)) st in
            let st := send (PatchSegment segmentId text) st in
            match reply env with
            | Fulfilled _ => st
            | Rejected err =>
                let st :=
                  setTranscript
                    (fmap (fun prev =>
                       Transcript.withSegments
                         (mapSegment segmentId
                            (Segment.withText (Segment.text segment))
                            (Transcript.segments prev)) prev)) st in
                setError (Some (messageOf err "Failed to save edit")) st
            end
      end
  end.

(** *** [renameSpeaker] *)

Definition findLabel (labelId : string) (labels : list SpeakerLabel.t)
  : option SpeakerLabel.t :=
  find (fun l => bool_decide (SpeakerLabel.id l = labelId)) labels.

Definition mapLabel (labelId : string) (f : SpeakerLabel.t → SpeakerLabel.t)
    (labels : list SpeakerLabel.t) : list SpeakerLabel.t :=
  map (fun l => if bool_decide (SpeakerLabel.id l = labelId) then f l else l)
      labels.

(** [rd] is the state of the render that made the callback, from which
    the callback has [transcript]. *)
Definition renameSpeaker (labelId name : string)
    (reply : Settled SpeakerLabel.t) (rd st : HookState) : HookState :=
  match transcript rd with
  | None => st
  | Some tr =>
      match findLabel labelId (Transcript.speaker_labels tr) with
      | None => st
      | Some label =>
          let st :=
            setSpeakerNames
              (fun prev => define (SpeakerLabel.speaker_id label) name prev)
              st in
          let st :=
            setTranscript
              (fmap (fun prev =>
                 Transcript.withSpeakerLabels
                   (mapLabel labelId (SpeakerLabel.rename name)
                             (Transcript.speaker_labels prev)) prev)) st in
          let st := send (PatchSpeakerLabel labelId name) st in
          (* the render after the optimistic update has a new labels array *)
          let st := speakerLabelsEffect st in
          match reply with
          | Fulfilled _ => st
          | Rejected err =>
              let st :=
                setSpeakerNames
                  (fun prev =>
                     define (SpeakerLabel.speaker_id label)
                            (SpeakerLabel.displayName label) prev) st in
              setError (Some (messageOf err "Failed to rename speaker")) st
          end
      end
  end.

(** [getSpeakerName]: what the editor displays for a speaker. *)
Definition getSpeakerName (st : HookState) (speakerId : string) : Read :=
  readOr (speakerNames st) speakerId ("Speaker " +:+ speakerId).

(** *** [undo] and [redo] *)

(** The entry [undo] applies, if its guard lets it through: the guard and
    the entry are read from the render that made the callback. *)
Definition undoItem (rd : HookState) : option EditHistoryItem :=
  if historyIndex rd <? 0 then None
  else index (editHistory rd) (historyIndex rd).

(** [undo] of the render [rd], called on [st].  The [updateSegmentText] it
    calls is the one of the same render. *)
Definition undo (env : Env Segment.t) (rd st : HookState) : HookState :=
  match undoItem rd with
  | None => st
  | Some item =>
      let st := setIsUndoRedo true st in
      let st :=
        updateSegmentText (segmentId item) (previousText item) env rd st in
      let st := setIsUndoRedo false st in
      setHistoryIndex (fun prev => prev - 1) st
  end.

(** The outcome of a call that may throw, with the state it leaves. *)
Inductive Outcome := Returned (st : HookState) | TypeError (st : HookState).

(** [redo] reads [item.segmentId] without testing [item]: below index [-1]
    the entry is [undefined] and the read throws, after the ref was
    raised. *)
Definition redo (env : Env Segment.t) (rd st : HookState) : Outcome :=
  if historyIndex rd >=? Z.of_nat (length (editHistory rd)) - 1
  then Returned st
  else
    match index (editHistory rd) (historyIndex rd + 1) with
    | None => TypeError (setIsUndoRedo true st)
    | Some item =>
        let st := setIsUndoRedo true st in
        let st :=
          updateSegmentText (segmentId item) (newText item) env rd st in
        let st := setIsUndoRedo false st in
        Returned (setHistoryIndex (fun prev => prev + 1) st)
    end.

(** The entry [redo] applies, if its guard lets it through. *)
Definition redoItem (rd : HookState) : option EditHistoryItem :=
  if historyIndex rd >=? Z.of_nat (length (editHistory rd)) - 1 then None
  else index (editHistory rd) (historyIndex rd + 1).

Definition canUndo (st : HookState) : bool := 0 <=? historyIndex st.

Definition canRedo (st : HookState) : bool :=
  historyIndex st <? Z.of_nat (length (editHistory st)) - 1.

(** *** Sequences of calls *)

Inductive Op :=
| Load (id : string) (reply : Settled Transcript.t)
| Edit (segmentId text : string) (env : Env Segment.t)
| Rename (labelId name : string) (reply : Settled SpeakerLabel.t)
| Undo (env : Env Segment.t)
| Redo (env : Env Segment.t).

(** One call, through the callback of the render [rd], on the state [st],
    and the state it leaves.  [loadTranscript] has no dependency and reads
    nothing from its render. *)
Definition apply (rd st : HookState) (op : Op) : HookState :=
  match op with
  | Load id reply => loadTranscript id reply st
  | Edit segmentId text env => updateSegmentText segmentId text env rd st
  | Rename labelId name reply => renameSpeaker labelId name reply rd st
  | Undo env => undo env rd st
  | Redo env =>
      match redo env rd st with
      | Returned st' => st'
      | TypeError st' => st'
      end
  end.

(** A run of calls, each with the state of the render its callback comes
    from. *)
Definition run (steps : list (HookState * Op)) (st : HookState) : HookState :=
  foldl (fun st step => apply step.1 st step.2) st steps.

(** A run in which every call is made through the callback of the latest
    render: the state the call before it left. *)
Definition fresh (ops : list Op) (st : HookState) : HookState :=
  foldl (fun st op => apply st st op) st ops.

(** [undo] called once for each element of [envs], each time through the
    callback of the latest render. *)
Definition undos (envs : list (Env Segment.t)) (st : HookState) : HookState :=
  foldl (fun st env => undo env st st) st envs.

(** Between calls the ref is down, the log holds at most [MAX_HISTORY]
    entries and the cursor is [-1] or the index of an entry. *)
Definition wellFormed (st : HookState) : Prop :=
  isUndoRedo st = false
  ∧ Z.of_nat (length (editHistory st)) ≤ MAX_HISTORY
  ∧ -1 ≤ historyIndex st ≤ Z.of_nat (length (editHistory st)) - 1.

(** *** [getSpeakerColor] *)

(** [label?.color || '#3B82F6'] for the first label of the speaker. *)
Definition getSpeakerColor (st : HookState) (speakerId : string) : string :=
  let label :=
    transcript st ≫= fun tr =>
      find (fun l => bool_decide (SpeakerLabel.speaker_id l = speakerId))
           (Transcript.speaker_labels tr) in
  orElse (SpeakerLabel.color <$> label) "#3B82F6".

(** The text the state has for the segment with the given id. *)
Definition segmentText (st : HookState) (segmentId : string)
  : option string :=
  transcript st ≫= fun tr =>
    Segment.text <$> findSegment segmentId (Transcript.segments tr).

(** An entry of the log that stands for a real change of a segment of the
    transcript at hand. *)
Definition soundEntry (st : HookState) (entry : EditHistoryItem) : Prop :=
  previousText entry ≠ newText entry
  ∧ ∃ tr, transcript st = Some tr
          ∧ segmentId entry ∈ map Segment.id (Transcript.segments tr).

(** The transcript that the render [rd] shows, if it shows one, has the
    segment ids of the transcript of the state [st]: no other transcript
    was loaded since that render. *)
Definition sameSegments (rd st : HookState) : Prop :=
  ∀ tr, transcript rd = Some tr →
    ∃ live, transcript st = Some live
            ∧ map Segment.id (Transcript.segments tr)
              = map Segment.id (Transcript.segments live).

(** Every call of the run is made through a callback whose render stands in
    the relation [P] to the state the call is made on. *)
Fixpoint callbacks (P : HookState → HookState → Prop)
    (steps : list (HookState * Op)) (st : HookState) : Prop :=
  match steps with
  | [] => True
  | step :: steps' =>
      P step.1 st ∧ callbacks P steps' (apply step.1 st step.2)
  end.

(** The calls of a run that are not [loadTranscript]. *)
Definition isLoad (op : Op) : bool :=
  match op with
  | Load _ _ => true
  | _ => false
  end.

(** *** A small transcript *)

Module Sample.
Definition segment1 : Segment.t :=
  {| Segment.id := "s1"; Segment.segment_index := 0%float;
     Segment.start_time := 0%float; Segment.end_time := 1.5%float;
     Segment.text := "hello world";
     Segment.original_text := Some "hello world";
     Segment.speaker_id := "A"; Segment.confidence := 0.5%float;
     Segment.words := []; Segment.is_edited := false;
     Segment.created_at := "2024-01-01"; Segment.updated_at := "2024-01-01" |}.

Definition segment2 : Segment.t :=
  {| Segment.id := "s2"; Segment.segment_index := 1%float;
     Segment.start_time := 1.5%float; Segment.end_time := 4%float;
     Segment.text := "good morning";
     Segment.original_text := Some "good morning";
     Segment.speaker_id := "B"; Segment.confidence := 0.75%float;
     Segment.words := []; Segment.is_edited := false;
     Segment.created_at := "2024-01-01"; Segment.updated_at := "2024-01-01" |}.

Definition label1 : SpeakerLabel.t :=
  {| SpeakerLabel.id := "l1"; SpeakerLabel.transcript_id := "t1";
     SpeakerLabel.speaker_id := "A"; SpeakerLabel.custom_name := None;
     SpeakerLabel.color := "#3B82F6";
     SpeakerLabel.created_at := "2024-01-01";
     SpeakerLabel.updated_at := "2024-01-01" |}.

Definition label2 : SpeakerLabel.t :=
  {| SpeakerLabel.id := "l2"; SpeakerLabel.transcript_id := "t1";
     SpeakerLabel.speaker_id := "B"; SpeakerLabel.custom_name := Some "Bob";
     SpeakerLabel.color := "#10B981";
     SpeakerLabel.created_at := "2024-01-01";
     SpeakerLabel.updated_at := "2024-01-01" |}.

Definition transcript1 : Transcript.t :=
  {| Transcript.id := "t1"; Transcript.filename := "talk.mp3";
     Transcript.storage_path := None; Transcript.status := completed;
     Transcript.duration := Some 4%float;
     Transcript.num_speakers := 2%float;
     Transcript.full_text := None;
     Transcript.segments := [segment1; segment2];
     Transcript.speaker_labels := [label1; label2];
     Transcript.created_at := "2024-01-01";
     Transcript.updated_at := "2024-01-01" |}.

(** The hook once [transcript1] is loaded. *)
Definition loaded : HookState :=
  loadTranscript "t1" (Fulfilled transcript1) initial.

Definition ok (t : Z) : Env Segment.t :=
  {| now := t; reply := Fulfilled segment1 |}.

Definition ko (t : Z) : Env Segment.t :=
  {| now := t; reply := Rejected (ErrorObject "Failed to update segment") |}.

(** Two edits of the first segment, the second one undone. *)
Definition edited : HookState :=
  fresh [ Edit "s1" "hello there" (ok 10); Edit "s1" "hi there" (ok 20);
          Undo (ok 30) ] loaded.

(** Fifty edits of the first segment: the log is full and the cursor is on
    its last entry. *)
Definition fill : list Op :=
  map (fun n => Edit "s1" (if Nat.even n then "a" else "b") (ok (Z.of_nat n)))
      (seq 0 50).

Definition full : HookState := fresh fill loaded.
End Sample.

End Hook.

Module Poll.

(** *** The status poll loop of [transcribe] *)

Module UploadState.
Inductive t := idle | uploading | uploaded | transcribing | completed | error.
End UploadState.

Module TranscriptionStatus.
Record t := {
  id : string;
  status : Status;
  progress : option float;
  error_message : option string }.
End TranscriptionStatus.

(** [p || 0] for [p : number | null]: zero and NaN are falsy as well. *)
Definition orZero (p : option float) : float :=
  match p with
  | Some x => if PrimFloat.is_zero x || PrimFloat.is_nan x then 0%float else x
  | None => 0%float
  end.

(** The [useState] cells the loop writes, and the runtime's view of the
    loop: whether the interval made by [setInterval] is still scheduled, the
    calls of [clearInterval] so far and how many of them found it scheduled,
    the number of status requests issued, and the requests still awaited.
    ([file] is written by [uploadFile] and [reset] only.) *)
Record PollState := {
  state : UploadState.t;
  progress : float;
  transcriptId : option string;
  error : option string;
  scheduled : bool;
  clearCalls : nat;
  cancelled : nat;
  issued : nat;
  inFlight : list nat }.

Definition setState (v : UploadState.t) (s : PollState) : PollState :=
  {| state := v; progress := progress s; transcriptId := transcriptId s;
     error := error s; scheduled := scheduled s; clearCalls := clearCalls s;
     cancelled := cancelled s; issued := issued s; inFlight := inFlight s |}.

(** [setProgress] *)
Definition setProgress (v : float) (s : PollState) : PollState :=
  {| state := state s; progress := v; transcriptId := transcriptId s;
     error := error s; scheduled := scheduled s; clearCalls := clearCalls s;
     cancelled := cancelled s; issued := issued s; inFlight := inFlight s |}.

Definition setError (v : option string) (s : PollState) : PollState :=
  {| state := state s; progress := progress s; transcriptId := transcriptId s;
     error := v; scheduled := scheduled s; clearCalls := clearCalls s;
     cancelled := cancelled s; issued := issued s; inFlight := inFlight s |}.

(** [setInterval(callback, 2000)] *)
Definition setInterval (s : PollState) : PollState :=
  {| state := state s; progress := progress s; transcriptId := transcriptId s;
     error := error s; scheduled := true; clearCalls := clearCalls s;
     cancelled := cancelled s; issued := issued s; inFlight := inFlight s |}.

(** [clearInterval(pollInterval)]: on an interval already cleared the call
    does nothing. *)
Definition clearInterval (s : PollState) : PollState :=
  {| state := state s; progress := progress s; transcriptId := transcriptId s;
     error := error s; scheduled := false;
     clearCalls := S (clearCalls s);
     cancelled := if scheduled s then S (cancelled s) else cancelled s;
     issued := issued s; inFlight := inFlight s |}.

(** [getTranscriptionStatus(transcriptId)] is called: request number
    [issued s] is now awaited. *)
Definition request (s : PollState) : PollState :=
  {| state := state s; progress := progress s; transcriptId := transcriptId s;
     error := error s; scheduled := scheduled s; clearCalls := clearCalls s;
     cancelled := cancelled s; issued := S (issued s);
     inFlight := inFlight s ++ [issued s] |}.

Definition settle (k : nat) (s : PollState) : PollState :=
  {| state := state s; progress := progress s; transcriptId := transcriptId s;
     error := error s; scheduled := scheduled s; clearCalls := clearCalls s;
     cancelled := cancelled s; issued := issued s;
     inFlight := filter (fun k' => k' ≠ k) (inFlight s) |}.

(** The interval's callback from its [await] on: the body of the [try] for
    a status, the [catch] for a rejection. *)
Definition resume (reply : Settled TranscriptionStatus.t) (s : PollState)
  : PollState :=
  match reply with
  | Fulfilled st =>
      let s := setProgress (orZero (TranscriptionStatus.progress st)) s in
      match TranscriptionStatus.status st with
      | completed =>
          let s := clearInterval s in
          let s := setState UploadState.completed s in
          setProgress 100%float s
      | failed =>
          let s := clearInterval s in
          let s := setState UploadState.error s in
          setError
            (Some (orElse (TranscriptionStatus.error_message st)
                          "Transcription failed")) s
      | _ => s
      end
  | Rejected err =>
      let s := clearInterval s in
      let s := setState UploadState.error s in
      setError (Some (messageOf err "Status check failed")) s
  end.

(** [transcribe] up to the loop: the guard on [transcriptId], the start
    request, and [setInterval] when that request is fulfilled. *)
Definition transcribe (start : Settled TranscriptionStatus.t) (s : PollState)
  : PollState :=
  match transcriptId s with
  | None => setError (Some "No file uploaded") s
  | Some tid =>
      if bool_decide (tid = EmptyString)
      then setError (Some "No file uploaded") s
      else
        let s := setState UploadState.transcribing s in
        let s := setProgress 0%float s in
        let s := setError None s in
        match start with
        | Fulfilled _ => setInterval s
        | Rejected err =>
            let s := setState UploadState.error s in
            setError (Some (messageOf err "Failed to start transcription")) s
        end
  end.

(** What the event loop can run next: the interval fires, which it does
    only while scheduled, or an awaited status request settles. *)
Inductive Event :=
| Tick
| Settle (k : nat) (reply : Settled TranscriptionStatus.t).

Definition step (s : PollState) (ev : Event) : option PollState :=
  match ev with
  | Tick => if scheduled s then Some (request s) else None
  | Settle k reply =>
      if bool_decide (k ∈ inFlight s) then Some (resume reply (settle k s))
      else None
  end.

Fixpoint exec (s : PollState) (evs : list Event) : option PollState :=
  match evs with
  | [] => Some s
  | ev :: evs' =>
      match step s ev with
      | Some s' => exec s' evs'
      | None => None
      end
  end.

(** The reply makes the callback stop the loop: a terminal status or a
    rejection. *)
Definition stops (reply : Settled TranscriptionStatus.t) : bool :=
  match reply with
  | Fulfilled st =>
      match TranscriptionStatus.status st with
      | completed | failed => true
      | _ => false
      end
  | Rejected _ => true
  end.

(** The hook after an upload: a transcript id, nothing polled yet. *)
Definition uploaded (tid : string) : PollState :=
  {| state := UploadState.uploaded; progress := 100%float;
     transcriptId := Some tid; error := None; scheduled := false;
     clearCalls := 0; cancelled := 0; issued := 0; inFlight := [] |}.

(** A status as the backend reports it for transcript "t1". *)
Definition sampleStatus (st : Status) : TranscriptionStatus.t :=
  {| TranscriptionStatus.id := "t1"; TranscriptionStatus.status := st;
     TranscriptionStatus.progress := Some 40%float;
     TranscriptionStatus.error_message := None |}.

(** While the interval is scheduled [clearInterval] has not been called;
    once it is cleared, one call found it scheduled. *)
Definition consistent (s : PollState) : Prop :=
  if scheduled s then cancelled s = 0%nat ∧ clearCalls s = 0%nat
  else cancelled s = 1%nat ∧ (1 ≤ clearCalls s)%nat.

End Poll.

(** ** The editor around the hook *)

(** A string of the hook stands for the JavaScript string with the same
    code units, all below 256; [trim] of such a string is one again. *)
Definition unjs (s : jsstring) : string :=
  String.string_of_list_ascii (map ascii_of_N s).

(** [s.trim()] *)
Definition trimString (s : string) : string := unjs (Diff.trim (js s)).

Module Editor.
Import Hook.

(** What [TranscriptEditor] returns: the spinner, the error page, nothing,
    or the editor on a transcript. *)
Inductive View :=
| LoadingView
| ErrorView (message : string)
| NoView
| EditorView (tr : Transcript.t).

(** The three early returns of [TranscriptEditor]; [if (error)] lets the
    empty message through. *)
Definition render (st : HookState) : View :=
  if loading st then LoadingView
  else
    let page :=
      match transcript st with
      | Some tr => EditorView tr
      | None => NoView
      end in
    match error st with
    | Some message =>
        if bool_decide (message = EmptyString) then page else ErrorView message
    | None => page
    end.

(** The cells of the rename dialog. *)
Record Dialog := {
  renamingLabel : option string;
  newSpeakerName : string }.

(** How a click on a speaker ends: the handler returns, or it throws a
    [TypeError]; either way with the cells of the dialog it leaves. *)
Inductive Click := Handled (dialog : Dialog) | Threw (dialog : Dialog).

(** [handleSpeakerClick]: [setRenamingLabel] is called first; then
    [currentName.startsWith] is read, which a member of [Object.prototype]
    does not have, so that the call throws before [setNewSpeakerName]. *)
Definition handleSpeakerClick (labelId : string) (currentName : Read)
    (dialog : Dialog) : Click :=
  match currentName with
  | Str name =>
      Handled {| renamingLabel := Some labelId;
                 newSpeakerName :=
                   if String.prefix "Speaker " name then EmptyString
                   else name |}
  | Inherited _ =>
      Threw {| renamingLabel := Some labelId;
               newSpeakerName := newSpeakerName dialog |}
  end.

(** [handleRenameSave]: the hook is called when the label and the trimmed
    name are both truthy; the dialog is closed either way.  [rd] is the
    state of the render that made the handler, whose [renameSpeaker] it
    calls. *)
Definition handleRenameSave (reply : Settled SpeakerLabel.t)
    (dialog : Dialog) (rd st : HookState) : Dialog * HookState :=
  let st :=
    match renamingLabel dialog with
    | Some labelId =>
        if bool_decide (labelId = EmptyString) then st
        else if bool_decide (trimString (newSpeakerName dialog) = EmptyString)
        then st
        else renameSpeaker labelId (trimString (newSpeakerName dialog))
                           reply rd st
    | None => st
    end in
  ({| renamingLabel := None; newSpeakerName := EmptyString |}, st).

(** [onSpeakerClick] of a segment row, in the render with state [st]: the
    label is the first one of the segment's speaker, and nothing happens
    without one. *)
Definition onSpeakerClick (st : HookState) (segment : Segment.t)
    (dialog : Dialog) : Click :=
  match transcript st with
  | Some tr =>
      match find (fun l => bool_decide (SpeakerLabel.speaker_id l
                                        = Segment.speaker_id segment))
                 (Transcript.speaker_labels tr) with
      | Some label =>
          handleSpeakerClick (SpeakerLabel.id label)
            (getSpeakerName st (Segment.speaker_id segment)) dialog
      | None => Handled dialog
      end
  | None => Handled dialog
  end.

End Editor.

(** ** The segment row *)

Module Row.

(** *** Strings without white space at the ends *)

Definition startsClean (s : jsstring) : Prop :=
  match head s with
  | Some c => Diff.isWhiteSpace c = false
  | None => True
  end.

Definition endsClean (s : jsstring) : Prop :=
  match last s with
  | Some c => Diff.isWhiteSpace c = false
  | None => True
  end.

(** *** The two sides of a diff *)

Definition hasType (t : Diff.DiffType) (part : Diff.DiffPart) : bool :=
  match Diff.type part, t with
  | Diff.added, Diff.added => true
  | Diff.removed, Diff.removed => true
  | Diff.unchanged, Diff.unchanged => true
  | _, _ => false
  end.

(** The texts of the parts that are not added: what the original reads. *)
Definition originalSide (parts : list Diff.DiffPart) : list jsstring :=
  map Diff.text (List.filter (fun part => negb (hasType Diff.added part)) parts).

(** The texts of the parts that are not removed: what the edit reads. *)
Definition editedSide (parts : list Diff.DiffPart) : list jsstring :=
  map Diff.text
      (List.filter (fun part => negb (hasType Diff.removed part)) parts).

(** *** What [TranscriptSegment] renders in its paragraph *)

Record Word := {
  text : jsstring;
  start : float;
  end_ : float;
  confidence : float;
  is_filler : bool }.

(** The props the paragraph and the handlers read. *)
Record Props := {
  p_text : jsstring;
  originalText : option jsstring;
  words : option (list Word);
  isEdited : bool;
  showFillerWords : bool }.

(** A [span] with its class and children, or a text node. *)
#[warnings="-register-all"]
Inductive Node :=
| Span (className : option string) (children : list Node)
| Text (s : jsstring).

Fixpoint textContent (n : Node) : jsstring :=
  match n with
  | Span _ children =>
      (fix all (ns : list Node) : jsstring :=
         match ns with
         | [] => []
         | n :: ns' => textContent n ++ all ns'
         end) children
  | Text s => s
  end.

Definition textOf (ns : list Node) : jsstring :=
  concat (map textContent ns).

(** [words.map((word, idx) => ...)]: a span per word, the filler ones in a
    span of their own, and a space after each word but the last. *)
Fixpoint wordSpans (ws : list Word) : list Node :=
  match ws with
  | [] => []
  | word :: ws' =>
      Span None
        [ if is_filler word
          then Span (Some "filler-word") [Text (text word)]
          else Text (text word);
          Text (match ws' with [] => [] | _ => js " " end) ]
      :: wordSpans ws'
  end.

(** [renderTextContent] *)
Definition renderTextContent (props : Props) : list Node :=
  if isEdited props then [Span None [Text (p_text props)]]
  else
    match words props with
    | None => [Span None [Text (p_text props)]]
    | Some [] => [Span None [Text (p_text props)]]
    | Some ws =>
        if showFillerWords props then wordSpans ws
        else [Span None [Text (p_text props)]]
    end.

(** The span of one part of the diff. *)
Definition partSpan (part : Diff.DiffPart) : Node :=
  match Diff.type part with
  | Diff.removed => Span (Some "diff-removed") [Text (Diff.text part)]
  | Diff.added => Span (Some "diff-added") [Text (Diff.text part)]
  | Diff.unchanged => Span None [Text (Diff.text part)]
  end.

(** [.reduce((prev, curr, idx) => idx === 0 ? [curr] : [...prev, ' ', curr],
    [])] *)
Definition spaced (spans : list Node) : list Node :=
  fold_left (fun prev '(idx, curr) =>
               match idx with
               | O => [curr]
               | S _ => prev ++ [Text (js " "); curr]
               end)
            (imap (fun idx curr => (idx, curr)) spans) [].

(** [renderInlineDiff] *)
Definition renderInlineDiff (props : Props) : list Node :=
  match originalText props with
  | None => renderTextContent props
  | Some original =>
      if bool_decide (original = []) || bool_decide (original = p_text props)
      then renderTextContent props
      else spaced (map partSpan (Diff.computeWordDiff original (p_text props)))
  end.

(** [hasDiff] *)
Definition hasDiff (props : Props) : bool :=
  isEdited props
  && match originalText props with
     | Some original =>
         negb (bool_decide (original = []))
         && negb (bool_decide (original = p_text props))
     | None => false
     end.

(** The children of the paragraph. *)
Definition paragraph (props : Props) : list Node :=
  if hasDiff props then renderInlineDiff props else renderTextContent props.

(** The words of the spans of the diff that do not carry class [cls]. *)
Definition spanWords (cls : string) (ns : list Node) : list jsstring :=
  omap (fun n =>
          match n with
          | Span className children =>
              if bool_decide (className = Some cls) then None
              else Some (textOf children)
          | Text _ => None
          end) ns.

(** *** The handlers of the text area *)

(** The timer the debounce has pending, with the values its callback closed
    over: the text typed and the [text] prop of that render. *)
Record Timer := { newText : jsstring; t_text : jsstring }.

(** The component's cells; [debounceRef] is the timer that has neither fired
    nor been cleared. *)
Record State := {
  isEditing : bool;
  editedText : jsstring;
  debounceRef : option Timer }.

Inductive Event :=
| TextClick
| Change (value : jsstring)
| Blur
| KeyDown (key : string)
| Fire.

(** One event under a [text] prop: the next cells and the arguments of the
    [onTextChange] calls made.  [Fire] is the pending timer running. *)
Definition handle (text : jsstring) (ev : Event) (s : State)
  : option (State * list jsstring) :=
  match ev with
  | TextClick =>
      Some ({| isEditing := true; editedText := editedText s;
               debounceRef := debounceRef s |}, [])
  | Change value =>
      Some ({| isEditing := isEditing s; editedText := value;
               debounceRef := Some {| newText := value; t_text := text |} |},
            [])
  | Blur =>
      Some ({| isEditing := false; editedText := editedText s;
               debounceRef := None |},
            if bool_decide (editedText s = text) then [] else [editedText s])
  | KeyDown key =>
      if bool_decide (key = "Escape")
      then Some ({| isEditing := false; editedText := text;
                    debounceRef := debounceRef s |}, [])
      else Some (s, [])
  | Fire =>
      match debounceRef s with
      | Some timer =>
          Some ({| isEditing := isEditing s; editedText := editedText s;
                   debounceRef := None |},
                if bool_decide (newText timer = t_text timer) then []
                else [newText timer])
      | None => None
      end
  end.

(** A run of events during which the [text] prop stays the same. *)
Fixpoint handleAll (text : jsstring) (evs : list Event) (s : State)
  : option (State * list jsstring) :=
  match evs with
  | [] => Some (s, [])
  | ev :: evs' =>
      match handle text ev s with
      | Some (s', calls) =>
          match handleAll text evs' s' with
          | Some (s'', calls') => Some (s'', calls ++ calls')
          | None => None
          end
      | None => None
      end
  end.

End Row.

(** ** The upload hook around the poll loop *)

Module Upload.
Import Poll.

Record UploadResponse := {
  id : string;
  filename : string;
  storage_path : string;
  message : string }.

(** The cells of [useAudioUpload]: the ones the poll loop writes, and
    [file]. *)
Record Hook (File : Type) := {
  cells : PollState;
  file : option File }.
Arguments cells {File} h.
Arguments file {File} h.

Definition setTranscriptId (v : option string) (s : PollState) : PollState :=
  {| state := state s; progress := progress s; transcriptId := v;
     error := error s; scheduled := scheduled s; clearCalls := clearCalls s;
     cancelled := cancelled s; issued := issued s; inFlight := inFlight s |}.

(** The cells of the first render. *)
Definition mount {File} : Hook File :=
  {| cells :=
       {| state := UploadState.idle; progress := 0%float;
          transcriptId := None; error := None; scheduled := false;
          clearCalls := 0; cancelled := 0; issued := 0; inFlight := [] |};
     file := None |}.

(** [uploadFile] *)
Definition uploadFile {File} (selectedFile : File)
    (reply : Settled UploadResponse) (h : Hook File) : Hook File :=
  let s := setState UploadState.uploading (cells h) in
  let s := setError None s in
  let s := setProgress 0%float s in
  let s :=
    match reply with
    | Fulfilled result =>
        let s := setTranscriptId (Some (id result)) s in
        let s := setState UploadState.uploaded s in
        setProgress 100%float s
    | Rejected err =>
        let s := setState UploadState.error s in
        setError (Some (messageOf err "Upload failed")) s
    end in
  {| cells := s; file := Some selectedFile |}.

(** [reset] *)
Definition reset {File} (h : Hook File) : Hook File :=
  let s := setState UploadState.idle (cells h) in
  let s := setProgress 0%float s in
  let s := setTranscriptId None s in
  let s := setError None s in
  {| cells := s; file := None |}.

(** The runtime's view of the loop is the same in two states of the
    cells. *)
Definition sameLoop (s r : PollState) : Prop :=
  scheduled r = scheduled s ∧ clearCalls r = clearCalls s
  ∧ cancelled r = cancelled s ∧ issued r = issued s
  ∧ inFlight r = inFlight s.

(** What the cells satisfy while a loop started for [tid] runs and after
    it. *)
Definition polling (tid : string) (s : PollState) : Prop :=
  transcriptId s = Some tid
  ∧ (scheduled s = true
     → state s = UploadState.transcribing ∧ error s = None)
  ∧ (state s = UploadState.error → is_Some (error s))
  ∧ (state s = UploadState.transcribing ∨ state s = UploadState.completed
     ∨ state s = UploadState.error).

End Upload.

(** * Properties *)

Module DiffFacts.
Import Diff.

Lemma drop_at (ws : list jsstring) (i : nat) :
  (i < length ws)%nat → drop i ws = at_ ws i :: drop (S i) ws.
Proof.
  intros Hi. destruct (lookup_lt_is_Some_2 ws i Hi) as [w Hw].
  unfold at_. rewrite Hw. simpl. by apply drop_S.
Qed.

Lemma head_drop (ws : list jsstring) (i : nat) (w : jsstring) :
  head (drop i ws) = Some w ↔ (i < length ws)%nat ∧ at_ ws i = w.
Proof.
  rewrite head_lookup, lookup_drop, Nat.add_0_r. unfold at_. split.
  - intros Hw. split; [by eapply lookup_lt_Some | by rewrite Hw].
  - intros [Hi <-]. destruct (lookup_lt_is_Some_2 ws i Hi) as [w Hw].
    by rewrite Hw.
Qed.

Lemma specWalk_nil_r (o : list jsstring) :
  specWalk o [] = map (part removed) o.
Proof. destruct o; by simp specWalk. Qed.

Lemma head_drop_decide (ws : list jsstring) (i : nat) (w : jsstring) :
  bool_decide (head (drop i ws) = Some w)
  = bool_decide (i < length ws)%nat && bool_decide (at_ ws i = w).
Proof.
  rewrite <- bool_decide_and. apply bool_decide_ext, head_drop.
Qed.

(** The loop on cursors [i], [j] appends to [result] the walk of the words
    from [i] and from [j] on. *)
Lemma diffLoop_specWalk (ow ew : list jsstring) (i j : nat)
    (result : list DiffPart) :
  diffLoop ow ew i j result = result ++ specWalk (drop i ow) (drop j ew).
Proof.
  funelim (diffLoop ow ew i j result).
  - rewrite !drop_ge by done. simp specWalk. by rewrite app_nil_r.
  - rewrite H. rewrite (drop_ge originalWords) by done.
    rewrite (drop_at editedWords j) by done. simp specWalk. simpl.
    by rewrite <- app_assoc.
  - rewrite H. rewrite (drop_ge editedWords) by done.
    rewrite (drop_at originalWords i), !specWalk_nil_r by done. simpl.
    by rewrite <- app_assoc.
  - rewrite (drop_at originalWords i) in H1 |- * by done.
    rewrite (drop_at editedWords j) in H0 |- * by done.
    simp specWalk. rewrite !head_drop_decide.
    repeat case_match;
      first [rewrite H | rewrite H0 | rewrite H1 | rewrite H2];
      by rewrite <- app_assoc.
Qed.

Lemma computeWordDiff_specWalk (original edited : jsstring) :
  computeWordDiff original edited
  = specWalk (split (trim original)) (split (trim edited)).
Proof. unfold computeWordDiff. by rewrite diffLoop_specWalk. Qed.

(** **** Words *)

Lemma splitFrom_nonempty (cur : jsstring) (inSep : bool) (s : jsstring) :
  splitFrom cur inSep s ≠ [].
Proof.
  revert cur inSep. induction s as [|c s IH]; intros cur inSep; simpl.
  - done.
  - repeat case_match; first [apply IH | done].
Qed.

Lemma splitFrom_word (cur w : jsstring) (inSep : bool) :
  Forall (fun c => isWhiteSpace c = false) w →
  w ≠ [] ∨ inSep = false →
  splitFrom cur inSep w = [cur ++ w].
Proof.
  intros Hw. revert cur inSep.
  induction Hw as [|c w Hc Hw IH]; intros cur inSep Hne; simpl.
  - destruct Hne as [Hne | Hne]; [done | by rewrite app_nil_r].
  - rewrite Hc, IH by auto. by rewrite <- app_assoc.
Qed.

Lemma trimStart_blank (s : jsstring) :
  Forall (fun c => isWhiteSpace c = true) s → trimStart s = [].
Proof. induction 1 as [|c s Hc _ IH]; simpl; [done | by rewrite Hc]. Qed.

Lemma trimStart_word (w : jsstring) :
  Forall (fun c => isWhiteSpace c = false) w → trimStart w = w.
Proof. destruct 1 as [|c w Hc _]; simpl; [done | by rewrite Hc]. Qed.

Lemma trim_blank (s : jsstring) :
  Forall (fun c => isWhiteSpace c = true) s → trim s = [].
Proof. intros Hs. unfold trim. by rewrite (trimStart_blank s Hs). Qed.

Lemma trim_word (w : jsstring) :
  Forall (fun c => isWhiteSpace c = false) w → trim w = w.
Proof.
  intros Hw. unfold trim. rewrite (trimStart_word w Hw).
  rewrite trimStart_word by by apply Forall_reverse.
  apply reverse_involutive.
Qed.

Lemma splitFrom_words (cur : jsstring) (inSep : bool) (s : jsstring) :
  Forall (fun c => isWhiteSpace c = false) cur →
  Forall (Forall (fun c => isWhiteSpace c = false)) (splitFrom cur inSep s).
Proof.
  revert cur inSep. induction s as [|c s IH]; intros cur inSep Hcur; simpl.
  - by constructor.
  - destruct (isWhiteSpace c) eqn:Hc.
    + destruct inSep; [by apply IH |]. constructor; [done | by apply IH].
    + apply IH, Forall_app. split; [done | by constructor].
Qed.

Lemma specWalk_nonempty (o e : list jsstring) :
  o ≠ [] → specWalk o e ≠ [].
Proof.
  destruct o as [|x o], e as [|y e]; intros Ho; simp specWalk;
    [done | done | done |].
  repeat case_match; done.
Qed.

(** C7.  For every pair of strings, [computeWordDiff] is the two-cursor
    walk of the specification over the white-space separated words of the
    trimmed strings: equal words are unchanged, an exhausted side leaves the
    rest of the other as added or removed, and a mismatch is settled by one
    word of lookahead (deletion if the next original word is the current
    edited one, else insertion if the next edited word is the current
    original one, else a removed and an added part); no word holds a white
    space character.  The diff of "the quick fox" against "the quick brown
    fox" is unchanged "the", unchanged "quick", added "brown", unchanged
    "fox". *)
Theorem computeWordDiff_single_lookahead (original edited : jsstring) :
  computeWordDiff original edited
  = specWalk (split (trim original)) (split (trim edited))
  ∧ Forall (Forall (fun c => isWhiteSpace c = false)) (split (trim original))
  ∧ Forall (Forall (fun c => isWhiteSpace c = false)) (split (trim edited))
  ∧ computeWordDiff (js "the quick fox") (js "the quick brown fox")
    = [ part unchanged (js "the"); part unchanged (js "quick");
        part added (js "brown"); part unchanged (js "fox") ].
Proof.
  split; [apply computeWordDiff_specWalk |].
  split; [by apply splitFrom_words |].
  split; [by apply splitFrom_words | by vm_compute].
Qed.

(** C10.  [computeWordDiff] never returns an empty array: a string that is
    empty or all white space splits into the single empty word, so both word
    arrays have an element.  With an empty original and one non-empty word
    as the edited string the result is a removed part with the empty text
    followed by the added word. *)
Theorem computeWordDiff_nonempty (original edited : jsstring) :
  computeWordDiff original edited ≠ []
  ∧ (Forall (fun c => isWhiteSpace c = true) original →
     split (trim original) = [[]])
  ∧ (original = [] → edited ≠ [] →
     Forall (fun c => isWhiteSpace c = false) edited →
     computeWordDiff original edited
     = [ part removed []; part added edited ]).
Proof.
  split; [|split].
  - rewrite computeWordDiff_specWalk.
    apply specWalk_nonempty, splitFrom_nonempty.
  - intros Hs. by rewrite trim_blank.
  - intros -> Hne Hw. rewrite computeWordDiff_specWalk, (trim_word edited Hw).
    unfold split at 2. rewrite splitFrom_word by auto.
    change (split (trim [])) with [[] : jsstring]. simpl.
    destruct edited as [|c w]; [done |]. by simp specWalk.
Qed.

Lemma computeWordDiff_nonempty_witness :
  computeWordDiff [] (js "hello") ≠ []
  ∧ split (trim []) = [[]]
  ∧ computeWordDiff [] (js "hello")
    = [ part removed []; part added (js "hello") ].
Proof.
  destruct (computeWordDiff_nonempty [] (js "hello")) as (H1 & H2 & H3).
  split; [exact H1 | split].
  - apply H2. constructor.
  - apply H3; [reflexivity | discriminate |].
    repeat constructor.
Defined.

End DiffFacts.

Module HookFacts.
Import Hook.

(** *** Segments *)

Lemma findSegment_None (segmentId : string) (segments : list Segment.t) :
  findSegment segmentId segments = None
  ↔ ∀ s, s ∈ segments → Segment.id s ≠ segmentId.
Proof.
  unfold findSegment. induction segments as [|s segments IH]; simpl.
  - split; [intros _ s Hs; by apply elem_of_nil in Hs | done].
  - case_bool_decide as Hid.
    + split; [done | intros H; by destruct (H s (list_elem_of_here _ _))].
    + rewrite IH. split.
      * intros H s' [->|Hs']%elem_of_cons; auto.
      * intros H s' Hs'. apply H. by right.
Qed.

Lemma findSegment_id (segmentId : string) (segments : list Segment.t)
    (segment : Segment.t) :
  findSegment segmentId segments = Some segment →
  Segment.id segment = segmentId.
Proof.
  unfold findSegment. intros [_ H]%find_some. by apply bool_decide_eq_true in H.
Qed.

Lemma findSegment_mapSegment (segmentId : string) (f : Segment.t → Segment.t)
    (segments : list Segment.t) :
  (∀ s, Segment.id (f s) = Segment.id s) →
  findSegment segmentId (mapSegment segmentId f segments)
  = f <$> findSegment segmentId segments.
Proof.
  intros Hf. unfold findSegment, mapSegment.
  induction segments as [|s segments IH]; simpl; [done |].
  destruct (decide (Segment.id s = segmentId)) as [Hid | Hid].
  - rewrite !(bool_decide_true (Segment.id s = _)) by done.
    by rewrite bool_decide_true by by rewrite Hf.
  - rewrite !(bool_decide_false (Segment.id s = _)) by done. apply IH.
Qed.

Lemma mapSegment_mapSegment (segmentId : string)
    (f g : Segment.t → Segment.t) (segments : list Segment.t) :
  (∀ s, Segment.id (f s) = Segment.id s) →
  mapSegment segmentId g (mapSegment segmentId f segments)
  = mapSegment segmentId (g ∘ f) segments.
Proof.
  intros Hf. unfold mapSegment. rewrite map_map. apply map_ext. intros s.
  destruct (decide (Segment.id s = segmentId)) as [Hid | Hid].
  - rewrite !(bool_decide_true (Segment.id s = _)) by done.
    by rewrite bool_decide_true by by rewrite Hf.
  - by rewrite !(bool_decide_false (Segment.id s = _)) by done.
Qed.

Lemma mapSegment_ext (segmentId : string) (f g : Segment.t → Segment.t)
    (segments : list Segment.t) :
  (∀ s, s ∈ segments → Segment.id s = segmentId → f s = g s) →
  mapSegment segmentId f segments = mapSegment segmentId g segments.
Proof.
  intros Hfg. unfold mapSegment. apply map_ext_in. intros s Hs%list_elem_of_In.
  case_bool_decide; auto.
Qed.

Lemma mapSegment_other (segmentId : string) (f : Segment.t → Segment.t)
    (segments : list Segment.t) (i : nat) (s : Segment.t) :
  segments !! i = Some s → Segment.id s ≠ segmentId →
  mapSegment segmentId f segments !! i = Some s.
Proof.
  intros Hi Hid. unfold mapSegment. rewrite list_lookup_fmap, Hi. simpl.
  by rewrite bool_decide_false.
Qed.

Lemma mapSegment_length (segmentId : string) (f : Segment.t → Segment.t)
    (segments : list Segment.t) :
  length (mapSegment segmentId f segments) = length segments.
Proof. apply length_map. Qed.

(** *** [updateSegmentText] when it goes through *)

(** The callback of the render [rd] finds the segment in the transcript of
    that render; it runs on the state [st]. *)
Section Effective.
Context (segmentId text : string) (env : Env Segment.t) (rd st : HookState)
        (tr : Transcript.t) (segment : Segment.t).
Hypothesis Htr : transcript rd = Some tr.
Hypothesis Hfind :
  findSegment segmentId (Transcript.segments tr) = Some segment.
Hypothesis Htext : Segment.text segment ≠ text.

Let st' := updateSegmentText segmentId text env rd st.

Let historyItem :=
  {| Hook.segmentId := segmentId; previousText := Segment.text segment;
     newText := text; timestamp := now env |}.

Lemma effective_transcript :
  transcript st'
  = (fun prev =>
       Transcript.withSegments
         (mapSegment segmentId
            match reply env with
            | Fulfilled _ => Segment.edit text
            | Rejected _ =>
                Segment.withText (Segment.text segment)
                ∘ Segment.edit text
            end
            (Transcript.segments prev)) prev) <$> transcript st.
Proof.
  subst st'. unfold updateSegmentText. rewrite Htr, Hfind.
  rewrite bool_decide_false by done.
  destruct (reply env), (isUndoRedo st); simpl;
    destruct (transcript st) as [live|]; simpl; try done.
  all: by rewrite mapSegment_mapSegment.
Qed.

Lemma effective_editHistory :
  editHistory st'
  = if isUndoRedo st then editHistory st
    else pushHistory (historyIndex rd) historyItem (editHistory st).
Proof.
  subst st'. unfold updateSegmentText. rewrite Htr, Hfind.
  rewrite bool_decide_false by done.
  by destruct (reply env), (isUndoRedo st).
Qed.

Lemma effective_historyIndex :
  historyIndex st'
  = if isUndoRedo st then historyIndex st
    else Z.min (historyIndex st + 1) (MAX_HISTORY - 1).
Proof.
  subst st'. unfold updateSegmentText. rewrite Htr, Hfind.
  rewrite bool_decide_false by done.
  by destruct (reply env), (isUndoRedo st).
Qed.

Lemma effective_requests :
  requests st' = requests st ++ [PatchSegment segmentId text].
Proof.
  subst st'. unfold updateSegmentText. rewrite Htr, Hfind.
  rewrite bool_decide_false by done.
  by destruct (reply env), (isUndoRedo st).
Qed.

Lemma effective_error :
  error st'
  = match reply env with
    | Fulfilled _ => error st
    | Rejected err => Some (messageOf err "Failed to save edit")
    end.
Proof.
  subst st'. unfold updateSegmentText. rewrite Htr, Hfind.
  rewrite bool_decide_false by done.
  by destruct (reply env), (isUndoRedo st).
Qed.
End Effective.

(** The same for a call through the callback of the latest render, or of a
    render that differs from the state at hand by the ref only, as in
    [undo] and [redo]: the transcript read and the one written are the
    same. *)
Section Fresh.
Context (segmentId text : string) (env : Env Segment.t) (rd st : HookState)
        (tr : Transcript.t) (segment : Segment.t).
Hypothesis Hsame : transcript st = transcript rd.
Hypothesis Htr : transcript rd = Some tr.
Hypothesis Hfind :
  findSegment segmentId (Transcript.segments tr) = Some segment.
Hypothesis Htext : Segment.text segment ≠ text.

Let st' := updateSegmentText segmentId text env rd st.

Lemma fresh_transcript :
  transcript st'
  = Some (Transcript.withSegments
            (mapSegment segmentId
               match reply env with
               | Fulfilled _ => Segment.edit text
               | Rejected _ =>
                   Segment.withText (Segment.text segment)
                   ∘ Segment.edit text
               end
               (Transcript.segments tr)) tr).
Proof.
  subst st'. rewrite (effective_transcript _ _ env rd st tr segment) by done.
  by rewrite Hsame, Htr.
Qed.
End Fresh.

Lemma updateSegmentText_isUndoRedo (segmentId text : string)
    (env : Env Segment.t) (rd st : HookState) :
  isUndoRedo (updateSegmentText segmentId text env rd st) = isUndoRedo st.
Proof.
  unfold updateSegmentText. repeat case_match; done.
Qed.

(** In replay mode the log and the cursor are not written, whichever render
    the callback comes from. *)
Lemma updateSegmentText_suppressed (segmentId text : string)
    (env : Env Segment.t) (rd st : HookState) :
  isUndoRedo st = true →
  editHistory (updateSegmentText segmentId text env rd st) = editHistory st
  ∧ historyIndex (updateSegmentText segmentId text env rd st)
    = historyIndex st.
Proof.
  intros Hflag. unfold updateSegmentText.
  repeat case_match; simpl; try done; congruence.
Qed.

(** *** Calls that do nothing, calls that fail *)



(** When the request of an [updateSegmentText] call fails, every segment
    with the given id gets the text that the segment found had in the
    render the callback comes from; its [is_edited] flag is [true], the
    segments with another id are as they were, and [error] holds a
    message. *)
Lemma updateSegmentText_failure (segmentId text : string)
    (env : Env Segment.t) (rd st : HookState) (tr live : Transcript.t)
    (segment : Segment.t) (err : Thrown) :
  transcript rd = Some tr →
  findSegment segmentId (Transcript.segments tr) = Some segment →
  Segment.text segment ≠ text →
  reply env = Rejected err →
  transcript st = Some live →
  let st' := updateSegmentText segmentId text env rd st in
  ∃ tr',
    transcript st' = Some tr'
    ∧ Transcript.segments tr'
      = mapSegment segmentId (Segment.edit (Segment.text segment))
                   (Transcript.segments live)
    ∧ (∀ found, findSegment segmentId (Transcript.segments live) = Some found
                → findSegment segmentId (Transcript.segments tr')
                  = Some (Segment.edit (Segment.text segment) found))
    ∧ (∀ i s, Transcript.segments live !! i = Some s →
              Segment.id s ≠ segmentId →
              Transcript.segments tr' !! i = Some s)
    ∧ length (Transcript.segments tr') = length (Transcript.segments live)
    ∧ Transcript.speaker_labels tr' = Transcript.speaker_labels live
    ∧ error st' = Some (messageOf err "Failed to save edit")
    ∧ requests st' = requests st ++ [PatchSegment segmentId text].
Proof.
  intros Htr Hfind Htext Hreply Hlive st'.
  pose proof (effective_transcript _ _ env rd st _ _ Htr Hfind Htext) as Ht.
  pose proof (effective_error _ _ env rd st _ _ Htr Hfind Htext) as He.
  pose proof (effective_requests _ _ env rd st _ _ Htr Hfind Htext) as Hr.
  rewrite Hreply in Ht, He. rewrite Hlive in Ht. simpl in Ht.
  eexists. split; [exact Ht |]. simpl.
  assert (mapSegment segmentId
            (Segment.withText (Segment.text segment) ∘ Segment.edit text)
            (Transcript.segments live)
          = mapSegment segmentId (Segment.edit (Segment.text segment))
              (Transcript.segments live)) as -> by (by apply mapSegment_ext).
  repeat split; try done.
  - intros found Hfound. by rewrite findSegment_mapSegment, Hfound.
  - intros i s Hi Hid. by apply mapSegment_other.
  - apply mapSegment_length.
Qed.

(** C5, at a failing input.  The first segment reads "hello world".  An
    edit to "A" is saved.  In the render that follows, "AB" is typed in the
    row, which starts the debounce timer with the callback of that render;
    before the timer fires, Ctrl+Z undoes the edit, so that the segment
    reads "hello world" again.  The timer fires and its request fails: the
    [catch] gives the segment the text of the callback's render, "A", and
    not the text it had before the call. *)
Theorem failed_save_restores_stale_text :
  let st1 :=
    updateSegmentText "s1" "A" (Sample.ok 10) Sample.loaded Sample.loaded in
  let st2 := undo (Sample.ok 20) st1 st1 in
  let st3 := updateSegmentText "s1" "AB" (Sample.ko 30) st1 st2 in
  segmentText st1 "s1" = Some "A"
  ∧ segmentText st2 "s1" = Some "hello world"
  ∧ segmentText st3 "s1" = Some "A"
  ∧ error st3 = Some "Failed to update segment"
  ∧ requests st3
    = [ GetTranscript "t1"; PatchSegment "s1" "A";
        PatchSegment "s1" "hello world"; PatchSegment "s1" "AB" ].
Proof. by vm_compute. Qed.

(** *** Replay *)

Lemma undo_log (env : Env Segment.t) (rd st : HookState)
    (item : EditHistoryItem) :
  undoItem rd = Some item →
  editHistory (undo env rd st) = editHistory st
  ∧ historyIndex (undo env rd st) = historyIndex st - 1
  ∧ isUndoRedo (undo env rd st) = false.
Proof.
  intros Hitem. unfold undo. rewrite Hitem. simpl.
  destruct (updateSegmentText_suppressed (segmentId item) (previousText item)
              env rd (setIsUndoRedo true st) eq_refl) as [-> ->].
  done.
Qed.

Lemma redo_log (env : Env Segment.t) (rd st : HookState)
    (item : EditHistoryItem) :
  redoItem rd = Some item →
  ∃ st', redo env rd st = Returned st'
         ∧ editHistory st' = editHistory st
         ∧ historyIndex st' = historyIndex st + 1
         ∧ isUndoRedo st' = false.
Proof.
  unfold redoItem, redo. case_match; [done |]. intros ->.
  eexists. split; [done |]. simpl.
  destruct (updateSegmentText_suppressed (segmentId item) (newText item)
              env rd (setIsUndoRedo true st) eq_refl) as [-> ->].
  done.
Qed.

(** C1.  The call of [updateSegmentText] that [undo] and [redo] make with
    the ref raised writes neither the log nor the cursor; so when [undo]
    applies an entry the log is the same afterwards and the cursor is one
    less, and when [redo] applies an entry the log is the same and the
    cursor is one more.  This holds of the callbacks of any render [rd],
    called on any state [st]. *)
Theorem undo_redo_keep_log (env : Env Segment.t) (rd st : HookState) :
  (∀ segmentId text,
     let st' :=
       updateSegmentText segmentId text env rd (setIsUndoRedo true st) in
     editHistory st' = editHistory st ∧ historyIndex st' = historyIndex st)
  ∧ (∀ item, undoItem rd = Some item →
       editHistory (undo env rd st) = editHistory st
       ∧ historyIndex (undo env rd st) = historyIndex st - 1)
  ∧ (∀ item, redoItem rd = Some item →
       ∃ st', redo env rd st = Returned st'
              ∧ editHistory st' = editHistory st
              ∧ historyIndex st' = historyIndex st + 1).
Proof.
  split; [|split].
  - intros segmentId text.
    by apply (updateSegmentText_suppressed _ _ _ rd (setIsUndoRedo true st)).
  - intros item Hitem.
    by destruct (undo_log env rd st item Hitem) as (? & ? & _).
  - intros item Hitem.
    destruct (redo_log env rd st item Hitem) as (st' & ? & ? & ? & _). eauto.
Qed.

Lemma undo_redo_keep_log_witness :
  (editHistory (undo (Sample.ok 40) Sample.edited Sample.edited)
   = editHistory Sample.edited
   ∧ historyIndex (undo (Sample.ok 40) Sample.edited Sample.edited) = 0 - 1)
  ∧ (∃ st', redo (Sample.ok 40) Sample.edited Sample.edited = Returned st'
            ∧ editHistory st' = editHistory Sample.edited
            ∧ historyIndex st' = 0 + 1).
Proof.
  destruct (undo_redo_keep_log (Sample.ok 40) Sample.edited Sample.edited)
    as (_ & Hu & Hr).
  split.
  - apply (Hu {| segmentId := "s1"; previousText := "hello world";
                 newText := "hello there"; timestamp := 10 |}).
    reflexivity.
  - apply (Hr {| segmentId := "s1"; previousText := "hello there";
                 newText := "hi there"; timestamp := 20 |}).
    reflexivity.
Defined.

(** *** The log and the cursor *)

Lemma index_Some {A} (arr : list A) (i : Z) (x : A) :
  index arr i = Some x ↔ 0 ≤ i ∧ arr !! Z.to_nat i = Some x.
Proof.
  unfold index. destruct (Z.ltb_spec i 0); split.
  - done.
  - lia.
  - auto with lia.
  - by intros [_ ?].
Qed.

Lemma index_lt {A} (arr : list A) (i : Z) (x : A) :
  index arr i = Some x → 0 ≤ i < Z.of_nat (length arr).
Proof.
  intros [Hi Hx%lookup_lt_Some]%index_Some. lia.
Qed.

Lemma slice0_take {A} (arr : list A) (end_ : Z) :
  0 ≤ end_ ≤ Z.of_nat (length arr) →
  slice0 arr end_ = take (Z.to_nat end_) arr.
Proof.
  intros H. unfold slice0. destruct (Z.ltb_spec end_ 0); [lia |].
  by rewrite Z.min_l by lia.
Qed.

Lemma tail_length {A} (l : list A) : length (tail l) = pred (length l).
Proof. by destruct l. Qed.

Section Push.
Context (historyIndex : Z) (item : EditHistoryItem)
        (prev : list EditHistoryItem).
Hypothesis Hlen : Z.of_nat (length prev) ≤ MAX_HISTORY.
Hypothesis Hidx : -1 ≤ historyIndex ≤ Z.of_nat (length prev) - 1.

(** Below the cap the entries after the cursor go and the new one is
    appended. *)
Lemma pushHistory_below :
  historyIndex + 1 < MAX_HISTORY →
  pushHistory historyIndex item prev
  = take (Z.to_nat (historyIndex + 1)) prev ++ [item].
Proof.
  intros Hcap. unfold pushHistory. rewrite slice0_take by lia.
  rewrite length_app, length_take. simpl.
  destruct (Z.ltb_spec MAX_HISTORY
              (Z.of_nat (Z.to_nat (historyIndex + 1) `min` length prev + 1)));
    [lia | done].
Qed.

(** At the cap the oldest entry goes. *)
Lemma pushHistory_full :
  MAX_HISTORY ≤ historyIndex + 1 →
  pushHistory historyIndex item prev = tail prev ++ [item]
  ∧ Z.of_nat (length prev) = MAX_HISTORY.
Proof.
  intros Hcap. assert (Z.of_nat (length prev) = MAX_HISTORY) as Hfull by lia.
  split; [|done]. unfold pushHistory. rewrite slice0_take by lia.
  rewrite take_ge by lia. rewrite length_app. simpl.
  destruct (Z.ltb_spec MAX_HISTORY (Z.of_nat (length prev + 1))); [|lia].
  destruct prev; [simpl in Hfull; unfold MAX_HISTORY in Hfull; lia | done].
Qed.

Lemma pushHistory_length :
  Z.of_nat (length (pushHistory historyIndex item prev))
  = Z.min (historyIndex + 2) MAX_HISTORY.
Proof.
  destruct (Z.lt_ge_cases (historyIndex + 1) MAX_HISTORY) as [Hcap | Hcap].
  - rewrite pushHistory_below by done.
    rewrite length_app, length_take. simpl. lia.
  - destruct (pushHistory_full Hcap) as [-> Hfull].
    rewrite length_app, tail_length. simpl. unfold MAX_HISTORY in *. lia.
Qed.

(** After the push the advanced cursor is on the new entry. *)
Lemma pushHistory_cursor :
  index (pushHistory historyIndex item prev)
        (Z.min (historyIndex + 1) (MAX_HISTORY - 1))
  = Some item.
Proof.
  apply index_Some. split; [unfold MAX_HISTORY; lia |].
  destruct (Z.lt_ge_cases (historyIndex + 1) MAX_HISTORY) as [Hcap | Hcap].
  - rewrite pushHistory_below by done.
    rewrite Z.min_l by lia.
    rewrite lookup_app_r by (rewrite length_take; lia).
    rewrite length_take.
    by replace (_ - _)%nat with 0%nat by lia.
  - destruct (pushHistory_full Hcap) as [-> Hfull].
    rewrite Z.min_r by lia.
    unfold MAX_HISTORY in *.
    rewrite lookup_app_r by (rewrite tail_length; lia).
    rewrite tail_length.
    by replace (_ - _)%nat with 0%nat by lia.
Qed.
End Push.

(** *** The log in any run *)

Lemma updateSegmentText_cases (segmentId text : string)
    (env : Env Segment.t) (rd st : HookState) :
  updateSegmentText segmentId text env rd st = st
  ∨ ∃ tr segment,
      transcript rd = Some tr
      ∧ findSegment segmentId (Transcript.segments tr) = Some segment
      ∧ Segment.text segment ≠ text.
Proof.
  unfold updateSegmentText.
  destruct (transcript rd) as [tr|] eqn:Htr; [|by left].
  destruct (findSegment _ _) as [segment|] eqn:Hfind; [|by left].
  case_bool_decide; [by left | right; eauto].
Qed.

(** Whatever cursor the callback has, the push leaves at most [MAX_HISTORY]
    entries. *)
Lemma pushHistory_le (historyIndex : Z) (item : EditHistoryItem)
    (prev : list EditHistoryItem) :
  Z.of_nat (length prev) ≤ MAX_HISTORY →
  Z.of_nat (length (pushHistory historyIndex item prev)) ≤ MAX_HISTORY.
Proof.
  intros Hlen. unfold pushHistory, slice0.
  assert (∀ n, Z.of_nat (length (take n prev ++ [item]))
               ≤ MAX_HISTORY + 1) as Hle.
  { intros n. rewrite length_app, length_take. simpl. lia. }
  destruct (Z.ltb_spec MAX_HISTORY
              (Z.of_nat (length
                 (take (Z.to_nat
                    (if historyIndex + 1 <? 0
                     then Z.max (Z.of_nat (length prev)
                                 + (historyIndex + 1)) 0
                     else Z.min (historyIndex + 1)
                                (Z.of_nat (length prev)))) prev
                  ++ [item])))) as [Hover | Hunder]; [|done].
  rewrite tail_length. specialize (Hle (Z.to_nat
    (if historyIndex + 1 <? 0
     then Z.max (Z.of_nat (length prev) + (historyIndex + 1)) 0
     else Z.min (historyIndex + 1) (Z.of_nat (length prev))))). lia.
Qed.

Lemma renameSpeaker_log (labelId name : string)
    (reply : Settled SpeakerLabel.t) (rd st : HookState) :
  editHistory (renameSpeaker labelId name reply rd st) = editHistory st
  ∧ historyIndex (renameSpeaker labelId name reply rd st) = historyIndex st
  ∧ isUndoRedo (renameSpeaker labelId name reply rd st) = isUndoRedo st.
Proof.
  unfold renameSpeaker, speakerLabelsEffect.
  repeat (case_match; simpl in * ); done.
Qed.

Lemma redo_cases (env : Env Segment.t) (rd st : HookState) :
  redo env rd st = Returned st
  ∨ redo env rd st = TypeError (setIsUndoRedo true st)
  ∨ ∃ item, redoItem rd = Some item.
Proof.
  unfold redo, redoItem. case_match; [by left |].
  destruct (index _ _); [right; right; eauto | by right; left].
Qed.

Lemma apply_length (rd st : HookState) (op : Op) :
  Z.of_nat (length (editHistory st)) ≤ MAX_HISTORY →
  Z.of_nat (length (editHistory (apply rd st op))) ≤ MAX_HISTORY.
Proof.
  intros Hlen. destruct op as [id reply | sid text env | lid name reply
                               | env | env]; simpl.
  - unfold loadTranscript, speakerLabelsEffect.
    destruct reply; simpl; [unfold MAX_HISTORY; lia | done].
  - destruct (updateSegmentText_cases sid text env rd st)
      as [-> | (tr & segment & Htr & Hfind & Htext)]; [done |].
    rewrite (effective_editHistory _ _ env rd st _ _ Htr Hfind Htext).
    destruct (isUndoRedo st); [done | by apply pushHistory_le].
  - by destruct (renameSpeaker_log lid name reply rd st) as (-> & _).
  - destruct (undoItem rd) as [item|] eqn:Hitem.
    + by destruct (undo_log env rd st item Hitem) as (-> & _).
    + unfold undo. by rewrite Hitem.
  - destruct (redo_cases env rd st) as [-> | [-> | [item Hitem]]]; [done.. |].
    by destruct (redo_log env rd st item Hitem) as (st' & -> & -> & _).
Qed.

(** In every run, whatever renders the callbacks come from, the log holds
    at most [MAX_HISTORY] entries. *)
Lemma run_length (steps : list (HookState * Op)) (st : HookState) :
  Z.of_nat (length (editHistory st)) ≤ MAX_HISTORY →
  Z.of_nat (length (editHistory (run steps st))) ≤ MAX_HISTORY.
Proof.
  revert st. induction steps as [|[rd op] steps IH]; intros st Hlen; [done |].
  apply IH. by apply apply_length.
Qed.

(** *** The invariant of the log when callbacks are fresh *)

Lemma updateSegmentText_wellFormed (segmentId text : string)
    (env : Env Segment.t) (st : HookState) :
  wellFormed st → wellFormed (updateSegmentText segmentId text env st st).
Proof.
  intros (Hflag & Hlen & Hidx).
  destruct (updateSegmentText_cases segmentId text env st st)
    as [-> | (tr & segment & Htr & Hfind & Htext)]; [done |].
  unfold wellFormed.
  rewrite updateSegmentText_isUndoRedo,
    (effective_editHistory _ _ env st st _ _ Htr Hfind Htext),
    (effective_historyIndex _ _ env st st _ _ Htr Hfind Htext), Hflag.
  rewrite pushHistory_length by done. unfold MAX_HISTORY in *. lia.
Qed.

Lemma loadTranscript_wellFormed (id : string) (reply : Settled Transcript.t)
    (st : HookState) :
  wellFormed st → wellFormed (loadTranscript id reply st).
Proof.
  intros Hwf. unfold wellFormed, loadTranscript, speakerLabelsEffect.
  destruct reply; simpl; [|done].
  unfold MAX_HISTORY. split; [apply Hwf | lia].
Qed.

Lemma undo_wellFormed (env : Env Segment.t) (st : HookState) :
  wellFormed st → wellFormed (undo env st st).
Proof.
  intros (Hflag & Hlen & Hidx).
  destruct (undoItem st) as [item|] eqn:Hitem.
  - destruct (undo_log env st st item Hitem) as (He & Hi & Hf).
    unfold wellFormed. rewrite He, Hi, Hf.
    unfold undoItem in Hitem. destruct (Z.ltb_spec (historyIndex st) 0);
      [done | lia].
  - unfold undo. by rewrite Hitem.
Qed.

Lemma redoItem_lt (st : HookState) (item : EditHistoryItem) :
  redoItem st = Some item →
  -1 ≤ historyIndex st < Z.of_nat (length (editHistory st)) - 1.
Proof.
  unfold redoItem. destruct (Z.geb_spec (historyIndex st)
    (Z.of_nat (length (editHistory st)) - 1)); [done |].
  intros ?%index_lt. lia.
Qed.

(** In a well-formed state [redo] finds the entry it reads: it does not
    throw. *)
Lemma redo_wellFormed (env : Env Segment.t) (st : HookState) :
  wellFormed st →
  ∃ st', redo env st st = Returned st' ∧ wellFormed st'.
Proof.
  intros Hwf. pose proof Hwf as (Hflag & Hlen & Hidx).
  unfold redo.
  destruct (Z.geb_spec (historyIndex st)
              (Z.of_nat (length (editHistory st)) - 1)) as [Hge | Hlt];
    [by exists st |].
  destruct (index (editHistory st) (historyIndex st + 1)) as [item|] eqn:Hi.
  - assert (redoItem st = Some item) as Hitem.
    { unfold redoItem.
      destruct (Z.geb_spec (historyIndex st)
                  (Z.of_nat (length (editHistory st)) - 1)); [lia | done]. }
    destruct (redo_log env st st item Hitem) as (st' & Hst' & He & Hc & Hf).
    unfold redo in Hst'.
    destruct (Z.geb_spec (historyIndex st)
                (Z.of_nat (length (editHistory st)) - 1)); [lia |].
    rewrite Hi in Hst'. eexists. split; [done |].
    injection Hst' as <-. unfold wellFormed. rewrite He, Hc, Hf. lia.
  - exfalso. unfold index in Hi.
    destruct (Z.ltb_spec (historyIndex st + 1) 0); [lia |].
    apply lookup_ge_None in Hi. lia.
Qed.

Lemma apply_wellFormed (st : HookState) (op : Op) :
  wellFormed st → wellFormed (apply st st op).
Proof.
  intros Hwf. destruct op as [id reply | sid text env | lid name reply
                              | env | env]; simpl.
  - by apply loadTranscript_wellFormed.
  - by apply updateSegmentText_wellFormed.
  - unfold wellFormed.
    by destruct (renameSpeaker_log lid name reply st st) as (-> & -> & ->).
  - by apply undo_wellFormed.
  - by destruct (redo_wellFormed env st Hwf) as (st' & -> & Hwf').
Qed.

Lemma fresh_wellFormed (ops : list Op) (st : HookState) :
  wellFormed st → wellFormed (fresh ops st).
Proof.
  revert st. induction ops as [|op ops IH]; intros st Hwf; [done |].
  apply IH. by apply apply_wellFormed.
Qed.

Lemma initial_wellFormed : wellFormed initial.
Proof. unfold wellFormed, MAX_HISTORY. simpl. lia. Qed.

Lemma undos_log (envs : list (Env Segment.t)) (st : HookState) :
  editHistory (undos envs st) = editHistory st
  ∧ historyIndex (undos envs st) ≤ historyIndex st.
Proof.
  revert st. induction envs as [|env envs IH]; intros st; simpl; [done |].
  destruct (IH (undo env st st)) as [-> Hle].
  destruct (undoItem st) as [item|] eqn:Hitem.
  - destruct (undo_log env st st item Hitem) as (He & Hi & _).
    rewrite He. split; [done | lia].
  - unfold undo in *. by rewrite Hitem in *.
Qed.

(** When every call is made through the callback of the latest render, the
    log holds at most 50 entries and the cursor is [-1] or the index of an
    entry.  When the append of an edit would then make 51 entries, the
    oldest entry is dropped, the cursor is one below the position it was
    advanced to and is on the new entry, and every entry that a later run
    of [undo] calls applies is the new entry or one that was at index 1 or
    more of the old log. *)
Lemma history_bounded (ops : list Op) (segmentId text : string)
    (env : Env Segment.t) (st : HookState) (tr : Transcript.t)
    (segment : Segment.t) :
  (Z.of_nat (length (editHistory (fresh ops initial))) ≤ 50
   ∧ -1 ≤ historyIndex (fresh ops initial)
        ≤ Z.of_nat (length (editHistory (fresh ops initial))) - 1)
  ∧ (wellFormed st →
     transcript st = Some tr →
     findSegment segmentId (Transcript.segments tr) = Some segment →
     Segment.text segment ≠ text →
     let historyItem :=
       {| Hook.segmentId := segmentId; previousText := Segment.text segment;
          newText := text; timestamp := now env |} in
     50 < Z.of_nat (length (slice0 (editHistory st) (historyIndex st + 1)
                            ++ [historyItem])) →
     let st' := updateSegmentText segmentId text env st st in
     editHistory st' = tail (editHistory st) ++ [historyItem]
     ∧ Z.of_nat (length (editHistory st')) = 50
     ∧ historyIndex st' = (historyIndex st + 1) - 1
     ∧ index (editHistory st') (historyIndex st') = Some historyItem
     ∧ ∀ envs item,
         undoItem (undos envs st') = Some item →
         item = historyItem
         ∨ ∃ k, (1 ≤ k)%nat ∧ editHistory st !! k = Some item).
Proof.
  split.
  - destruct (fresh_wellFormed ops initial initial_wellFormed)
      as (_ & Hl & Hi).
    unfold MAX_HISTORY in Hl. done.
  - intros (Hflag & Hlen & Hidx) Htr Hfind Htext historyItem Hover st'.
    assert (MAX_HISTORY ≤ historyIndex st + 1) as Hcap.
    { rewrite slice0_take, length_app, length_take in Hover by lia.
      simpl in Hover. unfold MAX_HISTORY. lia. }
    destruct (pushHistory_full (historyIndex st) historyItem (editHistory st)
                Hlen Hidx Hcap) as [Hpush Hfull].
    pose proof (effective_editHistory _ _ env st st _ _ Htr Hfind Htext)
      as He.
    pose proof (effective_historyIndex _ _ env st st _ _ Htr Hfind Htext)
      as Hi.
    rewrite Hflag in He, Hi. fold historyItem in He. fold st' in He, Hi.
    rewrite Hpush in He. unfold MAX_HISTORY in *.
    assert (historyIndex st' = 49) as Hi' by lia.
    assert (length (tail (editHistory st)) = 49%nat) as Htl
      by (rewrite tail_length; lia).
    split; [done | split; [|split; [lia | split]]].
    + rewrite He, length_app, Htl. simpl. lia.
    + rewrite He, Hi'. apply index_Some. split; [lia |].
      rewrite lookup_app_r by (rewrite Htl; simpl; lia).
      rewrite Htl. done.
    + intros envs item Hitem.
      destruct (undos_log envs st') as [Hlog Hle].
      unfold undoItem in Hitem. rewrite Hlog, He in Hitem.
      destruct (Z.ltb_spec (historyIndex (undos envs st')) 0); [done |].
      apply index_Some in Hitem as [_ Hitem].
      destruct (decide (Z.to_nat (historyIndex (undos envs st')) < 49)%nat).
      * right. exists (S (Z.to_nat (historyIndex (undos envs st')))).
        split; [lia |].
        rewrite lookup_app_l in Hitem by (rewrite Htl; lia).
        by rewrite lookup_tail in Hitem.
      * left. rewrite lookup_app_r in Hitem by (rewrite Htl; lia).
        rewrite Htl in Hitem.
        replace (_ - _)%nat with 0%nat in Hitem by lia.
        simpl in Hitem. congruence.
Qed.

(** C4, at a failing input.  After the load, text is typed in the first
    row, the row is left with Escape, which keeps its debounce timer, and
    before that timer fires text is typed in the second row: both timers
    hold the callback of the render that follows the load, whose cursor is
    [-1].  The first timer records its edit.  The second one slices the log
    at the cursor of its render, which drops the entry just recorded, and
    advances the cursor of the moment: the log has one entry and the cursor
    is 1, past the end of the log.  [canUndo] is true and [undo] finds no
    entry to apply.  It is so for any two edits called from one render. *)
Theorem stale_record_overruns_log :
  let st1 :=
    updateSegmentText "s1" "hello there" (Sample.ok 10) Sample.loaded
      Sample.loaded in
  let st2 :=
    updateSegmentText "s2" "good evening" (Sample.ok 20) Sample.loaded st1 in
  editHistory st2
  = [ {| segmentId := "s2"; previousText := "good morning";
         newText := "good evening"; timestamp := 20 |} ]
  ∧ historyIndex st2 = 1
  ∧ ¬ (historyIndex st2 ≤ Z.of_nat (length (editHistory st2)) - 1)
  ∧ canUndo st2 = true
  ∧ undoItem st2 = None
  ∧ (∀ env, undo env st2 st2 = st2)
  ∧ segmentText st2 "s1" = Some "hello there".
Proof.
  vm_compute. repeat split; done.
Qed.

(** *** Undo, then redo *)

Lemma withSegments_withSegments (segments segments' : list Segment.t)
    (tr : Transcript.t) :
  Transcript.withSegments segments' (Transcript.withSegments segments tr)
  = Transcript.withSegments segments' tr.
Proof. done. Qed.

Lemma replay_transcript (segmentId text : string) (env : Env Segment.t)
    (st : HookState) (tr : Transcript.t) (segment : Segment.t) :
  transcript st = Some tr →
  findSegment segmentId (Transcript.segments tr) = Some segment →
  Segment.text segment ≠ text →
  transcript (updateSegmentText segmentId text env st (setIsUndoRedo true st))
  = Some (Transcript.withSegments
            (mapSegment segmentId
               match reply env with
               | Fulfilled _ => Segment.edit text
               | Rejected _ =>
                   Segment.withText (Segment.text segment) ∘ Segment.edit text
               end
               (Transcript.segments tr)) tr).
Proof.
  intros Htr Hfind Htext.
  by apply (fresh_transcript _ _ env st (setIsUndoRedo true st)).
Qed.

Lemma replay_same_text (segmentId text : string) (env : Env Segment.t)
    (st : HookState) (tr : Transcript.t) (segment : Segment.t) :
  transcript st = Some tr →
  findSegment segmentId (Transcript.segments tr) = Some segment →
  Segment.text segment = text →
  updateSegmentText segmentId text env st (setIsUndoRedo true st)
  = setIsUndoRedo true st.
Proof.
  intros Htr Hfind Htext. unfold updateSegmentText. simpl.
  rewrite Htr, Hfind. by rewrite bool_decide_true.
Qed.

(** C2, amended.  Each call is made through the callback of the latest
    render.  After an edit that was recorded and saved, [undo] followed by a
    [redo] whose request succeeds leaves the segment with the new text, the
    whole transcript as it was before the [undo], and the cursor and the log
    as they were before the [undo].  In between, when the request of the
    [undo] succeeds, the segment has the previous text. *)
Theorem undo_redo_roundtrip (segmentId text : string)
    (env env_u env_r : Env Segment.t) (st : HookState) (tr : Transcript.t)
    (segment saved saved_r : Segment.t) :
  wellFormed st →
  transcript st = Some tr →
  findSegment segmentId (Transcript.segments tr) = Some segment →
  Segment.text segment ≠ text →
  reply env = Fulfilled saved →
  reply env_r = Fulfilled saved_r →
  let st1 := updateSegmentText segmentId text env st st in
  let st2 := undo env_u st1 st1 in
  ∃ st3 tr3 segment3,
    redo env_r st2 st2 = Returned st3
    ∧ historyIndex st2 = historyIndex st1 - 1
    ∧ historyIndex st3 = historyIndex st1
    ∧ editHistory st3 = editHistory st1
    ∧ transcript st3 = transcript st1
    ∧ transcript st3 = Some tr3
    ∧ findSegment segmentId (Transcript.segments tr3) = Some segment3
    ∧ Segment.text segment3 = text
    ∧ (∀ saved_u, reply env_u = Fulfilled saved_u →
         ∃ tr2 segment2,
           transcript st2 = Some tr2
           ∧ findSegment segmentId (Transcript.segments tr2) = Some segment2
           ∧ Segment.text segment2 = Segment.text segment).
Proof.
  intros (Hflag & Hlen & Hidx) Htr Hfind Htext Hreply Hreply_r st1 st2.
  set (historyItem :=
    {| Hook.segmentId := segmentId; previousText := Segment.text segment;
       newText := text; timestamp := now env |}).
  (* the edit *)
  pose proof (fresh_transcript _ _ env st st _ _ eq_refl Htr Hfind Htext)
    as Ht1.
  pose proof (effective_editHistory _ _ env st st _ _ Htr Hfind Htext)
    as He1.
  pose proof (effective_historyIndex _ _ env st st _ _ Htr Hfind Htext)
    as Hi1.
  rewrite Hreply in Ht1. rewrite Hflag in He1, Hi1.
  fold st1 in Ht1, He1, Hi1. fold historyItem in He1.
  remember (Transcript.withSegments _ tr) as tr1 eqn:Etr1 in Ht1.
  assert (findSegment segmentId (Transcript.segments tr1)
          = Some (Segment.edit text segment)) as Hfind1.
  { subst tr1. simpl. by rewrite findSegment_mapSegment, Hfind. }
  assert (undoItem st1 = Some historyItem) as Hundo.
  { unfold undoItem. rewrite Hi1, He1.
    destruct (Z.ltb_spec (Z.min (historyIndex st + 1) (MAX_HISTORY - 1)) 0);
      [unfold MAX_HISTORY in *; lia |].
    by apply pushHistory_cursor. }
  (* the undo *)
  destruct (undo_log env_u st1 st1 _ Hundo) as (He2 & Hi2 & Hf2).
  fold st2 in He2, Hi2, Hf2.
  assert (transcript st2
          = transcript (updateSegmentText segmentId (Segment.text segment)
                          env_u st1 (setIsUndoRedo true st1))) as Ht2.
  { subst st2. unfold undo. by rewrite Hundo. }
  rewrite (replay_transcript _ _ env_u st1 tr1 _ Ht1 Hfind1) in Ht2 by done.
  simpl in Ht2.
  remember (Transcript.withSegments _ tr1) as tr2 eqn:Etr2 in Ht2.
  assert (redoItem st2 = Some historyItem) as Hredo.
  { unfold redoItem. rewrite Hi2, He2.
    assert (Z.of_nat (length (editHistory st1))
            = Z.min (historyIndex st + 2) MAX_HISTORY) as Hl1
      by (rewrite He1; by apply pushHistory_length).
    destruct (Z.geb_spec (historyIndex st1 - 1)
                (Z.of_nat (length (editHistory st1)) - 1));
      [unfold MAX_HISTORY in *; lia |].
    replace (historyIndex st1 - 1 + 1) with (historyIndex st1) by lia.
    rewrite Hi1, He1. by apply pushHistory_cursor. }
  (* the redo *)
  destruct (redo_log env_r st2 st2 _ Hredo)
    as (st3 & Hst3 & He3 & Hi3 & _).
  assert (transcript st3
          = transcript (updateSegmentText segmentId text env_r
                          st2 (setIsUndoRedo true st2))) as Ht3.
  { unfold redo, redoItem in *. destruct (_ >=? _); [done |].
    rewrite Hredo in Hst3. by injection Hst3 as <-. }
  assert (transcript st3 = Some tr1) as Ht3'.
  { rewrite Ht3. destruct (reply env_u) as [saved_u | err_u] eqn:Hreply_u.
    - rewrite (replay_transcript _ _ env_r st2 tr2
                 (Segment.edit (Segment.text segment)
                    (Segment.edit text segment)) Ht2).
      + rewrite Hreply_r. subst tr2 tr1. simpl.
        rewrite !withSegments_withSegments. f_equal. f_equal.
        rewrite !mapSegment_mapSegment by done. by apply mapSegment_ext.
      + subst tr2. simpl. by rewrite findSegment_mapSegment, Hfind1.
      + done.
    - rewrite (replay_same_text _ _ env_r st2 tr2
                 (Segment.withText text
                    (Segment.edit (Segment.text segment)
                       (Segment.edit text segment))) Ht2).
      + simpl. rewrite Ht2. subst tr2 tr1. simpl.
        rewrite !withSegments_withSegments. f_equal. f_equal.
        rewrite !mapSegment_mapSegment by done. by apply mapSegment_ext.
      + subst tr2. simpl. by rewrite findSegment_mapSegment, Hfind1.
      + done. }
  exists st3, tr1, (Segment.edit text segment).
  split; [done |]. split; [done |]. split; [lia |].
  split; [congruence |]. split; [congruence |].
  split; [done |]. split; [done |]. split; [done |].
  intros saved_u Hreply_u. rewrite Hreply_u in Etr2.
  exists tr2, (Segment.edit (Segment.text segment) (Segment.edit text segment)).
  split; [done |]. split; [|done].
  subst tr2. simpl. by rewrite findSegment_mapSegment, Hfind1.
Qed.

Lemma undo_redo_roundtrip_witness :
  let st1 :=
    updateSegmentText "s1" "hello there" (Sample.ok 10) Sample.loaded Sample.loaded in
  let st2 := undo (Sample.ok 20) st1 st1 in
  ∃ st3 tr3 segment3,
    redo (Sample.ok 30) st2 st2 = Returned st3
    ∧ historyIndex st2 = historyIndex st1 - 1
    ∧ historyIndex st3 = historyIndex st1
    ∧ editHistory st3 = editHistory st1
    ∧ transcript st3 = transcript st1
    ∧ transcript st3 = Some tr3
    ∧ findSegment "s1" (Transcript.segments tr3) = Some segment3
    ∧ Segment.text segment3 = "hello there"
    ∧ (∀ saved_u, reply (Sample.ok 20) = Fulfilled saved_u →
         ∃ tr2 segment2,
           transcript st2 = Some tr2
           ∧ findSegment "s1" (Transcript.segments tr2) = Some segment2
           ∧ Segment.text segment2 = "hello world").
Proof.
  apply (undo_redo_roundtrip "s1" "hello there" (Sample.ok 10) (Sample.ok 20)
           (Sample.ok 30) Sample.loaded Sample.transcript1 Sample.segment1
           Sample.segment1 Sample.segment1).
  - vm_compute. repeat split; discriminate.
  - reflexivity.
  - reflexivity.
  - discriminate.
  - reflexivity.
  - reflexivity.
Defined.

(** C2, counterexample: the round trip fails when the request of the
    [redo] fails.  The first segment reads "hello world"; an edit to
    "hello there" is recorded and saved, and [undo] is saved.  The [redo]
    that follows gives the segment the new text, and when its request is
    rejected the [catch] puts back the text of before the [redo]: the
    segment reads "hello world" and not "hello there" as before the
    [undo], while the cursor is back on the entry. *)
Lemma undo_redo_roundtrip_counterexample :
  let st1 :=
    updateSegmentText "s1" "hello there" (Sample.ok 10) Sample.loaded
      Sample.loaded in
  let st2 := undo (Sample.ok 20) st1 st1 in
  ∃ st3,
    redo (Sample.ko 30) st2 st2 = Returned st3
    ∧ segmentText st1 "s1" = Some "hello there"
    ∧ segmentText st3 "s1" = Some "hello world"
    ∧ segmentText st3 "s1" ≠ segmentText st1 "s1"
    ∧ historyIndex st3 = historyIndex st1.
Proof. eexists. split; [by vm_compute |]. by vm_compute. Qed.

(** The round trip also fails after an edit recorded through the callback
    of an older render.  The segment reads "hello world"; an edit to "A" is
    saved, "AB" is typed, Ctrl+Z undoes the edit before the debounce timer
    fires, and the timer records "AB" with the callback of the render that
    showed "A".  The log is then the entry of the first edit followed by
    the new one, with the cursor on the first: [undo] and [redo] through
    the callbacks of the latest renders replay the first edit and leave
    "A" where the segment read "AB". *)
Example stale_record_breaks_roundtrip :
  let st1 :=
    updateSegmentText "s1" "A" (Sample.ok 10) Sample.loaded Sample.loaded in
  let st2 := undo (Sample.ok 20) st1 st1 in
  let st3 := updateSegmentText "s1" "AB" (Sample.ok 30) st1 st2 in
  let st4 := undo (Sample.ok 40) st3 st3 in
  ∃ st5,
    redo (Sample.ok 50) st4 st4 = Returned st5
    ∧ map newText (editHistory st3) = ["A"; "AB"]
    ∧ historyIndex st3 = 0
    ∧ segmentText st3 "s1" = Some "AB"
    ∧ segmentText st5 "s1" = Some "A".
Proof. eexists. split; [by vm_compute |]. by vm_compute. Qed.

(** *** Edits after an undo *)

Lemma record_after_undo (segmentId text : string) (env : Env Segment.t)
    (st : HookState) (tr : Transcript.t) (segment : Segment.t) :
  wellFormed st →
  historyIndex st < Z.of_nat (length (editHistory st)) - 1 →
  transcript st = Some tr →
  findSegment segmentId (Transcript.segments tr) = Some segment →
  Segment.text segment ≠ text →
  let historyItem :=
    {| Hook.segmentId := segmentId; previousText := Segment.text segment;
       newText := text; timestamp := now env |} in
  let st' := updateSegmentText segmentId text env st st in
  editHistory st'
  = take (Z.to_nat (historyIndex st + 1)) (editHistory st) ++ [historyItem]
  ∧ historyIndex st' = historyIndex st + 1
  ∧ canRedo st' = false
  ∧ ∀ env_r, redo env_r st' st' = Returned st'.
Proof.
  intros (Hflag & Hlen & Hidx) Hcur Htr Hfind Htext historyItem st'.
  pose proof (effective_editHistory _ _ env st st _ _ Htr Hfind Htext) as He.
  pose proof (effective_historyIndex _ _ env st st _ _ Htr Hfind Htext)
    as Hi.
  rewrite Hflag in He, Hi. fold historyItem in He. fold st' in He, Hi.
  unfold MAX_HISTORY in *.
  rewrite pushHistory_below in He by (unfold MAX_HISTORY; lia).
  rewrite Z.min_l in Hi by lia.
  assert (Z.of_nat (length (editHistory st')) = historyIndex st + 2) as Hl.
  { rewrite He, length_app, length_take. simpl. lia. }
  split; [done | split; [done | split]].
  - unfold canRedo. apply Z.ltb_ge. lia.
  - intros env_r. unfold redo.
    destruct (Z.geb_spec (historyIndex st')
                (Z.of_nat (length (editHistory st')) - 1)); [done | lia].
Qed.

Lemma saved_edit (segmentId text : string) (env : Env Segment.t)
    (st : HookState) (tr : Transcript.t) (segment saved : Segment.t) :
  wellFormed st →
  transcript st = Some tr →
  findSegment segmentId (Transcript.segments tr) = Some segment →
  Segment.text segment ≠ text →
  reply env = Fulfilled saved →
  let historyItem :=
    {| Hook.segmentId := segmentId; previousText := Segment.text segment;
       newText := text; timestamp := now env |} in
  let st' := updateSegmentText segmentId text env st st in
  wellFormed st'
  ∧ editHistory st'
    = pushHistory (historyIndex st) historyItem (editHistory st)
  ∧ historyIndex st' = Z.min (historyIndex st + 1) (MAX_HISTORY - 1)
  ∧ ∃ tr', transcript st' = Some tr'
           ∧ findSegment segmentId (Transcript.segments tr')
             = Some (Segment.edit text segment).
Proof.
  intros Hwf Htr Hfind Htext Hreply historyItem st'.
  pose proof (fresh_transcript _ _ env st st _ _ eq_refl Htr Hfind Htext)
    as Ht.
  pose proof (effective_editHistory _ _ env st st _ _ Htr Hfind Htext) as He.
  pose proof (effective_historyIndex _ _ env st st _ _ Htr Hfind Htext)
    as Hi.
  destruct Hwf as (Hflag & Hlen & Hidx) eqn:Hwf'. clear Hwf'.
  rewrite Hreply in Ht. rewrite Hflag in He, Hi.
  split; [by apply updateSegmentText_wellFormed |].
  split; [done | split; [done |]].
  eexists. split; [exact Ht |]. simpl.
  by rewrite findSegment_mapSegment, Hfind.
Qed.

Lemma saved_undo (env : Env Segment.t) (st : HookState) (tr : Transcript.t)
    (item : EditHistoryItem) (segment saved : Segment.t) :
  wellFormed st →
  undoItem st = Some item →
  transcript st = Some tr →
  findSegment (segmentId item) (Transcript.segments tr) = Some segment →
  Segment.text segment ≠ previousText item →
  reply env = Fulfilled saved →
  let st' := undo env st st in
  wellFormed st'
  ∧ editHistory st' = editHistory st
  ∧ historyIndex st' = historyIndex st - 1
  ∧ ∃ tr', transcript st' = Some tr'
           ∧ findSegment (segmentId item) (Transcript.segments tr')
             = Some (Segment.edit (previousText item) segment).
Proof.
  intros Hwf Hitem Htr Hfind Htext Hreply st'.
  destruct (undo_log env st st item Hitem) as (He & Hi & _).
  split; [by apply undo_wellFormed |]. split; [done | split; [done |]].
  assert (transcript st'
          = transcript (updateSegmentText (segmentId item) (previousText item)
                          env st (setIsUndoRedo true st))) as ->.
  { subst st'. unfold undo. by rewrite Hitem. }
  rewrite (replay_transcript _ _ env st tr segment Htr Hfind Htext), Hreply.
  eexists. split; [done |]. simpl.
  by rewrite findSegment_mapSegment, Hfind.
Qed.

(** When every call is made through the callback of the latest render and
    the cursor is before the last entry, an edit keeps the entries up to
    the cursor, drops the ones after it and appends its own entry; the
    cursor is then on the last entry, so [canRedo] is false and [redo]
    returns without doing anything.  So it is after record A, record B,
    undo, record C from an empty log: the log is A, C. *)
Lemma record_discards_redo (segmentId text : string) (env : Env Segment.t)
    (st : HookState) (tr : Transcript.t) (segment : Segment.t)
    (a b c : string) (env_a env_b env_u env_c : Env Segment.t)
    (st0 : HookState) (tr0 : Transcript.t)
    (segment0 saved_a saved_b saved_u : Segment.t) :
  (wellFormed st →
   historyIndex st < Z.of_nat (length (editHistory st)) - 1 →
   transcript st = Some tr →
   findSegment segmentId (Transcript.segments tr) = Some segment →
   Segment.text segment ≠ text →
   let historyItem :=
     {| Hook.segmentId := segmentId; previousText := Segment.text segment;
        newText := text; timestamp := now env |} in
   let st' := updateSegmentText segmentId text env st st in
   editHistory st'
   = take (Z.to_nat (historyIndex st + 1)) (editHistory st) ++ [historyItem]
   ∧ historyIndex st' = historyIndex st + 1
   ∧ canRedo st' = false
   ∧ ∀ env_r, redo env_r st' st' = Returned st')
  ∧ (wellFormed st0 →
     editHistory st0 = [] →
     transcript st0 = Some tr0 →
     findSegment segmentId (Transcript.segments tr0) = Some segment0 →
     Segment.text segment0 ≠ a → a ≠ b → a ≠ c →
     reply env_a = Fulfilled saved_a →
     reply env_b = Fulfilled saved_b →
     reply env_u = Fulfilled saved_u →
     let st4 :=
       fresh [ Edit segmentId a env_a; Edit segmentId b env_b; Undo env_u;
             Edit segmentId c env_c ] st0 in
     editHistory st4
     = [ {| Hook.segmentId := segmentId;
            previousText := Segment.text segment0;
            newText := a; timestamp := now env_a |};
         {| Hook.segmentId := segmentId; previousText := a;
            newText := c; timestamp := now env_c |} ]
     ∧ historyIndex st4 = 1
     ∧ canRedo st4 = false
     ∧ ∀ env_r, redo env_r st4 st4 = Returned st4).
Proof.
  split; [apply record_after_undo |].
  intros Hwf0 Hlog0 Htr0 Hfind0 Ha Hab Hac Hra Hrb Hru. simpl.
  assert (historyIndex st0 = -1) as Hi0.
  { destruct Hwf0 as (_ & _ & Hidx). rewrite Hlog0 in Hidx.
    simpl in Hidx. lia. }
  destruct (saved_edit segmentId a env_a st0 tr0 segment0 saved_a)
    as (Hwf1 & He1 & Hi1 & tr1 & Htr1 & Hfind1); [done.. |].
  rewrite Hlog0, Hi0 in He1. rewrite Hi0 in Hi1.
  change (pushHistory (-1) ?x []) with [x] in He1.
  change (Z.min (-1 + 1) (MAX_HISTORY - 1)) with 0 in Hi1.
  destruct (saved_edit segmentId b env_b _ tr1 _ saved_b Hwf1 Htr1 Hfind1)
    as (Hwf2 & He2 & Hi2 & tr2 & Htr2 & Hfind2); [done.. |].
  rewrite He1, Hi1 in He2. rewrite Hi1 in Hi2. simpl in He2, Hi2.
  change (pushHistory 0 ?y [?x]) with [x; y] in He2.
  change (Z.min (0 + 1) (MAX_HISTORY - 1)) with 1 in Hi2.
  destruct (saved_undo env_u _ tr2
              {| Hook.segmentId := segmentId; previousText := a;
                 newText := b; timestamp := now env_b |}
              (Segment.edit b (Segment.edit a segment0)) saved_u Hwf2)
    as (Hwf3 & He3 & Hi3 & tr3 & Htr3 & Hfind3); [| done.. |].
  { unfold undoItem. by rewrite Hi2, He2. }
  rewrite He2 in He3. rewrite Hi2 in Hi3. simpl in Htr3, Hfind3.
  destruct (record_after_undo segmentId c env_c _ tr3
              (Segment.edit a (Segment.edit b (Segment.edit a segment0))) Hwf3)
    as (He4 & Hi4 & Hc4 & Hr4); [| done.. |].
  { by rewrite He3, Hi3. }
  rewrite He3, Hi3 in He4. rewrite Hi3 in Hi4. done.
Qed.

(** C3, at a failing input.  The first segment reads "hello world".  Edits
    to "A" and then to "B" are recorded and saved.  In the render that
    follows, whose cursor is 1, "C" is typed in the row, which starts the
    debounce timer with the callback of that render; before the timer
    fires, Ctrl+Z undoes B and moves the cursor to 0.  The timer fires: the
    callback slices the log at the cursor of its render, which keeps B, and
    advances the cursor of the moment to 1.  The log is A, B, C with the
    cursor on B: [canRedo] is true and [redo] is not a no-op, it moves the
    cursor on to C. *)
Theorem stale_record_keeps_redo :
  let st2 :=
    fresh [ Edit "s1" "A" (Sample.ok 1); Edit "s1" "B" (Sample.ok 2) ]
          Sample.loaded in
  let st3 := undo (Sample.ok 3) st2 st2 in
  let st4 := updateSegmentText "s1" "C" (Sample.ok 4) st2 st3 in
  historyIndex st2 = 1
  ∧ historyIndex st3 = 0
  ∧ map newText (editHistory st4) = ["A"; "B"; "C"]
  ∧ historyIndex st4 = 1
  ∧ canRedo st4 = true
  ∧ ∃ st5, redo (Sample.ok 5) st4 st4 = Returned st5
           ∧ st5 ≠ st4
           ∧ historyIndex st5 = 2.
Proof.
  vm_compute. repeat split; try done.
  eexists. split; [done |]. split; [|done]. intros [=].
Qed.

(** *** A rename that fails *)

Lemma findLabel_mapLabel (labelId : string)
    (f : SpeakerLabel.t → SpeakerLabel.t) (labels : list SpeakerLabel.t) :
  (∀ l, SpeakerLabel.id (f l) = SpeakerLabel.id l) →
  findLabel labelId (mapLabel labelId f labels)
  = f <$> findLabel labelId labels.
Proof.
  intros Hf. unfold findLabel, mapLabel.
  induction labels as [|l labels IH]; simpl; [done |].
  destruct (decide (SpeakerLabel.id l = labelId)) as [Hid | Hid].
  - rewrite !(bool_decide_true (SpeakerLabel.id l = _)) by done.
    by rewrite bool_decide_true by by rewrite Hf.
  - rewrite !(bool_decide_false (SpeakerLabel.id l = _)) by done. apply IH.
Qed.

(** After a rename whose request fails, the map of displayed names has the
    prior name again and [error] holds a message, but the label in the
    transcript still carries the new name. *)
Lemma renameSpeaker_failure (labelId name : string) (err : Thrown)
    (rd st : HookState) (tr live : Transcript.t) (label : SpeakerLabel.t) :
  transcript rd = Some tr →
  findLabel labelId (Transcript.speaker_labels tr) = Some label →
  transcript st = Some live →
  let st' := renameSpeaker labelId name (Rejected err) rd st in
  speakerNames st' !! SpeakerLabel.speaker_id label
  = Some (SpeakerLabel.displayName label)
  ∧ error st' = Some (messageOf err "Failed to rename speaker")
  ∧ ∃ tr', transcript st' = Some tr'
           ∧ Transcript.speaker_labels tr'
             = mapLabel labelId (SpeakerLabel.rename name)
                        (Transcript.speaker_labels live)
           ∧ ∀ found,
               findLabel labelId (Transcript.speaker_labels live) = Some found
               → findLabel labelId (Transcript.speaker_labels tr')
                 = Some (SpeakerLabel.rename name found).
Proof.
  intros Htr Hfind Hlive st'. subst st'. unfold renameSpeaker.
  rewrite Htr, Hfind. unfold speakerLabelsEffect. simpl. rewrite Hlive. simpl.
  split; [apply lookup_insert_eq |]. split; [reflexivity |].
  rewrite Hlive. eexists. split; [reflexivity |]. simpl.
  split; [done |]. intros found Hfound.
  by rewrite findLabel_mapLabel, Hfound.
Qed.

(** C8, at a failing input.  Speaker A has no custom name.  Renaming its
    label to "Alice" with a request that fails shows "Speaker A" again and
    sets [error], but the label in the transcript keeps [custom_name]
    "Alice" instead of [null]; the next rebuild of the names, here after a
    rename of the other label, shows "Alice". *)
Theorem renameSpeaker_failure_keeps_custom_name :
  let st' :=
    renameSpeaker "l1" "Alice"
      (Rejected (ErrorObject "Failed to update speaker")) Sample.loaded Sample.loaded in
  getSpeakerName st' "A" = Str "Speaker A"
  ∧ error st' = Some "Failed to update speaker"
  ∧ (SpeakerLabel.custom_name
       <$> (transcript st'
            ≫= fun tr => findLabel "l1" (Transcript.speaker_labels tr)))
    = Some (Some "Alice")
  ∧ SpeakerLabel.custom_name Sample.label1 = None
  ∧ getSpeakerName
      (renameSpeaker "l2" "Robert" (Fulfilled Sample.label2) st' st') "A"
    = Str "Alice".
Proof. by vm_compute. Qed.

End HookFacts.

Module PollFacts.
Import Poll.

Lemma transcribe_started (tid : string) (start : TranscriptionStatus.t) :
  tid ≠ EmptyString →
  let s := transcribe (Fulfilled start) (uploaded tid) in
  scheduled s = true ∧ consistent s ∧ issued s = 0%nat ∧ inFlight s = [].
Proof.
  intros Htid. unfold transcribe, consistent. simpl.
  by rewrite bool_decide_false.
Qed.

Lemma resume_fields (reply : Settled TranscriptionStatus.t) (s : PollState) :
  issued (resume reply s) = issued s
  ∧ inFlight (resume reply s) = inFlight s
  ∧ (scheduled s = false → scheduled (resume reply s) = false)
  ∧ (clearCalls (resume reply s) ≤ S (clearCalls s))%nat
  ∧ (clearCalls s ≤ clearCalls (resume reply s))%nat.
Proof.
  unfold resume. destruct reply as [st | err];
    [destruct (TranscriptionStatus.status st) |];
    simpl; auto with lia.
Qed.

Lemma resume_stops (reply : Settled TranscriptionStatus.t) (s : PollState) :
  stops reply = true →
  scheduled (resume reply s) = false
  ∧ clearCalls (resume reply s) = S (clearCalls s).
Proof.
  unfold resume, stops. destruct reply as [st | err];
    [destruct (TranscriptionStatus.status st) |];
    simpl; done.
Qed.

Lemma resume_consistent (reply : Settled TranscriptionStatus.t)
    (s : PollState) :
  consistent s → consistent (resume reply s).
Proof.
  unfold resume, consistent.
  destruct reply as [st | err]; [destruct (TranscriptionStatus.status st) |];
    simpl; destruct (scheduled s); simpl; intros [-> ?]; auto with lia.
Qed.

Lemma step_consistent (s s' : PollState) (ev : Event) :
  consistent s → step s ev = Some s' → consistent s'.
Proof.
  intros Hs. destruct ev as [|k reply]; simpl.
  - unfold consistent in *. destruct (scheduled s) eqn:Hsch; [|done].
    intros [= <-]. simpl. by rewrite Hsch.
  - case_bool_decide; [|done]. intros [= <-]. by apply resume_consistent.
Qed.

Lemma exec_consistent (evs : list Event) (s s' : PollState) :
  consistent s → exec s evs = Some s' → consistent s'.
Proof.
  revert s. induction evs as [|ev evs IH]; intros s Hs; simpl.
  - by intros [= <-].
  - destruct (step s ev) as [s1|] eqn:Hstep; [|done].
    apply IH. by eapply step_consistent.
Qed.

Lemma settle_length (k : nat) (s : PollState) :
  k ∈ inFlight s →
  (S (length (inFlight (settle k s))) ≤ length (inFlight s))%nat.
Proof.
  intros Hk. simpl. induction (inFlight s) as [|k' ks IH].
  - by apply elem_of_nil in Hk.
  - rewrite filter_cons. apply elem_of_cons in Hk as [<- | Hk].
    + rewrite decide_False by auto.
      pose proof (length_filter (λ k', k' ≠ k) ks).
      simpl. lia.
    + case_decide; simpl; specialize (IH Hk); lia.
Qed.

(** Once the interval is cleared it stays so: the interval does not fire,
    no request is issued, and [clearInterval] is called again only by
    callbacks that were already waiting for their reply. *)
Lemma exec_cleared (evs : list Event) (s s' : PollState) :
  scheduled s = false → exec s evs = Some s' →
  scheduled s' = false
  ∧ issued s' = issued s
  ∧ (Tick ∉ evs)
  ∧ (clearCalls s' + length (inFlight s')
     ≤ clearCalls s + length (inFlight s))%nat.
Proof.
  revert s. induction evs as [|ev evs IH]; intros s Hs; simpl.
  - intros [= <-]. split; [done | split; [done | split; [|done]]].
    apply not_elem_of_nil.
  - destruct ev as [|k reply]; simpl; [by rewrite Hs |].
    case_bool_decide as Hk; [|done]. intros Hexec.
    destruct (resume_fields reply (settle k s)) as (Hi & Hf & Hsch & Hc & _).
    destruct (IH _ (Hsch Hs) Hexec) as (Hs' & Hi' & Hticks & Hcalls).
    pose proof (settle_length k s Hk) as Hlen.
    rewrite Hi in Hi'. rewrite Hf in Hcalls. simpl in Hc.
    split; [done | split; [done | split]].
    + intros [?|?]%elem_of_cons; done.
    + simpl in *. lia.
Qed.

(** C9.  In every run of the loop that [transcribe] starts, when a status
    request settles with "completed", with "failed" or with an error, the
    callback calls [clearInterval] once and the interval is cleared; from
    then on the interval stays cleared and has been cancelled exactly once
    in the whole run, it does not fire again, and no status request is
    issued.  [clearInterval] is called again only by callbacks whose request
    was already awaited at that moment. *)
Theorem poll_stops (tid : string) (start : TranscriptionStatus.t)
    (evs1 evs2 : list Event) (k : nat) (reply : Settled TranscriptionStatus.t)
    (s0 s1 s2 : PollState) :
  tid ≠ EmptyString →
  exec (transcribe (Fulfilled start) (uploaded tid)) evs1 = Some s0 →
  step s0 (Settle k reply) = Some s1 →
  stops reply = true →
  exec s1 evs2 = Some s2 →
  clearCalls s1 = S (clearCalls s0)
  ∧ scheduled s1 = false
  ∧ scheduled s2 = false
  ∧ cancelled s2 = 1%nat
  ∧ issued s2 = issued s0
  ∧ (Tick ∉ evs2)
  ∧ (clearCalls s2 ≤ clearCalls s1 + length (inFlight s1))%nat
  ∧ (scheduled s0 = true → inFlight s1 = [] → clearCalls s2 = 1%nat).
Proof.
  intros Htid Hexec1 Hstep Hstops Hexec2.
  destruct (transcribe_started tid start Htid) as (_ & Hc & _).
  pose proof (exec_consistent _ _ _ Hc Hexec1) as Hc0.
  simpl in Hstep. case_bool_decide as Hk; [|done]. injection Hstep as <-.
  destruct (resume_stops reply (settle k s0) Hstops) as [Hsch1 Hcalls1].
  destruct (resume_fields reply (settle k s0)) as (Hi1 & _).
  destruct (exec_cleared _ _ _ Hsch1 Hexec2)
    as (Hsch2 & Hi2 & Hticks & Hcalls2).
  pose proof (exec_consistent _ _ _
                (resume_consistent reply _ (Hc0 : consistent (settle k s0)))
                Hexec2) as Hc2.
  unfold consistent in Hc0, Hc2. rewrite Hsch2 in Hc2.
  simpl in Hcalls1, Hi1.
  split; [done | split; [done | split; [done | split; [apply Hc2 |]]]].
  split; [congruence | split; [done | split; [lia |]]].
  intros Hsch0 Hnone. rewrite Hsch0 in Hc0. rewrite Hnone in Hcalls2.
  simpl in Hcalls2. lia.
Qed.

Lemma poll_stops_witness :
  let s0 := {| state := UploadState.transcribing; progress := 40%float;
               transcriptId := Some "t1"; error := None; scheduled := true;
               clearCalls := 0; cancelled := 0; issued := 2;
               inFlight := [1%nat] |} in
  let s1 := {| state := UploadState.error; progress := 40%float;
               transcriptId := Some "t1";
               error := Some "Transcription failed"; scheduled := false;
               clearCalls := 1; cancelled := 1; issued := 2;
               inFlight := [] |} in
  clearCalls s1 = S (clearCalls s0)
  ∧ scheduled s1 = false
  ∧ scheduled s1 = false
  ∧ cancelled s1 = 1%nat
  ∧ issued s1 = issued s0
  ∧ (Tick ∉ [])
  ∧ (clearCalls s1 ≤ clearCalls s1 + length (inFlight s1))%nat
  ∧ (scheduled s0 = true → inFlight s1 = [] → clearCalls s1 = 1%nat).
Proof.
  intros s0 s1.
  apply (poll_stops "t1" (sampleStatus processing)
           [Tick; Settle 0 (Fulfilled (sampleStatus processing)); Tick] []
           1 (Fulfilled (sampleStatus failed)) s0 s1 s1).
  - discriminate.
  - by vm_compute.
  - by vm_compute.
  - reflexivity.
  - reflexivity.
Defined.

(** When two status requests are awaited at once and both settle with a
    terminal status, the second callback calls [clearInterval] on the
    interval the first one cleared. *)
Example overlapping_polls :
  ∃ s, exec (transcribe (Fulfilled (sampleStatus processing)) (uploaded "t1"))
            [ Tick; Tick; Settle 0 (Fulfilled (sampleStatus completed));
              Settle 1 (Fulfilled (sampleStatus completed)) ] = Some s
       ∧ cancelled s = 1%nat ∧ clearCalls s = 2%nat ∧ issued s = 2%nat.
Proof. eexists. split; [by vm_compute | done]. Qed.

End PollFacts.

Module DiffSideFacts.
Import Diff Row.

Lemma sides_added (ws : list jsstring) :
  originalSide (map (part added) ws) = []
  ∧ editedSide (map (part added) ws) = ws.
Proof.
  unfold originalSide, editedSide.
  induction ws as [|w ws [IH1 IH2]]; simpl; [done |]. by rewrite IH2.
Qed.

Lemma sides_removed (ws : list jsstring) :
  originalSide (map (part removed) ws) = ws
  ∧ editedSide (map (part removed) ws) = [].
Proof.
  unfold originalSide, editedSide.
  induction ws as [|w ws [IH1 IH2]]; simpl; [done |]. by rewrite IH1.
Qed.

Lemma specWalk_sides (o e : list jsstring) :
  originalSide (specWalk o e) = o ∧ editedSide (specWalk o e) = e.
Proof.
  funelim (specWalk o e).
  - apply sides_added.
  - apply sides_removed.
  - unfold originalSide, editedSide in *.
    repeat case_bool_decide; simpl;
      repeat match goal with
             | H : _ ∧ _ |- _ => destruct H as [-> ->]
             end; subst; done.
Qed.

Lemma specWalk_same (ws : list jsstring) :
  specWalk ws ws = map (part unchanged) ws.
Proof.
  induction ws as [|w ws IH]; simp specWalk; [done |].
  rewrite bool_decide_true by done. simpl. by rewrite IH.
Qed.

Lemma filter_unchanged_other (t : DiffType) (ws : list jsstring) :
  t ≠ unchanged → List.filter (hasType unchanged) (map (part t) ws) = [].
Proof.
  intros Ht. induction ws as [|w ws IH]; simpl; [done |]. by destruct t.
Qed.

Lemma specWalk_count (o e : list jsstring) :
  (length (specWalk o e)
   + length (List.filter (hasType unchanged) (specWalk o e))
   = length o + length e)%nat.
Proof.
  funelim (specWalk o e).
  - rewrite filter_unchanged_other, length_map by done. simpl. lia.
  - rewrite filter_unchanged_other, length_map by done. simpl. lia.
  - repeat case_bool_decide; simpl in *; lia.
Qed.

(** **** The ends of a trimmed string *)

Lemma trimStart_startsClean (s : jsstring) : startsClean (trimStart s).
Proof.
  induction s as [|c s IH]; simpl; [done |].
  destruct (isWhiteSpace c) eqn:Hc; [done | by unfold startsClean; simpl].
Qed.

Lemma trimStart_suffix (s : jsstring) :
  ∃ l, s = l ++ trimStart s ∧ Forall (fun c => isWhiteSpace c = true) l.
Proof.
  induction s as [|c s (l & Hs & Hl)]; simpl; [by exists [] |].
  destruct (isWhiteSpace c) eqn:Hc.
  - exists (c :: l). split; [by rewrite Hs at 1 | by constructor].
  - by exists [].
Qed.

Lemma trimStart_endsClean (s : jsstring) :
  endsClean s → endsClean (trimStart s).
Proof.
  destruct (trimStart_suffix s) as (l & Hs & _). unfold endsClean.
  destruct (trimStart s) as [|c t] eqn:Ht; [done |].
  intros He. rewrite Hs in He. by rewrite last_app_cons in He.
Qed.

Lemma trim_ends (s : jsstring) : startsClean (trim s) ∧ endsClean (trim s).
Proof.
  unfold trim. pose proof (trimStart_startsClean s) as H1.
  pose proof (trimStart_startsClean (reverse (trimStart s))) as H2.
  assert (endsClean (reverse (trimStart s))) as H3.
  { unfold endsClean, startsClean in *. by rewrite last_reverse. }
  apply trimStart_endsClean in H3.
  unfold startsClean, endsClean in *.
  rewrite head_reverse, last_reverse. done.
Qed.

(** The words of a string with clean ends are not empty. *)
Lemma splitFrom_full (s cur : jsstring) (inSep : bool) :
  endsClean s →
  (s = [] → cur ≠ []) →
  (inSep = false → cur = [] → startsClean s) →
  Forall (fun w => w ≠ []) (splitFrom cur inSep s).
Proof.
  revert cur inSep. induction s as [|c s IH]; intros cur inSep He Hc Hs; simpl.
  - constructor; auto.
  - assert (endsClean s) as He'.
    { unfold endsClean in *. destruct s; [done | by rewrite last_cons_cons in He]. }
    destruct (isWhiteSpace c) eqn:Hws.
    + assert (s ≠ []) as Hne.
      { intros ->. unfold endsClean in He. simpl in He. congruence. }
      destruct inSep.
      * apply IH; [done | done | done].
      * constructor.
        -- intros ->. specialize (Hs eq_refl eq_refl).
           unfold startsClean in Hs. simpl in Hs. congruence.
        -- apply IH; [done | done | done].
    + apply IH; [done | by destruct cur | by destruct cur].
Qed.

Lemma trim_clean (s : jsstring) : startsClean s → endsClean s → trim s = s.
Proof.
  intros Hs He. unfold trim.
  assert (∀ t, startsClean t → trimStart t = t) as Hid.
  { intros [|c t] Ht; simpl; [done |]. unfold startsClean in Ht.
    simpl in Ht. by rewrite Ht. }
  rewrite (Hid s Hs). rewrite Hid; [apply reverse_involutive |].
  unfold startsClean, endsClean in *. by rewrite head_reverse.
Qed.

Lemma trim_nonblank_words (s : jsstring) :
  trim s ≠ [] → Forall (fun w => w ≠ []) (split (trim s)).
Proof.
  intros Hne. destruct (trim_ends s) as [Hs He].
  apply splitFrom_full; [done | done | done].
Qed.

Lemma sides_unchanged (parts : list DiffPart) :
  Forall (fun part => type part = unchanged) parts →
  originalSide parts = editedSide parts.
Proof.
  unfold originalSide, editedSide.
  induction 1 as [|part parts Hpart _ IH]; simpl; [done |].
  unfold hasType in *. rewrite Hpart. simpl. by f_equal.
Qed.

(** **** The sides of [computeWordDiff] *)

Lemma diff_sides (original edited : jsstring) :
  originalSide (computeWordDiff original edited) = split (trim original)
  ∧ editedSide (computeWordDiff original edited) = split (trim edited).
Proof.
  rewrite DiffFacts.computeWordDiff_specWalk. apply specWalk_sides.
Qed.

(** X1.  The parts of a diff that are not added spell, in order, the words
    of the original string, and the parts that are not removed the words of
    the edited string. *)
Theorem computeWordDiff_sides (original edited : jsstring) :
  originalSide (computeWordDiff original edited) = split (trim original)
  ∧ editedSide (computeWordDiff original edited) = split (trim edited).
Proof. apply diff_sides. Qed.

(** X2.  A diff has only unchanged parts exactly when the two strings have
    the same words, whatever white space separates or surrounds them. *)
Theorem computeWordDiff_unchanged_iff (original edited : jsstring) :
  Forall (fun part => type part = unchanged) (computeWordDiff original edited)
  ↔ split (trim original) = split (trim edited).
Proof.
  rewrite DiffFacts.computeWordDiff_specWalk. split.
  - intros Hall.
    destruct (specWalk_sides (split (trim original)) (split (trim edited)))
      as [Ho He].
    etrans; [symmetry; exact Ho |]. etrans; [| exact He].
    by apply sides_unchanged.
  - intros ->. rewrite specWalk_same. apply Forall_fmap.
    by apply Forall_true.
Qed.

(** X3.  The number of parts is the number of original words plus the
    number of edited words less the number of unchanged parts: at least as
    many as the longer side has words and at most as many as both have. *)
Theorem computeWordDiff_length (original edited : jsstring) :
  let parts := computeWordDiff original edited in
  let o := length (split (trim original)) in
  let e := length (split (trim edited)) in
  (length parts + length (List.filter (hasType unchanged) parts) = o + e)%nat
  ∧ (o ≤ length parts)%nat ∧ (e ≤ length parts)%nat
  ∧ (length parts ≤ o + e)%nat.
Proof.
  intros parts o e.
  pose proof (specWalk_count (split (trim original)) (split (trim edited)))
    as Hcount.
  destruct (diff_sides original edited) as [Ho He].
  rewrite <- DiffFacts.computeWordDiff_specWalk in Hcount. fold parts in Hcount.
  apply (f_equal length) in Ho, He. unfold originalSide, editedSide in Ho, He.
  rewrite length_map in Ho, He. fold parts in Ho, He.
  pose proof (List.filter_length_le
                (fun part => negb (hasType added part)) parts).
  pose proof (List.filter_length_le
                (fun part => negb (hasType removed part)) parts).
  subst o e. lia.
Qed.

Lemma elem_of_originalSide (parts : list DiffPart) (part : DiffPart) :
  part ∈ parts → hasType added part = false →
  Diff.text part ∈ originalSide parts.
Proof.
  intros Hin Ht. unfold originalSide. apply list_elem_of_fmap.
  exists part. split; [done |]. apply list_elem_of_In, filter_In.
  split; [by apply list_elem_of_In | by rewrite Ht].
Qed.

Lemma elem_of_editedSide (parts : list DiffPart) (part : DiffPart) :
  part ∈ parts → hasType removed part = false →
  Diff.text part ∈ editedSide parts.
Proof.
  intros Hin Ht. unfold editedSide. apply list_elem_of_fmap.
  exists part. split; [done |]. apply list_elem_of_In, filter_In.
  split; [by apply list_elem_of_In | by rewrite Ht].
Qed.

Lemma diff_part_texts (original edited : jsstring) (part : DiffPart) :
  part ∈ computeWordDiff original edited →
  Forall (fun c => isWhiteSpace c = false) (Diff.text part)
  ∧ (Diff.text part = [] →
     (type part ≠ added → trim original = [])
     ∧ (type part ≠ removed → trim edited = [])).
Proof.
  intros Hin. destruct (diff_sides original edited) as [Ho He].
  assert (∀ s, Diff.text part ∈ split (trim s) →
               Forall (fun c => isWhiteSpace c = false) (Diff.text part)
               ∧ (Diff.text part = [] → trim s = [])) as Hword.
  { intros s Hs. split.
    - pose proof (DiffFacts.splitFrom_words [] false (trim s)
                    (Forall_nil_2 _)) as Hall.
      rewrite Forall_forall in Hall. by apply Hall.
    - intros Hnil. destruct (decide (trim s = [])) as [|Hne]; [done |].
      pose proof (trim_nonblank_words s Hne) as Hall.
      rewrite Forall_forall in Hall. by destruct (Hall _ Hs). }
  pose proof (elem_of_originalSide _ _ Hin) as Hio.
  pose proof (elem_of_editedSide _ _ Hin) as Hie.
  rewrite Ho in Hio. rewrite He in Hie. unfold hasType in Hio, Hie.
  destruct (type part) eqn:Ht.
  - destruct (Hword edited (Hie eq_refl)) as [Hfree Hempty].
    split; [done |]. intros Hnil. split; [done | auto].
  - destruct (Hword original (Hio eq_refl)) as [Hfree Hempty].
    split; [done |]. intros Hnil. split; [auto | done].
  - destruct (Hword original (Hio eq_refl)) as [Hfree Hempty].
    destruct (Hword edited (Hie eq_refl)) as [_ Hempty'].
    split; [done |]. intros Hnil. split; auto.
Qed.

(** X4.  The text of a part holds no white space, and it is empty only when
    the side the part belongs to is blank: a removed or unchanged part with
    the empty text needs an original that trims to the empty string, an
    added or unchanged one such an edited string. *)
Theorem computeWordDiff_part_texts (original edited : jsstring)
    (part : DiffPart) :
  part ∈ computeWordDiff original edited →
  Forall (fun c => isWhiteSpace c = false) (Diff.text part)
  ∧ (Diff.text part = [] →
     (type part ≠ added → trim original = [])
     ∧ (type part ≠ removed → trim edited = [])).
Proof. apply diff_part_texts. Qed.

Lemma computeWordDiff_part_texts_witness :
  Forall (fun c => isWhiteSpace c = false) (js "brown")
  ∧ (js "brown" = [] →
     (added ≠ added → trim (js "the quick fox") = [])
     ∧ (added ≠ removed → trim (js "the quick brown fox") = [])).
Proof.
  apply (computeWordDiff_part_texts (js "the quick fox")
           (js "the quick brown fox") (part added (js "brown"))).
  vm_compute. do 2 right. left.
Defined.

End DiffSideFacts.

Module RowFacts.
Import Diff Row.

(** *** The inline diff *)

Lemma spaced_fold (ns acc : list Node) (g : nat → Node → nat * Node) :
  (∀ i n, ∃ j, g i n = (S j, n)) →
  fold_left (fun prev '(idx, curr) =>
               match idx with
               | O => [curr]
               | S _ => prev ++ [Text (js " "); curr]
               end)
            (imap g ns) acc
  = acc ++ flat_map (fun n => [Text (js " "); n]) ns.
Proof.
  revert acc g. induction ns as [|n ns IH]; intros acc g Hg; simpl.
  - by rewrite app_nil_r.
  - destruct (Hg 0%nat n) as [j ->]. rewrite IH.
    + by rewrite <- app_assoc.
    + intros i m. apply Hg.
Qed.

Lemma spaced_cons (n : Node) (ns : list Node) :
  spaced (n :: ns) = n :: flat_map (fun m => [Text (js " "); m]) ns.
Proof.
  unfold spaced. simpl. rewrite spaced_fold; [done |].
  intros i m. by exists i.
Qed.

Lemma spanWords_spaces (cls : string) (ns : list Node) :
  spanWords cls (flat_map (fun m => [Text (js " "); m]) ns)
  = spanWords cls ns.
Proof.
  unfold spanWords. induction ns as [|m ns IH]; [done |].
  cbn [flat_map app].
  change (Text (js " ") :: m :: ?l) with ([Text (js " "); m] ++ l).
  change (m :: ns) with ([m] ++ ns).
  rewrite !omap_app, IH. done.
Qed.

Lemma spanWords_spaced (cls : string) (ns : list Node) :
  spanWords cls (spaced ns) = spanWords cls ns.
Proof.
  destruct ns as [|n ns]; [done |]. rewrite spaced_cons.
  change (n :: ?l) with ([n] ++ l). unfold spanWords at 1 2.
  rewrite !omap_app. f_equal. apply spanWords_spaces.
Qed.

Lemma spanWords_cons (cls : string) (n : Node) (ns : list Node) :
  spanWords cls (n :: ns) = spanWords cls [n] ++ spanWords cls ns.
Proof.
  change (n :: ns) with ([n] ++ ns). unfold spanWords. apply omap_app.
Qed.

Lemma spanWords_span (cls : string) (className : option string)
    (t : jsstring) :
  spanWords cls [Span className [Text t]]
  = if bool_decide (className = Some cls) then [] else [t].
Proof.
  unfold spanWords, textOf. simpl. case_bool_decide; [done |].
  by rewrite app_nil_r.
Qed.

Lemma spanWords_removed (parts : list DiffPart) :
  spanWords "diff-removed" (map partSpan parts) = editedSide parts.
Proof.
  induction parts as [|p parts IH]; [done |].
  cbn [map]. rewrite spanWords_cons, IH.
  unfold editedSide, partSpan, hasType. cbn [List.filter].
  destruct (type p); by rewrite spanWords_span.
Qed.

Lemma spanWords_added (parts : list DiffPart) :
  spanWords "diff-added" (map partSpan parts) = originalSide parts.
Proof.
  induction parts as [|p parts IH]; [done |].
  cbn [map]. rewrite spanWords_cons, IH.
  unfold originalSide, partSpan, hasType. cbn [List.filter].
  destruct (type p); by rewrite spanWords_span.
Qed.

(** The text of the spaced spans: the texts of the parts with one space
    between two of them. *)
Lemma textOf_spaced (p : DiffPart) (parts : list DiffPart) :
  textOf (spaced (map partSpan (p :: parts)))
  = Diff.text p ++ flat_map (fun q => 32%N :: Diff.text q) parts.
Proof.
  simpl. rewrite spaced_cons. unfold textOf. simpl.
  assert (textContent (partSpan p) = Diff.text p) as ->.
  { unfold partSpan. destruct (type p); simpl; apply app_nil_r. }
  f_equal. induction parts as [|q parts IH]; simpl; [done |].
  rewrite IH. f_equal. f_equal.
  unfold partSpan. destruct (type q); simpl; apply app_nil_r.
Qed.

(** **** Splitting what was joined *)

Lemma splitFrom_space (w rest cur : jsstring) (inSep : bool) :
  Forall (fun c => isWhiteSpace c = false) w →
  w ≠ [] ∨ inSep = false →
  splitFrom cur inSep (w ++ 32%N :: rest)
  = (cur ++ w) :: splitFrom [] true rest.
Proof.
  intros Hw. revert cur inSep.
  induction Hw as [|c w Hc Hw IH]; intros cur inSep Hne; simpl.
  - destruct Hne as [Hne | ->]; [done |]. by rewrite app_nil_r.
  - rewrite Hc, IH by auto. by rewrite <- app_assoc.
Qed.

Lemma splitFrom_joined (ws : list jsstring) (w cur : jsstring)
    (inSep : bool) :
  Forall (fun c => isWhiteSpace c = false) w →
  Forall (fun v => v ≠ [] ∧ Forall (fun c => isWhiteSpace c = false) v) ws →
  w ≠ [] ∨ inSep = false →
  splitFrom cur inSep (w ++ flat_map (fun v => 32%N :: v) ws)
  = (cur ++ w) :: ws.
Proof.
  intros Hw Hws. revert w cur inSep Hw.
  induction Hws as [|v ws [Hv Hfree] _ IH]; intros w cur inSep Hw Hne; simpl.
  - rewrite app_nil_r. by apply DiffFacts.splitFrom_word.
  - rewrite splitFrom_space by done. f_equal.
    rewrite (IH v [] true) by auto. done.
Qed.

Lemma joined_clean (ws : list jsstring) (w : jsstring) :
  w ≠ [] →
  Forall (fun c => isWhiteSpace c = false) w →
  Forall (fun v => v ≠ [] ∧ Forall (fun c => isWhiteSpace c = false) v) ws →
  startsClean (w ++ flat_map (fun v => 32%N :: v) ws)
  ∧ endsClean (w ++ flat_map (fun v => 32%N :: v) ws).
Proof.
  intros Hne Hw Hws. split.
  - destruct Hw as [|c w Hc _]; [done |]. by unfold startsClean.
  - revert w Hne Hw.
    induction Hws as [|v ws [Hv Hfree] _ IH]; intros w Hne Hw; simpl.
    + rewrite app_nil_r. unfold endsClean.
      destruct (last w) as [c|] eqn:Hlast; [|done].
      rewrite Forall_forall in Hw. apply Hw.
      apply last_Some in Hlast as [w' ->]. set_solver.
    + unfold endsClean in *. rewrite last_app_cons.
      destruct v as [|c v]; [done |]. cbn [app]. rewrite last_cons_cons.
      by apply (IH (c :: v)).
Qed.

(** X5.  When there is an original text that differs from the current one,
    [renderInlineDiff] shows the current text's words in the spans that are
    not marked removed and the original's words in the spans that are not
    marked added, in order; and unless one of the two texts is blank, the
    text of the rendered nodes splits back into the texts of the parts, one
    word per part. *)
Theorem renderInlineDiff_words (props : Props) (original : jsstring) :
  originalText props = Some original →
  original ≠ [] →
  original ≠ p_text props →
  let nodes := renderInlineDiff props in
  spanWords "diff-removed" nodes = split (trim (p_text props))
  ∧ spanWords "diff-added" nodes = split (trim original)
  ∧ (trim original ≠ [] → trim (p_text props) ≠ [] →
     split (trim (textOf nodes))
     = map Diff.text (computeWordDiff original (p_text props))).
Proof.
  intros Horig Hne Hdiff nodes. subst nodes. unfold renderInlineDiff.
  rewrite Horig, !bool_decide_false by done. simpl.
  destruct (DiffSideFacts.diff_sides original (p_text props)) as [Ho He].
  rewrite !spanWords_spaced, spanWords_removed, spanWords_added.
  split; [done | split; [done |]]. intros Hbo Hbe.
  assert (Forall (fun v => v ≠ []
                           ∧ Forall (fun c => isWhiteSpace c = false) v)
            (map Diff.text (computeWordDiff original (p_text props))))
    as Hparts.
  { apply Forall_fmap, Forall_forall. intros part Hin. simpl.
    destruct (DiffSideFacts.diff_part_texts _ _ _ Hin) as [Hfree Hempty].
    split; [|done]. intros Hnil. destruct (Hempty Hnil) as [H1 H2].
    destruct (type part); [apply Hbe, H2 | apply Hbo, H1 | apply Hbo, H1];
      done. }
  destruct (computeWordDiff original (p_text props)) as [|p parts] eqn:Hd.
  { exfalso. revert Hd. rewrite DiffFacts.computeWordDiff_specWalk.
    apply DiffFacts.specWalk_nonempty, DiffFacts.splitFrom_nonempty. }
  rewrite textOf_spaced. cbn [map] in *.
  apply Forall_cons in Hparts as [[Hp Hpfree] Hparts].
  assert (flat_map (fun q => 32%N :: Diff.text q) parts
          = flat_map (fun v => 32%N :: v) (map Diff.text parts)) as ->.
  { clear. induction parts as [|q parts IH]; simpl; [done |]. by rewrite IH. }
  destruct (joined_clean _ _ Hp Hpfree Hparts) as [Hs Hend].
  rewrite DiffSideFacts.trim_clean by done. unfold split.
  by rewrite splitFrom_joined by auto.
Qed.

Lemma renderInlineDiff_words_witness :
  let props :=
    {| p_text := js "the quick brown fox";
       originalText := Some (js "the quick fox");
       words := None; isEdited := true; showFillerWords := true |} in
  let nodes := renderInlineDiff props in
  spanWords "diff-removed" nodes = split (trim (js "the quick brown fox"))
  ∧ spanWords "diff-added" nodes = split (trim (js "the quick fox"))
  ∧ (trim (js "the quick fox") ≠ [] → trim (js "the quick brown fox") ≠ [] →
     split (trim (textOf nodes))
     = map Diff.text
           (computeWordDiff (js "the quick fox") (js "the quick brown fox"))).
Proof.
  intros props.
  apply (renderInlineDiff_words props (js "the quick fox"));
    [reflexivity | discriminate | discriminate].
Defined.

(** *** The handlers *)

Lemma handleAll_app (text : jsstring) (evs1 evs2 : list Event) (s : State) :
  handleAll text (evs1 ++ evs2) s
  = match handleAll text evs1 s with
    | Some (s', calls) =>
        match handleAll text evs2 s' with
        | Some (s'', calls') => Some (s'', calls ++ calls')
        | None => None
        end
    | None => None
    end.
Proof.
  revert s. induction evs1 as [|ev evs1 IH]; intros s; simpl.
  - by destruct (handleAll text evs2 s) as [[s' calls]|].
  - destruct (handle text ev s) as [[s1 calls1]|]; [|done]. rewrite IH.
    destruct (handleAll text evs1 s1) as [[s2 calls2]|]; [|done].
    destruct (handleAll text evs2 s2) as [[s3 calls3]|]; [|done].
    by rewrite app_assoc.
Qed.

(** A burst of typing makes no call and leaves one timer, for the last
    value. *)
Lemma typing (text last : jsstring) (values : list jsstring) (s : State) :
  handleAll text (map Change (values ++ [last])) s
  = Some ({| isEditing := isEditing s; editedText := last;
             debounceRef := Some {| newText := last; t_text := text |} |},
          []).
Proof.
  revert s. induction values as [|v values IH]; intros s; [done |].
  cbn [app map handleAll handle]. by rewrite IH.
Qed.


(** X7.  Escape puts the saved text back in the text area and leaves
    editing, but it does not clear the debounce timer: when the timer fires
    afterwards, the value typed before Escape is saved all the same. *)
Theorem escape_keeps_pending_save (text last : jsstring)
    (values : list jsstring) (s : State) :
  let typed := map Change (values ++ [last]) in
  handleAll text (typed ++ [KeyDown "Escape"]) s
  = Some ({| isEditing := false; editedText := text;
             debounceRef := Some {| newText := last; t_text := text |} |},
          [])
  ∧ handleAll text (typed ++ [KeyDown "Escape"; Fire]) s
    = Some ({| isEditing := false; editedText := text;
               debounceRef := None |},
            if bool_decide (last = text) then [] else [last]).
Proof.
  intros typed. subst typed. rewrite !handleAll_app, typing.
  simpl. repeat split; by case_bool_decide.
Qed.

End RowFacts.

Module HookMoreFacts.
Import Hook HookFacts.

(** *** What a call leaves alone *)

Lemma mapSegment_ids (segmentId : string) (f : Segment.t → Segment.t)
    (segments : list Segment.t) :
  (∀ s, Segment.id (f s) = Segment.id s) →
  map Segment.id (mapSegment segmentId f segments) = map Segment.id segments.
Proof.
  intros Hf. unfold mapSegment. rewrite map_map. apply map_ext. intros s.
  by case_bool_decide.
Qed.

Lemma findSegment_ids (segmentId : string) (segments : list Segment.t) :
  is_Some (findSegment segmentId segments)
  ↔ segmentId ∈ map Segment.id segments.
Proof.
  rewrite <- not_eq_None_Some, findSegment_None, list_elem_of_fmap. split.
  - intros H. destruct (decide (segmentId ∈ map Segment.id segments))
      as [Hin | Hnot]; [by apply list_elem_of_fmap in Hin |].
    destruct H. intros s Hs <-. apply Hnot, list_elem_of_fmap. eauto.
  - intros (s & -> & Hs) H. by apply (H s).
Qed.

(** Whichever render the callback comes from, the call leaves the names,
    [loading], the speaker labels and the ids of the segments. *)
Lemma updateSegmentText_frame (segmentId text : string)
    (env : Env Segment.t) (rd st : HookState) :
  let st' := updateSegmentText segmentId text env rd st in
  speakerNames st' = speakerNames st
  ∧ loading st' = loading st
  ∧ (Transcript.speaker_labels <$> transcript st')
    = (Transcript.speaker_labels <$> transcript st)
  ∧ ((fun tr => map Segment.id (Transcript.segments tr)) <$> transcript st')
    = ((fun tr => map Segment.id (Transcript.segments tr)) <$> transcript st).
Proof.
  intros st'. subst st'.
  destruct (updateSegmentText_cases segmentId text env rd st)
    as [-> | (tr & segment & Htr & Hfind & Htext)]; [done |].
  rewrite (effective_transcript _ _ env rd st _ _ Htr Hfind Htext).
  split; [|split; [|split]].
  - unfold updateSegmentText. rewrite Htr, Hfind, bool_decide_false by done.
    by destruct (reply env), (isUndoRedo st).
  - unfold updateSegmentText. rewrite Htr, Hfind, bool_decide_false by done.
    by destruct (reply env), (isUndoRedo st).
  - by destruct (transcript st).
  - destruct (transcript st) as [live|]; [|done]. simpl. f_equal.
    apply mapSegment_ids. by destruct (reply env).
Qed.

(** X8.  When the request of an edit succeeds, the segment with the given
    id that the state has gets the new text and is marked edited, every
    segment with another id, the speaker labels, the speaker names,
    [loading] and [error] are as before, and one request was sent; the
    segment the backend returns is not used.  The callback may come from any
    render [rd] that passes the guards. *)
Theorem updateSegmentText_success (segmentId text : string)
    (env : Env Segment.t) (rd st : HookState) (tr live : Transcript.t)
    (segment found saved : Segment.t) :
  transcript rd = Some tr →
  findSegment segmentId (Transcript.segments tr) = Some segment →
  Segment.text segment ≠ text →
  reply env = Fulfilled saved →
  transcript st = Some live →
  findSegment segmentId (Transcript.segments live) = Some found →
  let st' := updateSegmentText segmentId text env rd st in
  ∃ tr' segment',
    transcript st' = Some tr'
    ∧ findSegment segmentId (Transcript.segments tr') = Some segment'
    ∧ segment' = Segment.edit text found
    ∧ Segment.text segment' = text
    ∧ Segment.is_edited segment' = true
    ∧ (∀ i s, Transcript.segments live !! i = Some s →
              Segment.id s ≠ segmentId →
              Transcript.segments tr' !! i = Some s)
    ∧ length (Transcript.segments tr') = length (Transcript.segments live)
    ∧ Transcript.speaker_labels tr' = Transcript.speaker_labels live
    ∧ speakerNames st' = speakerNames st
    ∧ loading st' = loading st
    ∧ error st' = error st
    ∧ requests st' = requests st ++ [PatchSegment segmentId text].
Proof.
  intros Htr Hfind Htext Hreply Hlive Hfound st'.
  pose proof (effective_transcript _ _ env rd st _ _ Htr Hfind Htext) as Ht.
  pose proof (effective_error _ _ env rd st _ _ Htr Hfind Htext) as He.
  pose proof (effective_requests _ _ env rd st _ _ Htr Hfind Htext) as Hr.
  destruct (updateSegmentText_frame segmentId text env rd st)
    as (Hn & Hl & _).
  rewrite Hreply in Ht, He. rewrite Hlive in Ht. simpl in Ht.
  eexists. exists (Segment.edit text found). split; [exact Ht |]. simpl.
  repeat split; try done.
  - by rewrite findSegment_mapSegment, Hfound.
  - intros i s Hi Hid. by apply mapSegment_other.
  - apply mapSegment_length.
Qed.

Lemma updateSegmentText_success_witness :
  let st' :=
    updateSegmentText "s1" "hello there" (Sample.ok 7) Sample.loaded
      Sample.loaded in
  ∃ tr' segment',
    transcript st' = Some tr'
    ∧ findSegment "s1" (Transcript.segments tr') = Some segment'
    ∧ segment' = Segment.edit "hello there" Sample.segment1
    ∧ Segment.text segment' = "hello there"
    ∧ Segment.is_edited segment' = true
    ∧ (∀ i s, Transcript.segments Sample.transcript1 !! i = Some s →
              Segment.id s ≠ "s1" →
              Transcript.segments tr' !! i = Some s)
    ∧ length (Transcript.segments tr')
      = length (Transcript.segments Sample.transcript1)
    ∧ Transcript.speaker_labels tr'
      = Transcript.speaker_labels Sample.transcript1
    ∧ speakerNames st' = speakerNames Sample.loaded
    ∧ loading st' = loading Sample.loaded
    ∧ error st' = error Sample.loaded
    ∧ requests st'
      = requests Sample.loaded ++ [PatchSegment "s1" "hello there"].
Proof.
  apply (updateSegmentText_success "s1" "hello there" (Sample.ok 7)
           Sample.loaded Sample.loaded Sample.transcript1 Sample.transcript1
           Sample.segment1 Sample.segment1 Sample.segment1).
  - reflexivity.
  - reflexivity.
  - discriminate.
  - reflexivity.
  - reflexivity.
  - reflexivity.
Defined.

(** *** The entries of the log *)

Lemma soundEntry_ids (st st' : HookState) (entry : EditHistoryItem) :
  ((fun tr => map Segment.id (Transcript.segments tr)) <$> transcript st')
  = ((fun tr => map Segment.id (Transcript.segments tr)) <$> transcript st) →
  soundEntry st entry → soundEntry st' entry.
Proof.
  intros Hids (Hne & tr & Htr & Hin). split; [done |].
  rewrite Htr in Hids. destruct (transcript st') as [tr'|]; [|done].
  exists tr'. split; [done |]. simpl in Hids. congruence.
Qed.

Lemma elem_of_pushHistory (historyIndex : Z) (item entry : EditHistoryItem)
    (prev : list EditHistoryItem) :
  entry ∈ pushHistory historyIndex item prev → entry = item ∨ entry ∈ prev.
Proof.
  unfold pushHistory, slice0. cbv zeta.
  generalize (Z.to_nat
    (if historyIndex + 1 <? 0
     then Z.max (Z.of_nat (length prev) + (historyIndex + 1)) 0
     else Z.min (historyIndex + 1) (Z.of_nat (length prev)))).
  intros n Hin.
  assert (entry ∈ take n prev ++ [item]) as Hin'.
  { case_match; [|done].
    destruct (take n prev ++ [item]) as [|e l]; [done |]. simpl in Hin.
    by right. }
  apply elem_of_app in Hin' as [Hin' | Hin'].
  - right. rewrite <- (take_drop n prev). apply elem_of_app. by left.
  - left. by apply list_elem_of_singleton in Hin'.
Qed.

Lemma undo_ids (env : Env Segment.t) (rd st : HookState) :
  ((fun tr => map Segment.id (Transcript.segments tr))
     <$> transcript (undo env rd st))
  = ((fun tr => map Segment.id (Transcript.segments tr)) <$> transcript st).
Proof.
  unfold undo. destruct (undoItem rd) as [item|]; [|done]. simpl.
  by destruct (updateSegmentText_frame (segmentId item) (previousText item)
                 env rd (setIsUndoRedo true st)) as (_ & _ & _ & ->).
Qed.

Lemma redo_ids (env : Env Segment.t) (rd st st' : HookState) :
  redo env rd st = Returned st' ∨ redo env rd st = TypeError st' →
  ((fun tr => map Segment.id (Transcript.segments tr)) <$> transcript st')
  = ((fun tr => map Segment.id (Transcript.segments tr)) <$> transcript st)
  ∧ editHistory st' = editHistory st.
Proof.
  unfold redo. case_match; [by intros [[= <-] | [=]] |].
  destruct (index _ _) as [item|]; [|by intros [[=] | [= <-]]].
  intros [[= <-] | [=]]. simpl.
  destruct (updateSegmentText_frame (segmentId item) (newText item)
              env rd (setIsUndoRedo true st)) as (_ & _ & _ & ->).
  by destruct (updateSegmentText_suppressed (segmentId item) (newText item)
                 env rd (setIsUndoRedo true st) eq_refl) as [-> _].
Qed.

Lemma renameSpeaker_segments (labelId name : string)
    (reply : Settled SpeakerLabel.t) (rd st : HookState) :
  (Transcript.segments <$> transcript (renameSpeaker labelId name reply rd st))
  = (Transcript.segments <$> transcript st).
Proof.
  unfold renameSpeaker, speakerLabelsEffect.
  destruct (transcript rd) as [tr|]; [|done].
  destruct (findLabel _ _); [|done]. simpl.
  destruct (transcript st) as [live|] eqn:Hlive; simpl;
    destruct reply; simpl; by rewrite ?Hlive.
Qed.

Lemma apply_soundEntries (rd st : HookState) (op : Op) :
  sameSegments rd st →
  Forall (soundEntry st) (editHistory st) →
  Forall (soundEntry (apply rd st op)) (editHistory (apply rd st op)).
Proof.
  intros Hsame Hall.
  destruct op as [id reply | sid text env | lid name reply | env | env];
    simpl.
  - unfold loadTranscript, speakerLabelsEffect.
    destruct reply; simpl; [by constructor |].
    eapply Forall_impl; [exact Hall |]. by intros entry [? ?].
  - destruct (updateSegmentText_frame sid text env rd st)
      as (_ & _ & _ & Hids).
    destruct (updateSegmentText_cases sid text env rd st)
      as [-> | (tr & segment & Htr & Hfind & Htext)]; [done |].
    rewrite (effective_editHistory _ _ env rd st _ _ Htr Hfind Htext).
    assert (Forall (soundEntry (updateSegmentText sid text env rd st))
                   (editHistory st)) as Hold.
    { eapply Forall_impl; [exact Hall |]. intros entry.
      by apply soundEntry_ids. }
    destruct (isUndoRedo st); [done |].
    apply Forall_forall. intros entry Hin.
    apply elem_of_pushHistory in Hin as [-> | Hin].
    + destruct (Hsame tr Htr) as (live & Hlive & Hsegs).
      apply (soundEntry_ids st); [done |]. split; [done |]. simpl.
      exists live. split; [done |]. rewrite <- Hsegs.
      apply findSegment_ids. by rewrite Hfind.
    + rewrite Forall_forall in Hold. by apply Hold.
  - destruct (renameSpeaker_log lid name reply rd st) as (-> & _).
    eapply Forall_impl; [exact Hall |]. intros entry.
    apply soundEntry_ids.
    pose proof (renameSpeaker_segments lid name reply rd st) as Hsegs.
    destruct (transcript (renameSpeaker lid name reply rd st)),
      (transcript st); simpl in *; congruence.
  - assert (editHistory (undo env rd st) = editHistory st) as ->.
    { destruct (undoItem rd) as [item|] eqn:Hitem.
      - by destruct (undo_log env rd st item Hitem) as (-> & _).
      - unfold undo. by rewrite Hitem. }
    eapply Forall_impl; [exact Hall |]. intros entry.
    apply soundEntry_ids, undo_ids.
  - destruct (redo env rd st) as [st'|st'] eqn:Hredo.
    + destruct (redo_ids env rd st st' (or_introl Hredo)) as [Hids ->].
      eapply Forall_impl; [exact Hall |]. intros entry.
      by apply soundEntry_ids.
    + destruct (redo_ids env rd st st' (or_intror Hredo)) as [Hids ->].
      eapply Forall_impl; [exact Hall |]. intros entry.
      by apply soundEntry_ids.
Qed.

Lemma run_soundEntries (steps : list (HookState * Op)) (st : HookState) :
  callbacks sameSegments steps st →
  Forall (soundEntry st) (editHistory st) →
  Forall (soundEntry (run steps st)) (editHistory (run steps st)).
Proof.
  revert st. induction steps as [|[rd op] steps IH]; intros st Hcb Hall;
    [done |].
  destruct Hcb as [Hsame Hcb]. apply IH; [done |].
  by apply apply_soundEntries.
Qed.

(** X9.  Whatever calls are made from the first render on, through the
    callbacks of the latest render or of older renders that show the
    transcript at hand, every entry of the log records a change of text
    (its previous and new text differ) of a segment that the transcript at
    hand has: [undo] and [redo] never aim at a segment that is not
    there. *)
Theorem log_entries_sound (steps : list (HookState * Op))
    (entry : EditHistoryItem) :
  callbacks sameSegments steps initial →
  entry ∈ editHistory (run steps initial) →
  previousText entry ≠ newText entry
  ∧ ∃ tr segment,
      transcript (run steps initial) = Some tr
      ∧ findSegment (segmentId entry) (Transcript.segments tr) = Some segment.
Proof.
  intros Hcb Hin.
  pose proof (run_soundEntries steps initial Hcb (Forall_nil_2 _)) as Hall.
  rewrite Forall_forall in Hall.
  destruct (Hall entry Hin) as (Hne & tr & Htr & Hid).
  split; [done |]. apply findSegment_ids in Hid as [segment Hfind]. eauto.
Qed.

Lemma log_entries_sound_witness :
  let entry :=
    {| segmentId := "s2"; previousText := "good morning";
       newText := "good evening"; timestamp := 20 |} in
  let st1 :=
    updateSegmentText "s1" "hello there" (Sample.ok 10) Sample.loaded
      Sample.loaded in
  let steps :=
    [ (initial, Load "t1" (Fulfilled Sample.transcript1));
      (Sample.loaded, Edit "s1" "hello there" (Sample.ok 10));
      (Sample.loaded, Edit "s2" "good evening" (Sample.ok 20));
      (st1, Undo (Sample.ok 30)) ] in
  previousText entry ≠ newText entry
  ∧ ∃ tr segment,
      transcript (run steps initial) = Some tr
      ∧ findSegment "s2" (Transcript.segments tr) = Some segment.
Proof.
  intros entry st1 steps. apply (log_entries_sound steps entry).
  - repeat split.
    + intros tr Htr. discriminate.
    + intros tr [= <-]. eexists. split; [by vm_compute | done].
    + intros tr [= <-]. eexists. split; [by vm_compute | done].
    + intros tr Htr. vm_compute in Htr. injection Htr as <-.
      eexists. split; [by vm_compute | done].
  - vm_compute. left.
Defined.

(** *** The guards of undo and redo *)

(** X10.  In a render with a well-formed state [canUndo] is true exactly
    when the [undo] of that render has an entry to apply and [canRedo]
    exactly when its [redo] has one; that [redo] never throws on a missing
    entry, and with the flag false the call returns the state it was called
    on. *)
Theorem guards_agree (env : Env Segment.t) (rd : HookState) :
  wellFormed rd →
  (canUndo rd = true ↔ is_Some (undoItem rd))
  ∧ (canRedo rd = true ↔ is_Some (redoItem rd))
  ∧ (∀ st st', redo env rd st ≠ TypeError st')
  ∧ (canUndo rd = false → ∀ st, undo env rd st = st)
  ∧ (canRedo rd = false → ∀ st, redo env rd st = Returned st).
Proof.
  intros (_ & Hlen & Hidx). unfold canUndo, canRedo, undoItem, redoItem.
  assert (∀ i, 0 ≤ i < Z.of_nat (length (editHistory rd)) →
               is_Some (index (editHistory rd) i)) as Hin.
  { intros i Hi. unfold index. destruct (Z.ltb_spec i 0); [lia |].
    apply lookup_lt_is_Some. lia. }
  split; [|split; [|split; [|split]]].
  - destruct (Z.ltb_spec (historyIndex rd) 0), (Z.leb_spec 0 (historyIndex rd));
      try lia.
    + split; [done | by intros [? ?]].
    + split; [intros _; apply Hin; lia | done].
  - destruct (Z.geb_spec (historyIndex rd)
                (Z.of_nat (length (editHistory rd)) - 1)),
      (Z.ltb_spec (historyIndex rd) (Z.of_nat (length (editHistory rd)) - 1));
      try lia.
    + split; [done | by intros [? ?]].
    + split; [intros _; apply Hin; lia | done].
  - intros st st'. unfold redo.
    destruct (Z.geb_spec (historyIndex rd)
                (Z.of_nat (length (editHistory rd)) - 1)); [done |].
    destruct (Hin (historyIndex rd + 1)) as [item ->]; [lia | done].
  - intros Hno st. unfold undo, undoItem.
    destruct (Z.ltb_spec (historyIndex rd) 0); [done |].
    apply Z.leb_gt in Hno. lia.
  - intros Hno st. unfold redo.
    destruct (Z.geb_spec (historyIndex rd)
                (Z.of_nat (length (editHistory rd)) - 1)); [done |].
    apply Z.ltb_ge in Hno. lia.
Qed.

Lemma guards_agree_witness :
  (canUndo Sample.edited = true ↔ is_Some (undoItem Sample.edited))
  ∧ (canRedo Sample.edited = true ↔ is_Some (redoItem Sample.edited))
  ∧ (∀ st st', redo (Sample.ok 40) Sample.edited st ≠ TypeError st')
  ∧ (canUndo Sample.edited = false
     → ∀ st, undo (Sample.ok 40) Sample.edited st = st)
  ∧ (canRedo Sample.edited = false
     → ∀ st, redo (Sample.ok 40) Sample.edited st = Returned st).
Proof.
  apply (guards_agree (Sample.ok 40) Sample.edited).
  vm_compute. repeat split; discriminate.
Defined.

(** *** Loading *)

Lemma orElse_nonempty (v : option string) (fallback : string) :
  fallback ≠ EmptyString → orElse v fallback ≠ EmptyString.
Proof.
  intros Hf. unfold orElse. destruct v as [s|]; [|done].
  by case_bool_decide.
Qed.

(** X11.  A load that succeeds installs the transcript, rebuilds the
    speaker names from its labels, clears [error] and empties the undo
    log, so that the [undo] and [redo] of the render that follows do
    nothing; a load that fails keeps the transcript, the names, the log and
    the cursor it found and only sets [error].  Either way [loading] ends
    false and one request was sent. *)
Theorem loadTranscript_outcome (id : string) (reply : Settled Transcript.t)
    (env : Env Segment.t) (st : HookState) :
  let st' := loadTranscript id reply st in
  loading st' = false
  ∧ requests st' = requests st ++ [GetTranscript id]
  ∧ isUndoRedo st' = isUndoRedo st
  ∧ match reply with
    | Fulfilled result =>
        transcript st' = Some result
        ∧ speakerNames st'
          = buildSpeakerNames (Transcript.speaker_labels result)
        ∧ error st' = None
        ∧ editHistory st' = [] ∧ historyIndex st' = -1
        ∧ canUndo st' = false ∧ canRedo st' = false
        ∧ (∀ live, undo env st' live = live)
        ∧ (∀ live, redo env st' live = Returned live)
    | Rejected err =>
        transcript st' = transcript st
        ∧ speakerNames st' = speakerNames st
        ∧ error st' = Some (messageOf err "Failed to load transcript")
        ∧ editHistory st' = editHistory st
        ∧ historyIndex st' = historyIndex st
    end.
Proof.
  intros st'. subst st'. unfold loadTranscript, speakerLabelsEffect.
  destruct reply as [result | err]; simpl; done.
Qed.

(** *** Errors *)

Lemma apply_error (rd st : HookState) (op : Op) :
  isLoad op = false → is_Some (error st) → is_Some (error (apply rd st op)).
Proof.
  intros Hop Herr.
  destruct op as [id reply | sid text env | lid name reply | env | env];
    simpl; [done | | | |].
  - unfold updateSegmentText. repeat case_match; simpl; eauto.
  - unfold renameSpeaker, speakerLabelsEffect.
    repeat (case_match; simpl in * ); eauto.
  - unfold undo, updateSegmentText. repeat (case_match; simpl in * ); eauto.
  - unfold redo, updateSegmentText.
    repeat (case_match; simpl in * ); simplify_eq; simpl; eauto.
Qed.

Lemma run_error (steps : list (HookState * Op)) (st : HookState) :
  Forall (fun step => isLoad step.2 = false) steps →
  is_Some (error st) → is_Some (error (run steps st)).
Proof.
  intros Hops. revert st.
  induction Hops as [|[rd op] steps Hop _ IH]; intros st Herr; [done |].
  apply IH. by apply apply_error.
Qed.

(** X12.  After an edit whose request fails with a message that is not
    empty, the editor no longer renders the transcript but the error page
    with that message; and [error] stays set through every later edit,
    rename, undo and redo, whatever their outcome and whichever render
    their callbacks come from: only [loadTranscript] clears it. *)
Theorem failed_save_replaces_editor (segmentId text : string)
    (env : Env Segment.t) (rd st : HookState) (tr : Transcript.t)
    (segment : Segment.t) (err : Thrown) (steps : list (HookState * Op)) :
  transcript rd = Some tr →
  findSegment segmentId (Transcript.segments tr) = Some segment →
  Segment.text segment ≠ text →
  reply env = Rejected err →
  loading st = false →
  messageOf err "Failed to save edit" ≠ EmptyString →
  Forall (fun step => isLoad step.2 = false) steps →
  let st' := updateSegmentText segmentId text env rd st in
  Editor.render st' = Editor.ErrorView (messageOf err "Failed to save edit")
  ∧ is_Some (error (run steps st')).
Proof.
  intros Htr Hfind Htext Hreply Hload Hmsg Hops st'.
  pose proof (effective_error _ _ env rd st _ _ Htr Hfind Htext) as He.
  rewrite Hreply in He. fold st' in He.
  destruct (updateSegmentText_frame segmentId text env rd st)
    as (_ & Hl & _).
  fold st' in Hl. split.
  - unfold Editor.render. rewrite Hl, Hload, He.
    by rewrite bool_decide_false.
  - apply run_error; [done |]. rewrite He. eauto.
Qed.

Lemma failed_save_replaces_editor_witness :
  let st' :=
    updateSegmentText "s1" "hello there" (Sample.ko 7) Sample.loaded
      Sample.loaded in
  Editor.render st' = Editor.ErrorView "Failed to update segment"
  ∧ is_Some (error (run [ (Sample.loaded,
                           Edit "s2" "good evening" (Sample.ok 8));
                          (st', Undo (Sample.ok 9)) ] st')).
Proof.
  intros st'.
  apply (failed_save_replaces_editor "s1" "hello there" (Sample.ko 7)
           Sample.loaded Sample.loaded Sample.transcript1 Sample.segment1
           (ErrorObject "Failed to update segment")).
  - reflexivity.
  - reflexivity.
  - discriminate.
  - reflexivity.
  - reflexivity.
  - discriminate.
  - repeat constructor.
Defined.

(** *** Speaker names and colours *)

Lemma assign_proto (key value : string) (names : gmap string string) :
  names !! "__proto__" = None → assign key value names !! "__proto__" = None.
Proof.
  intros Hnone. unfold assign.
  destruct (decide (key = "__proto__")) as [-> | Hkey].
  - by rewrite bool_decide_true, (bool_decide_true _ Hnone) by done.
  - rewrite (bool_decide_false _ Hkey). simpl.
    by rewrite lookup_insert_ne.
Qed.

Lemma assign_lookup (key value k : string) (names : gmap string string) :
  names !! "__proto__" = None → k ≠ "__proto__" →
  assign key value names !! k
  = if bool_decide (key = k) then Some value else names !! k.
Proof.
  intros Hnone Hk. unfold assign.
  destruct (decide (key = "__proto__")) as [-> | Hkey].
  - rewrite (bool_decide_true ("__proto__" = "__proto__")) by done.
    rewrite (bool_decide_true _ Hnone). simpl.
    by rewrite bool_decide_false by congruence.
  - rewrite (bool_decide_false _ Hkey). simpl.
    case_bool_decide as Heq.
    + subst k. apply lookup_insert_eq.
    + by apply lookup_insert_ne.
Qed.

Lemma foldl_names (labels : list SpeakerLabel.t) (names : gmap string string)
    (speakerId : string) :
  names !! "__proto__" = None →
  foldl (fun names label =>
           assign (SpeakerLabel.speaker_id label)
                  (SpeakerLabel.displayName label) names) names labels
    !! speakerId
  = if bool_decide (speakerId = "__proto__") then None
    else match last (filter (fun l => SpeakerLabel.speaker_id l = speakerId)
                            labels) with
         | Some label => Some (SpeakerLabel.displayName label)
         | None => names !! speakerId
         end.
Proof.
  revert names. induction labels as [|l labels IH]; intros names Hnone.
  - simpl. case_bool_decide; [by subst |done].
  - cbn [foldl]. rewrite IH by by apply assign_proto.
    case_bool_decide as Hid; [done |].
    rewrite filter_cons, assign_lookup by done. case_decide as Hl.
    + rewrite last_cons. destruct (last _); [done |].
      by rewrite bool_decide_true.
    + destruct (last _); [done |]. by rewrite bool_decide_false.
Qed.

Lemma buildSpeakerNames_lookup (labels : list SpeakerLabel.t)
    (speakerId : string) :
  buildSpeakerNames labels !! speakerId
  = if bool_decide (speakerId = "__proto__") then None
    else SpeakerLabel.displayName
           <$> last (filter (fun l => SpeakerLabel.speaker_id l = speakerId)
                            labels).
Proof.
  unfold buildSpeakerNames. rewrite foldl_names by done.
  case_bool_decide; [done |]. by destruct (last _).
Qed.

Lemma displayName_nonempty (label : SpeakerLabel.t) :
  SpeakerLabel.displayName label ≠ EmptyString.
Proof. by apply orElse_nonempty. Qed.

(** What is read is never the empty string. *)
Lemma readOr_nonempty (names : gmap string string) (key fallback : string) :
  fallback ≠ EmptyString → readOr names key fallback ≠ Str EmptyString.
Proof.
  intros Hf. unfold readOr. destruct (names !! key) as [s|].
  - case_bool_decide; congruence.
  - case_bool_decide; congruence.
Qed.

Lemma getSpeakerName_synced (st : HookState) (labels : list SpeakerLabel.t)
    (speakerId : string) :
  speakerNames st = buildSpeakerNames labels →
  getSpeakerName st speakerId
  = if bool_decide (speakerId = "__proto__") then Inherited speakerId
    else match last (filter (fun l => SpeakerLabel.speaker_id l = speakerId)
                            labels) with
         | Some label => Str (SpeakerLabel.displayName label)
         | None =>
             if bool_decide (speakerId ∈ objectPrototype)
             then Inherited speakerId
             else Str ("Speaker " +:+ speakerId)
         end.
Proof.
  intros Hs. unfold getSpeakerName, readOr.
  rewrite Hs, buildSpeakerNames_lookup.
  case_bool_decide as Hid; [by subst speakerId |].
  destruct (last _) as [label|]; [|done]. simpl.
  by rewrite bool_decide_false by apply displayName_nonempty.
Qed.

(** X13.  After a load, what is shown for a speaker is the custom name of
    the last label of that speaker, or "Speaker " followed by the speaker id
    when that label has no custom name or an empty one.  For a speaker
    without a label it is "Speaker " followed by the id, unless the id is
    the name of a property of [Object.prototype]: then the lookup in the
    object of names finds that property, and the value shown is not a
    string.  Under the id "__proto__" it is so even with a label, for the
    effect's assignment stores nothing under that key.  In any state, what
    is shown is never the empty string. *)
Theorem getSpeakerName_loaded (id speakerId : string)
    (result : Transcript.t) (st st0 : HookState) :
  getSpeakerName (loadTranscript id (Fulfilled result) st) speakerId
  = (if bool_decide (speakerId = "__proto__") then Inherited speakerId
     else
       match last (filter (fun l => SpeakerLabel.speaker_id l = speakerId)
                          (Transcript.speaker_labels result)) with
       | Some label =>
           match SpeakerLabel.custom_name label with
           | Some name =>
               if bool_decide (name = EmptyString)
               then Str ("Speaker " +:+ speakerId) else Str name
           | None => Str ("Speaker " +:+ speakerId)
           end
       | None =>
           if bool_decide (speakerId ∈ objectPrototype)
           then Inherited speakerId
           else Str ("Speaker " +:+ speakerId)
       end)
  ∧ getSpeakerName st0 speakerId ≠ Str EmptyString.
Proof.
  split; [|by apply readOr_nonempty].
  rewrite (getSpeakerName_synced _ (Transcript.speaker_labels result))
    by done.
  case_bool_decide; [done |].
  destruct (last _) as [label|] eqn:Hlast; [|done].
  apply last_Some_elem_of, list_elem_of_filter in Hlast as [<- _].
  unfold SpeakerLabel.displayName, orElse.
  destruct (SpeakerLabel.custom_name label) as [name|]; [|done].
  by case_bool_decide.
Qed.

Lemma filter_other_speaker (labels : list SpeakerLabel.t)
    (speakerId : string) (f : SpeakerLabel.t → SpeakerLabel.t) :
  speakerId ∉ map SpeakerLabel.speaker_id labels →
  (∀ l, SpeakerLabel.speaker_id (f l) = SpeakerLabel.speaker_id l) →
  filter (fun l => SpeakerLabel.speaker_id l = speakerId) (map f labels) = [].
Proof.
  intros Hnot Hf. induction labels as [|l labels IH]; [done |].
  cbn [map] in *. apply not_elem_of_cons in Hnot as [Hl Hnot].
  rewrite filter_cons_False by (rewrite Hf; congruence). by apply IH.
Qed.

Lemma filter_speaker_unique (labels : list SpeakerLabel.t)
    (label : SpeakerLabel.t) (f : SpeakerLabel.t → SpeakerLabel.t) :
  NoDup (map SpeakerLabel.speaker_id labels) →
  label ∈ labels →
  (∀ l, SpeakerLabel.speaker_id (f l) = SpeakerLabel.speaker_id l) →
  filter (fun l => SpeakerLabel.speaker_id l = SpeakerLabel.speaker_id label)
         (map f labels)
  = [f label].
Proof.
  intros Hnodup Hin Hf.
  induction labels as [|l labels IH]; [by apply elem_of_nil in Hin |].
  cbn [map] in *. apply NoDup_cons in Hnodup as [Hl Hnodup].
  apply elem_of_cons in Hin as [-> | Hin].
  - rewrite filter_cons_True by apply Hf. f_equal.
    by apply filter_other_speaker.
  - rewrite filter_cons_False; [by apply IH |].
    rewrite Hf. intros Heq. apply Hl. rewrite Heq.
    apply list_elem_of_fmap. eauto.
Qed.

Lemma findLabel_Some (labelId : string) (labels : list SpeakerLabel.t)
    (label : SpeakerLabel.t) :
  findLabel labelId labels = Some label →
  label ∈ labels ∧ SpeakerLabel.id label = labelId.
Proof.
  unfold findLabel. intros [Hin Hid]%find_some.
  split; [by apply list_elem_of_In | by apply bool_decide_eq_true in Hid].
Qed.

Lemma find_speaker_unique (labels : list SpeakerLabel.t)
    (label : SpeakerLabel.t) :
  NoDup (map SpeakerLabel.speaker_id labels) →
  label ∈ labels →
  find (fun l => bool_decide (SpeakerLabel.speaker_id l
                              = SpeakerLabel.speaker_id label)) labels
  = Some label.
Proof.
  intros Hnodup Hin.
  induction labels as [|l labels IH]; [by apply elem_of_nil in Hin |].
  cbn [map] in *. apply NoDup_cons in Hnodup as [Hl Hnodup]. simpl.
  apply elem_of_cons in Hin as [-> | Hin].
  - by rewrite bool_decide_true.
  - rewrite bool_decide_false; [by apply IH |].
    intros Heq. apply Hl. rewrite Heq. apply list_elem_of_fmap. eauto.
Qed.

(** X14.  With one label per speaker, a loaded transcript shows for the
    speaker of a label that label's name, unless the speaker id is
    "__proto__", and that label's colour (the default colour when the
    label's is empty); for a speaker without a label it shows the default
    name, unless the id names a property of [Object.prototype], and the
    default colour.  In the two excepted cases what is shown is the
    inherited property, which is not a string. *)
Theorem speaker_name_and_colour (id speakerId : string)
    (result : Transcript.t) (st0 : HookState) (label : SpeakerLabel.t) :
  NoDup (map SpeakerLabel.speaker_id (Transcript.speaker_labels result)) →
  let st := loadTranscript id (Fulfilled result) st0 in
  (label ∈ Transcript.speaker_labels result →
   getSpeakerName st (SpeakerLabel.speaker_id label)
   = (if bool_decide (SpeakerLabel.speaker_id label = "__proto__")
      then Inherited (SpeakerLabel.speaker_id label)
      else Str (SpeakerLabel.displayName label))
   ∧ getSpeakerColor st (SpeakerLabel.speaker_id label)
     = if bool_decide (SpeakerLabel.color label = EmptyString)
       then "#3B82F6" else SpeakerLabel.color label)
  ∧ (speakerId ∉ map SpeakerLabel.speaker_id (Transcript.speaker_labels result)
     → getSpeakerName st speakerId
       = (if bool_decide (speakerId ∈ objectPrototype)
          then Inherited speakerId
          else Str ("Speaker " +:+ speakerId))
       ∧ getSpeakerColor st speakerId = "#3B82F6").
Proof.
  intros Hnodup st. split.
  - intros Hin. split.
    + rewrite (getSpeakerName_synced st (Transcript.speaker_labels result))
        by done.
      case_bool_decide; [done |].
      pose proof (filter_speaker_unique _ label (fun l => l) Hnodup Hin)
        as Hone.
      rewrite map_id in Hone. by rewrite Hone.
    + unfold getSpeakerColor. simpl.
      by rewrite find_speaker_unique.
  - intros Hnot. split.
    + rewrite (getSpeakerName_synced st (Transcript.speaker_labels result))
        by done.
      case_bool_decide as Hid; [by subst speakerId |].
      pose proof (filter_other_speaker _ speakerId (fun l => l) Hnot) as Hno.
      rewrite map_id in Hno. by rewrite Hno.
    + unfold getSpeakerColor. simpl.
      destruct (find _ _) as [l|] eqn:Hfind; [|done].
      apply find_some in Hfind as [Hin Hid%bool_decide_eq_true].
      destruct Hnot. apply list_elem_of_fmap. exists l.
      split; [done | by apply list_elem_of_In].
Qed.

Lemma speaker_name_and_colour_witness :
  let st := loadTranscript "t1" (Fulfilled Sample.transcript1) initial in
  (getSpeakerName st "B" = Str "Bob" ∧ getSpeakerColor st "B" = "#10B981")
  ∧ (getSpeakerName st "toString" = Inherited "toString"
     ∧ getSpeakerColor st "toString" = "#3B82F6").
Proof.
  destruct (speaker_name_and_colour "t1" "toString" Sample.transcript1
              initial Sample.label2) as [H1 H2].
  - apply (bool_decide_unpack _). by vm_compute.
  - split.
    + apply H1. apply elem_of_cons. right. apply elem_of_cons. by left.
    + apply H2. apply (bool_decide_unpack _). by vm_compute.
Defined.

(** *** A rename that succeeds *)

(** X15.  The callback has the transcript of the state it is called on,
    with one label per speaker.  A rename to a name that is not empty and
    whose request succeeds stores the name in the label, leaves the labels
    with another id and the segments as they were, and touches neither the
    undo log nor [error]; one request is sent.  The name is then shown for
    the label's speaker, unless the speaker id is "__proto__": the rebuild
    of the names stores nothing under that key, and what is shown is the
    inherited property. *)
Theorem renameSpeaker_success (labelId name : string)
    (saved : SpeakerLabel.t) (rd st : HookState) (tr : Transcript.t)
    (label : SpeakerLabel.t) :
  transcript rd = Some tr →
  transcript st = Some tr →
  findLabel labelId (Transcript.speaker_labels tr) = Some label →
  NoDup (map SpeakerLabel.speaker_id (Transcript.speaker_labels tr)) →
  name ≠ EmptyString →
  let st' := renameSpeaker labelId name (Fulfilled saved) rd st in
  ∃ tr',
    transcript st' = Some tr'
    ∧ findLabel labelId (Transcript.speaker_labels tr')
      = Some (SpeakerLabel.rename name label)
    ∧ (∀ i l, Transcript.speaker_labels tr !! i = Some l →
              SpeakerLabel.id l ≠ labelId →
              Transcript.speaker_labels tr' !! i = Some l)
    ∧ Transcript.segments tr' = Transcript.segments tr
    ∧ getSpeakerName st' (SpeakerLabel.speaker_id label)
      = (if bool_decide (SpeakerLabel.speaker_id label = "__proto__")
         then Inherited (SpeakerLabel.speaker_id label)
         else Str name)
    ∧ speakerNames st' = buildSpeakerNames (Transcript.speaker_labels tr')
    ∧ editHistory st' = editHistory st
    ∧ historyIndex st' = historyIndex st
    ∧ error st' = error st
    ∧ requests st' = requests st ++ [PatchSpeakerLabel labelId name].
Proof.
  intros Htr Hlive Hfind Hnodup Hname st'.
  destruct (findLabel_Some _ _ _ Hfind) as [Hin Hid].
  assert (st' = setSpeakerNames
            (fun _ => buildSpeakerNames
                        (mapLabel labelId (SpeakerLabel.rename name)
                           (Transcript.speaker_labels tr)))
            (send (PatchSpeakerLabel labelId name)
               (setTranscript
                  (fmap (fun prev =>
                     Transcript.withSpeakerLabels
                       (mapLabel labelId (SpeakerLabel.rename name)
                          (Transcript.speaker_labels prev)) prev))
                  (setSpeakerNames
                     (fun prev =>
                        define (SpeakerLabel.speaker_id label) name prev)
                     st)))) as ->.
  { subst st'. unfold renameSpeaker, speakerLabelsEffect.
    rewrite Htr, Hfind. simpl. by rewrite Hlive. }
  simpl. rewrite Hlive. simpl. eexists. split; [reflexivity |]. simpl.
  split; [by rewrite findLabel_mapLabel, Hfind |].
  split.
  { intros i l Hi Hl. unfold mapLabel. rewrite list_lookup_fmap, Hi. simpl.
    by rewrite bool_decide_false. }
  split; [done |]. split; [|repeat split].
  rewrite (getSpeakerName_synced _
             (mapLabel labelId (SpeakerLabel.rename name)
                       (Transcript.speaker_labels tr))) by done.
  case_bool_decide; [done |].
  unfold mapLabel. rewrite filter_speaker_unique; [| done | done |].
  - simpl. rewrite !(bool_decide_true (SpeakerLabel.id label = _)) by done.
    unfold SpeakerLabel.displayName. simpl.
    by rewrite !(bool_decide_false (name = _)) by done.
  - intros l. by case_bool_decide.
Qed.

Lemma renameSpeaker_success_witness :
  let st' := renameSpeaker "l1" "Alice" (Fulfilled Sample.label1)
                           Sample.loaded Sample.loaded in
  ∃ tr',
    transcript st' = Some tr'
    ∧ findLabel "l1" (Transcript.speaker_labels tr')
      = Some (SpeakerLabel.rename "Alice" Sample.label1)
    ∧ (∀ i l, Transcript.speaker_labels Sample.transcript1 !! i = Some l →
              SpeakerLabel.id l ≠ "l1" →
              Transcript.speaker_labels tr' !! i = Some l)
    ∧ Transcript.segments tr' = Transcript.segments Sample.transcript1
    ∧ getSpeakerName st' (SpeakerLabel.speaker_id Sample.label1)
      = Str "Alice"
    ∧ speakerNames st' = buildSpeakerNames (Transcript.speaker_labels tr')
    ∧ editHistory st' = editHistory Sample.loaded
    ∧ historyIndex st' = historyIndex Sample.loaded
    ∧ error st' = error Sample.loaded
    ∧ requests st' = requests Sample.loaded ++ [PatchSpeakerLabel "l1" "Alice"].
Proof.
  apply (renameSpeaker_success "l1" "Alice" Sample.label1 Sample.loaded
           Sample.loaded Sample.transcript1 Sample.label1).
  - reflexivity.
  - reflexivity.
  - reflexivity.
  - apply (bool_decide_unpack _). by vm_compute.
  - discriminate.
Defined.

(** *** An edit undone *)

Lemma findSegment_unique (segmentId : string) (segments : list Segment.t)
    (segment s : Segment.t) :
  NoDup (map Segment.id segments) →
  findSegment segmentId segments = Some segment →
  s ∈ segments → Segment.id s = segmentId → s = segment.
Proof.
  unfold findSegment. intros Hnodup Hfind Hin Hid.
  induction segments as [|s' segments IH]; [by apply elem_of_nil in Hin |].
  cbn [map] in Hnodup. apply NoDup_cons in Hnodup as [Hs' Hnodup].
  simpl in Hfind. case_bool_decide as Hid'.
  - injection Hfind as <-. apply elem_of_cons in Hin as [-> | Hin]; [done |].
    destruct Hs'. rewrite Hid', <- Hid. apply list_elem_of_fmap. eauto.
  - apply elem_of_cons in Hin as [-> | Hin]; [done | by apply IH].
Qed.

(** X16.  The edit is made through the callback of the latest render, on a
    well-formed state with one segment per id, and the [undo] through the
    callback of the render that follows the edit.  When both are saved,
    every segment has the text it had before the edit; the segment that
    was edited stays marked edited, all else in it and the other segments
    are as before; the entry is kept for [redo]; two requests were sent. *)
Theorem edit_undo_restores_texts (segmentId text : string)
    (env env_u : Env Segment.t) (st : HookState) (tr : Transcript.t)
    (segment saved saved_u : Segment.t) :
  wellFormed st →
  transcript st = Some tr →
  findSegment segmentId (Transcript.segments tr) = Some segment →
  Segment.text segment ≠ text →
  reply env = Fulfilled saved →
  reply env_u = Fulfilled saved_u →
  NoDup (map Segment.id (Transcript.segments tr)) →
  let st1 := updateSegmentText segmentId text env st st in
  let st2 := undo env_u st1 st1 in
  ∃ tr2,
    transcript st2 = Some tr2
    ∧ map Segment.text (Transcript.segments tr2)
      = map Segment.text (Transcript.segments tr)
    ∧ Transcript.segments tr2
      = mapSegment segmentId
          (fun _ => Segment.edit (Segment.text segment) segment)
          (Transcript.segments tr)
    ∧ canRedo st2 = true
    ∧ requests st2
      = requests st ++ [ PatchSegment segmentId text;
                         PatchSegment segmentId (Segment.text segment) ].
Proof.
  intros (Hflag & Hlen & Hidx) Htr Hfind Htext Hreply Hreply_u Hnodup
    st1 st2.
  set (historyItem :=
    {| Hook.segmentId := segmentId; previousText := Segment.text segment;
       newText := text; timestamp := now env |}).
  pose proof (fresh_transcript _ _ env st st _ _ eq_refl Htr Hfind Htext)
    as Ht1.
  pose proof (effective_editHistory _ _ env st st _ _ Htr Hfind Htext)
    as He1.
  pose proof (effective_historyIndex _ _ env st st _ _ Htr Hfind Htext)
    as Hi1.
  pose proof (effective_requests _ _ env st st _ _ Htr Hfind Htext) as Hr1.
  rewrite Hreply in Ht1. rewrite Hflag in He1, Hi1.
  fold st1 in Ht1, He1, Hi1, Hr1. fold historyItem in He1.
  assert (undoItem st1 = Some historyItem) as Hundo.
  { unfold undoItem. rewrite Hi1, He1.
    destruct (Z.ltb_spec (Z.min (historyIndex st + 1) (MAX_HISTORY - 1)) 0);
      [unfold MAX_HISTORY in *; lia |].
    by apply pushHistory_cursor. }
  destruct (undo_log env_u st1 st1 _ Hundo) as (He2 & Hi2 & _).
  fold st2 in He2, Hi2.
  assert (findSegment segmentId
            (mapSegment segmentId (Segment.edit text) (Transcript.segments tr))
          = Some (Segment.edit text segment)) as Hfind1
    by (by rewrite findSegment_mapSegment, Hfind).
  assert (st2 = setHistoryIndex (fun prev => prev - 1)
            (setIsUndoRedo false
               (updateSegmentText segmentId (Segment.text segment) env_u
                  st1 (setIsUndoRedo true st1)))) as Hst2.
  { subst st2. unfold undo. by rewrite Hundo. }
  assert (Segment.text (Segment.edit text segment) ≠ Segment.text segment)
    as Htext1 by (simpl; congruence).
  pose proof (fresh_transcript segmentId (Segment.text segment) env_u
                st1 (setIsUndoRedo true st1) _ _ eq_refl Ht1 Hfind1 Htext1)
    as Ht2.
  pose proof (effective_requests segmentId (Segment.text segment) env_u
                st1 (setIsUndoRedo true st1) _ _ Ht1 Hfind1 Htext1) as Hr2.
  rewrite Hreply_u in Ht2. simpl in Ht2, Hr2.
  rewrite mapSegment_mapSegment in Ht2 by done.
  assert (mapSegment segmentId
            (Segment.edit (Segment.text segment) ∘ Segment.edit text)
            (Transcript.segments tr)
          = mapSegment segmentId
              (fun _ => Segment.edit (Segment.text segment) segment)
              (Transcript.segments tr)) as Hmap.
  { apply mapSegment_ext. intros s Hs Hid.
    by rewrite (findSegment_unique _ _ _ s Hnodup Hfind Hs Hid). }
  rewrite Hmap in Ht2.
  eexists. split; [rewrite Hst2; simpl; exact Ht2 |]. simpl.
  split; [|split; [done | split]].
  - unfold mapSegment. rewrite map_map. apply map_ext_in.
    intros s Hs%list_elem_of_In. case_bool_decide as Hid; [|done]. simpl.
    by rewrite (findSegment_unique _ _ _ s Hnodup Hfind Hs Hid).
  - unfold canRedo. rewrite Hi2, He2, He1, Hi1.
    rewrite pushHistory_length by done. apply Z.ltb_lt.
    unfold MAX_HISTORY. lia.
  - rewrite Hst2. simpl. rewrite Hr2, Hr1. by rewrite <- app_assoc.
Qed.

Lemma edit_undo_restores_texts_witness :
  let st1 :=
    updateSegmentText "s1" "hello there" (Sample.ok 10) Sample.loaded
      Sample.loaded in
  let st2 := undo (Sample.ok 20) st1 st1 in
  ∃ tr2,
    transcript st2 = Some tr2
    ∧ map Segment.text (Transcript.segments tr2)
      = map Segment.text (Transcript.segments Sample.transcript1)
    ∧ Transcript.segments tr2
      = mapSegment "s1"
          (fun _ => Segment.edit "hello world" Sample.segment1)
          (Transcript.segments Sample.transcript1)
    ∧ canRedo st2 = true
    ∧ requests st2
      = requests Sample.loaded
        ++ [PatchSegment "s1" "hello there"; PatchSegment "s1" "hello world"].
Proof.
  apply (edit_undo_restores_texts "s1" "hello there" (Sample.ok 10)
           (Sample.ok 20) Sample.loaded Sample.transcript1 Sample.segment1
           Sample.segment1 Sample.segment1).
  - vm_compute. repeat split; discriminate.
  - reflexivity.
  - reflexivity.
  - discriminate.
  - reflexivity.
  - reflexivity.
  - apply (bool_decide_unpack _). by vm_compute.
Defined.

(** *** Requests *)

Lemma updateSegmentText_requests (segmentId text : string)
    (env : Env Segment.t) (rd st : HookState) :
  ∃ sent, requests (updateSegmentText segmentId text env rd st)
          = requests st ++ sent
          ∧ (length sent ≤ 1)%nat.
Proof.
  destruct (updateSegmentText_cases segmentId text env rd st)
    as [-> | (tr & segment & Htr & Hfind & Htext)].
  - exists []. rewrite app_nil_r. split; [done | simpl; lia].
  - rewrite (effective_requests _ _ env rd st _ _ Htr Hfind Htext).
    eexists. split; [done | simpl; lia].
Qed.

Lemma apply_requests (rd st : HookState) (op : Op) :
  ∃ sent, requests (apply rd st op) = requests st ++ sent
          ∧ (length sent ≤ 1)%nat.
Proof.
  assert (∃ sent, requests st = requests st ++ sent ∧ (length sent ≤ 1)%nat)
    as Hsame.
  { exists []. rewrite app_nil_r. split; [done | simpl; lia]. }
  destruct op as [id reply | sid text env | lid name reply | env | env];
    simpl.
  - exists [GetTranscript id]. unfold loadTranscript, speakerLabelsEffect.
    split; [by destruct reply | simpl; lia].
  - apply updateSegmentText_requests.
  - unfold renameSpeaker, speakerLabelsEffect.
    destruct (transcript rd) as [tr|]; [|exact Hsame].
    destruct (findLabel _ _); [|exact Hsame].
    exists [PatchSpeakerLabel lid name]. simpl.
    split; [|simpl; lia].
    destruct (transcript st) as [live|] eqn:Hlive; simpl;
      destruct reply; simpl; by rewrite ?Hlive.
  - unfold undo. destruct (undoItem rd) as [item|]; [|exact Hsame].
    apply (updateSegmentText_requests _ _ _ rd (setIsUndoRedo true st)).
  - unfold redo. destruct (_ >=? _); [exact Hsame |].
    destruct (index _ _) as [item|]; [|exact Hsame].
    apply (updateSegmentText_requests _ _ _ rd (setIsUndoRedo true st)).
Qed.

(** X17.  The hook never takes back or reorders a request and sends at most
    one per call, whichever render the callback of a call comes from:
    after any calls the requests sent are the earlier ones followed by at
    most as many new ones as there were calls. *)
Theorem one_request_per_call (steps : list (HookState * Op))
    (st : HookState) :
  ∃ sent, requests (run steps st) = requests st ++ sent
          ∧ (length sent ≤ length steps)%nat.
Proof.
  revert st. induction steps as [|[rd op] steps IH]; intros st.
  - exists []. by rewrite app_nil_r.
  - destruct (apply_requests rd st op) as (sent1 & H1 & Hl1).
    destruct (IH (apply rd st op)) as (sent2 & H2 & Hl2).
    exists (sent1 ++ sent2).
    change (run ((rd, op) :: steps) st) with (run steps (apply rd st op)).
    rewrite H2, H1, <- app_assoc, length_app. split; [done |]. simpl. lia.
Qed.

End HookMoreFacts.

(** ** The cells of the upload hook along the poll loop *)

Module UploadFacts.
Import Poll Upload.

Lemma transcribe_polling (tid : string) (start : TranscriptionStatus.t)
    (s : PollState) :
  transcriptId s = Some tid → tid ≠ EmptyString →
  polling tid (transcribe (Fulfilled start) s).
Proof.
  intros Hid Htid. unfold transcribe, polling. rewrite Hid.
  rewrite bool_decide_false by done. simpl. repeat split; auto; done.
Qed.

Lemma resume_polling (tid : string) (reply : Settled TranscriptionStatus.t)
    (s : PollState) :
  polling tid s → polling tid (resume reply s).
Proof.
  unfold polling, resume. intros (Hid & Hsch & Herr & Hst).
  destruct reply as [st | err]; [destruct (TranscriptionStatus.status st) |];
    simpl; repeat split; auto; try done; by apply Hsch.
Qed.

Lemma step_polling (tid : string) (s s' : PollState) (ev : Event) :
  polling tid s → step s ev = Some s' → polling tid s'.
Proof.
  intros Hs. destruct ev as [|k reply]; simpl.
  - destruct (scheduled s); [|done]. by intros [= <-].
  - case_bool_decide; [|done]. intros [= <-]. by apply resume_polling.
Qed.

Lemma exec_polling (tid : string) (evs : list Event) (s s' : PollState) :
  polling tid s → exec s evs = Some s' → polling tid s'.
Proof.
  revert s. induction evs as [|ev evs IH]; intros s Hs; simpl.
  - by intros [= <-].
  - destruct (step s ev) as [s1|] eqn:Hstep; [|done].
    apply IH. by eapply step_polling.
Qed.

(** X18.  Along every run of the loop that [transcribe] starts for a
    transcript id when no earlier loop is running, the loop never writes
    [transcriptId]; as long as the interval is scheduled the state is
    'transcribing' and [error] is null; the state never goes back to 'idle',
    'uploading' or 'uploaded'; and whenever the state is 'error' a message
    is set. *)
Theorem poll_cells (tid : string) (start : TranscriptionStatus.t)
    (evs : list Event) (s s' : PollState) :
  transcriptId s = Some tid → tid ≠ EmptyString →
  scheduled s = false → inFlight s = [] →
  exec (transcribe (Fulfilled start) s) evs = Some s' →
  transcriptId s' = Some tid
  ∧ (scheduled s' = true
     → state s' = UploadState.transcribing ∧ error s' = None)
  ∧ (state s' = UploadState.error → ∃ message, error s' = Some message)
  ∧ (state s' = UploadState.transcribing ∨ state s' = UploadState.completed
     ∨ state s' = UploadState.error).
Proof.
  intros Hid Htid _ _ Hexec.
  apply (exec_polling tid evs _ s' (transcribe_polling tid start s Hid Htid))
    in Hexec.
  exact Hexec.
Qed.

Lemma poll_cells_witness :
  let s' := {| state := UploadState.error; progress := 40%float;
               transcriptId := Some "t1";
               error := Some "Transcription failed"; scheduled := false;
               clearCalls := 1; cancelled := 1; issued := 1;
               inFlight := [] |} in
  transcriptId s' = Some "t1"
  ∧ (scheduled s' = true
     → state s' = UploadState.transcribing ∧ error s' = None)
  ∧ (state s' = UploadState.error → ∃ message, error s' = Some message)
  ∧ (state s' = UploadState.transcribing ∨ state s' = UploadState.completed
     ∨ state s' = UploadState.error).
Proof.
  intros s'.
  apply (poll_cells "t1" (sampleStatus processing)
           [Tick; Settle 0 (Fulfilled (sampleStatus failed))]
           (uploaded "t1") s').
  - reflexivity.
  - discriminate.
  - reflexivity.
  - reflexivity.
  - by vm_compute.
Defined.



(** *** The loop and the other callbacks of the hook *)

Lemma resume_sameLoop (reply : Settled TranscriptionStatus.t)
    (s r : PollState) :
  sameLoop s r →
  sameLoop (resume reply s) (resume reply r)
  ∧ transcriptId (resume reply r) = transcriptId r
  ∧ (state r = state s → state (resume reply r) = state (resume reply s))
  ∧ (stops reply = true → state (resume reply r) = state (resume reply s))
  ∧ (stops reply = false → state (resume reply r) = state r).
Proof.
  unfold sameLoop, resume, stops. intros (Hsch & Hc & Hn & Hi & Hf).
  destruct reply as [st | err]; [destruct (TranscriptionStatus.status st) |];
    simpl; rewrite ?Hsch, ?Hc, ?Hn, ?Hi, ?Hf; repeat split; auto; done.
Qed.

Lemma exec_sameLoop (evs : list Event) (s r s' : PollState) :
  sameLoop s r → exec s evs = Some s' →
  ∃ r', exec r evs = Some r'
        ∧ sameLoop s' r'
        ∧ transcriptId r' = transcriptId r
        ∧ (state r = state s → state r' = state s')
        ∧ (∀ k reply, Settle k reply ∈ evs → stops reply = true
                      → state r' = state s')
        ∧ ((∀ k reply, Settle k reply ∈ evs → stops reply = false)
           → state r' = state r).
Proof.
  revert s r. induction evs as [|ev evs IH]; intros s r Hsr; simpl.
  - intros [= <-]. exists r.
    split; [done | split; [done | split; [done | split; [done |]]]].
    split; [|done]. intros k reply Hin. by apply elem_of_nil in Hin.
  - destruct Hsr as (Hsch & Hc & Hn & Hi & Hf).
    destruct ev as [|k reply]; simpl.
    + rewrite Hsch. destruct (scheduled s) eqn:Hs; [|done]. intros Hexec.
      assert (sameLoop (request s) (request r)) as Hsame1.
      { unfold sameLoop. simpl. by rewrite Hs, Hc, Hn, Hi, Hf. }
      destruct (IH _ _ Hsame1 Hexec) as (r' & Hr' & Hsame & Hid & Hst
                                          & Hstop & Hgo).
      exists r'. split; [done | split; [done | split; [done |]]].
      split; [done | split].
      * intros k reply [?|Hin]%elem_of_cons; [done |]. by eapply Hstop.
      * intros Hall. apply Hgo. intros k reply Hin.
        apply (Hall k). by apply elem_of_cons; right.
    + rewrite Hf. case_bool_decide as Hk; [|done]. intros Hexec.
      assert (sameLoop (settle k s) (settle k r)) as Hsame0.
      { unfold sameLoop. simpl. by rewrite Hf. }
      destruct (resume_sameLoop reply _ _ Hsame0)
        as (Hsame1 & Hid1 & Hst1 & Hstop1 & Hgo1).
      destruct (IH _ _ Hsame1 Hexec) as (r' & Hr' & Hsame & Hid & Hst
                                          & Hstop & Hgo).
      exists r'. split; [done | split; [done | split]].
      { by rewrite Hid, Hid1. }
      split; [auto | split].
      * intros k' reply' [Heq|Hin]%elem_of_cons Hs.
        -- injection Heq as -> ->. auto.
        -- by eapply Hstop.
      * intros Hall. rewrite Hgo.
        -- apply Hgo1. apply (Hall k). by apply elem_of_cons; left.
        -- intros k' reply' Hin. apply (Hall k'). by apply elem_of_cons; right.
Qed.

(** X20.  [reset], and a new [uploadFile], leave a running loop alone:
    whatever the loop can do from the cells at hand it does after the call
    as well, with the same requests, the same calls of [clearInterval] and
    the same interval.  After [reset] the transcript id stays null all
    along, the state is 'idle' until the first terminal reply, and from
    that reply on it is the state the loop would have set without the
    reset. *)
Theorem reset_keeps_polling {File : Type} (h : Hook File)
    (evs : list Event) (s' : PollState) :
  exec (cells h) evs = Some s' →
  (∃ r', exec (cells (reset h)) evs = Some r'
         ∧ sameLoop s' r'
         ∧ transcriptId r' = None
         ∧ (∀ k reply, Settle k reply ∈ evs → stops reply = true
                       → state r' = state s')
         ∧ ((∀ k reply, Settle k reply ∈ evs → stops reply = false)
            → state r' = UploadState.idle))
  ∧ (∀ (selectedFile : File) (reply : Settled UploadResponse),
       ∃ u', exec (cells (uploadFile selectedFile reply h)) evs = Some u'
             ∧ sameLoop s' u').
Proof.
  intros Hexec. split.
  - assert (sameLoop (cells h) (cells (reset h))) as Hsame0 by done.
    destruct (exec_sameLoop evs _ _ s' Hsame0 Hexec)
      as (r' & Hr' & Hsame & Hid & _ & Hstop & Hgo).
    exists r'. auto.
  - intros selectedFile reply.
    assert (sameLoop (cells h) (cells (uploadFile selectedFile reply h)))
      as Hsame0 by (by destruct reply).
    destruct (exec_sameLoop evs _ _ s' Hsame0 Hexec)
      as (u' & Hu' & Hsame & _).
    exists u'. auto.
Qed.

Lemma reset_keeps_polling_witness :
  let h := {| cells :=
                {| state := UploadState.transcribing; progress := 40%float;
                   transcriptId := Some "t1"; error := None;
                   scheduled := true; clearCalls := 0; cancelled := 0;
                   issued := 1; inFlight := [0%nat] |};
              file := Some "a.mp3" |} in
  let evs := [Settle 0 (Fulfilled (sampleStatus completed))] in
  let s' := {| state := UploadState.completed; progress := 100%float;
               transcriptId := Some "t1"; error := None;
               scheduled := false; clearCalls := 1; cancelled := 1;
               issued := 1; inFlight := [] |} in
  (∃ r', exec (cells (reset h)) evs = Some r'
         ∧ sameLoop s' r'
         ∧ transcriptId r' = None
         ∧ (∀ k reply, Settle k reply ∈ evs → stops reply = true
                       → state r' = state s')
         ∧ ((∀ k reply, Settle k reply ∈ evs → stops reply = false)
            → state r' = UploadState.idle))
  ∧ (∀ (selectedFile : string) (reply : Settled UploadResponse),
       ∃ u', exec (cells (uploadFile selectedFile reply h)) evs = Some u'
             ∧ sameLoop s' u').
Proof.
  intros h evs s'. apply (reset_keeps_polling h evs s'). by vm_compute.
Defined.

(** X21.  An upload that fails records the file selected and the error but
    leaves [transcriptId] as it was.  So a [transcribe] that follows starts
    a transcription of the earlier upload when there was one, with [file]
    being the file that failed to upload, and otherwise replaces the upload's
    message by 'No file uploaded', keeps the state 'error' and starts no
    loop. *)
Theorem failed_upload_keeps_id {File : Type} (selectedFile : File)
    (err : Thrown) (start : TranscriptionStatus.t) (h : Hook File) :
  scheduled (cells h) = false →
  let h1 := uploadFile selectedFile (Rejected err) h in
  let s2 := transcribe (Fulfilled start) (cells h1) in
  file h1 = Some selectedFile
  ∧ state (cells h1) = UploadState.error
  ∧ error (cells h1) = Some (messageOf err "Upload failed")
  ∧ transcriptId (cells h1) = transcriptId (cells h)
  ∧ transcriptId s2 = transcriptId (cells h)
  ∧ match transcriptId (cells h) with
    | Some tid =>
        if bool_decide (tid = EmptyString)
        then state s2 = UploadState.error
             ∧ error s2 = Some "No file uploaded" ∧ scheduled s2 = false
        else state s2 = UploadState.transcribing
             ∧ error s2 = None ∧ scheduled s2 = true
    | None =>
        state s2 = UploadState.error
        ∧ error s2 = Some "No file uploaded" ∧ scheduled s2 = false
    end.
Proof.
  intros Hsch h1 s2. subst h1 s2. unfold uploadFile, transcribe. simpl.
  destruct (transcriptId (cells h)) as [tid|] eqn:Hid; simpl.
  - destruct (bool_decide (tid = EmptyString)); simpl; by rewrite ?Hsch.
  - by rewrite Hsch.
Qed.

Lemma failed_upload_keeps_id_witness :
  let h := uploadFile "a.mp3"
             (Fulfilled {| id := "t1"; filename := "a.mp3";
                           storage_path := "uploads/a.mp3";
                           message := "ok" |}) mount in
  let h1 := uploadFile "b.mp3" (Rejected OtherValue) h in
  let s2 := transcribe (Fulfilled (sampleStatus pending)) (cells h1) in
  file h1 = Some "b.mp3"
  ∧ state (cells h1) = UploadState.error
  ∧ error (cells h1) = Some "Upload failed"
  ∧ transcriptId (cells h1) = Some "t1"
  ∧ transcriptId s2 = Some "t1"
  ∧ state s2 = UploadState.transcribing
  ∧ error s2 = None ∧ scheduled s2 = true.
Proof.
  intros h.
  apply (failed_upload_keeps_id "b.mp3" OtherValue (sampleStatus pending) h).
  reflexivity.
Defined.

End UploadFacts.

(** ** The rename dialog of the editor *)

Module EditorFacts.
Import Hook Editor Row.

Lemma trimStart_sub (s : jsstring) (c : N) : c ∈ Diff.trimStart s → c ∈ s.
Proof.
  destruct (DiffSideFacts.trimStart_suffix s) as (l & Hs & _).
  intros Hc. rewrite Hs. apply elem_of_app. by right.
Qed.

Lemma trim_sub (s : jsstring) (c : N) : c ∈ Diff.trim s → c ∈ s.
Proof.
  unfold Diff.trim. rewrite elem_of_reverse. intros Hc.
  apply trimStart_sub in Hc. rewrite elem_of_reverse in Hc.
  by apply trimStart_sub.
Qed.

Lemma js_bounded (s : string) : Forall (fun c => (c < 256)%N) (js s).
Proof.
  unfold js. apply Forall_fmap, Forall_true. intros a. simpl.
  apply N_ascii_bounded.
Qed.

Lemma js_unjs (l : jsstring) :
  Forall (fun c => (c < 256)%N) l → js (unjs l) = l.
Proof.
  intros Hl. unfold js, unjs.
  rewrite String.list_ascii_of_string_of_list_ascii.
  induction Hl as [|c l Hc _ IH]; simpl; [done |].
  by rewrite IH, N_ascii_embedding.
Qed.

Lemma js_trimString (s : string) : js (trimString s) = Diff.trim (js s).
Proof.
  unfold trimString. apply js_unjs, Forall_forall. intros c Hc.
  apply trim_sub in Hc. pose proof (js_bounded s) as Hs.
  rewrite Forall_forall in Hs. by apply Hs.
Qed.

Lemma trimString_blank (s : string) :
  Forall (fun c => Diff.isWhiteSpace c = true) (js s) →
  trimString s = EmptyString.
Proof.
  intros Hs. unfold trimString. by rewrite DiffFacts.trim_blank.
Qed.

(** X22.  With one label per speaker and a loaded transcript, a click on
    the speaker of a segment opens the rename dialog on the label of that
    speaker, filled with the label's custom name unless that name starts
    with "Speaker " or there is none, in which case the field is empty.
    When the speaker id is "__proto__", what [getSpeakerName] returns is
    not a string and the handler throws on [startsWith], after it has set
    the label.  The click does nothing when the speaker has no label. *)
Theorem speaker_click_prefills (id : string) (result : Transcript.t)
    (st0 : HookState) (segment : Segment.t) (label : SpeakerLabel.t)
    (dialog : Dialog) :
  NoDup (map SpeakerLabel.speaker_id (Transcript.speaker_labels result)) →
  let st := loadTranscript id (Fulfilled result) st0 in
  (label ∈ Transcript.speaker_labels result →
   SpeakerLabel.speaker_id label = Segment.speaker_id segment →
   onSpeakerClick st segment dialog
   = if bool_decide (SpeakerLabel.speaker_id label = "__proto__")
     then Threw {| renamingLabel := Some (SpeakerLabel.id label);
                   newSpeakerName := newSpeakerName dialog |}
     else
       Handled
         {| renamingLabel := Some (SpeakerLabel.id label);
            newSpeakerName :=
              match SpeakerLabel.custom_name label with
              | Some name =>
                  if String.prefix "Speaker " name then EmptyString
                  else name
              | None => EmptyString
              end |})
  ∧ (Segment.speaker_id segment
       ∉ map SpeakerLabel.speaker_id (Transcript.speaker_labels result)
     → onSpeakerClick st segment dialog = Handled dialog).
Proof.
  intros Hnodup st. split.
  - intros Hin Hspeaker. unfold onSpeakerClick. simpl.
    rewrite <- Hspeaker, HookMoreFacts.find_speaker_unique by done.
    rewrite (HookMoreFacts.getSpeakerName_synced st
               (Transcript.speaker_labels result)) by done.
    case_bool_decide as Hproto; [done |].
    pose proof (HookMoreFacts.filter_speaker_unique _ label (fun l => l)
                  Hnodup Hin) as Hone.
    rewrite map_id in Hone. rewrite Hone by done. simpl.
    f_equal. f_equal.
    assert (String.prefix "Speaker "
              ("Speaker " +:+ SpeakerLabel.speaker_id label) = true) as Hp.
    { simpl. by destruct (SpeakerLabel.speaker_id label). }
    unfold SpeakerLabel.displayName, orElse.
    destruct (SpeakerLabel.custom_name label) as [name|];
      [|by rewrite Hp].
    case_bool_decide as Hname; [subst name; by rewrite Hp | done].
  - intros Hnot. unfold onSpeakerClick. simpl.
    destruct (find _ _) as [l|] eqn:Hfind; [|done].
    apply find_some in Hfind as [Hin Hid%bool_decide_eq_true].
    destruct Hnot. apply list_elem_of_fmap. exists l.
    split; [done | by apply list_elem_of_In].
Qed.

Lemma speaker_click_prefills_witness :
  let st := loadTranscript "t1" (Fulfilled Sample.transcript1) initial in
  let dialog := {| renamingLabel := None; newSpeakerName := EmptyString |} in
  onSpeakerClick st Sample.segment2 dialog
  = Handled {| renamingLabel := Some (SpeakerLabel.id Sample.label2);
               newSpeakerName := "Bob" |}.
Proof.
  intros st dialog.
  destruct (speaker_click_prefills "t1" Sample.transcript1 initial
              Sample.segment2 Sample.label2 dialog) as [H1 _].
  - apply (bool_decide_unpack _). by vm_compute.
  - apply H1; [| reflexivity].
    apply elem_of_cons. right. apply elem_of_cons. by left.
Defined.

(** X23.  Saving the rename dialog closes it.  A name that is blank (empty
    or white space only) changes nothing in the hook and sends no request;
    otherwise the hook is either left as it is or the [renameSpeaker] of
    the handler's render is called for the dialog's label with the name
    trimmed, which is then not empty and neither starts nor ends with white
    space. *)
Theorem rename_dialog_trims (reply : Settled SpeakerLabel.t)
    (dialog : Dialog) (rd st : HookState) :
  let out := handleRenameSave reply dialog rd st in
  out.1 = {| renamingLabel := None; newSpeakerName := EmptyString |}
  ∧ (Forall (fun c => Diff.isWhiteSpace c = true) (js (newSpeakerName dialog))
     → out.2 = st)
  ∧ (out.2 = st
     ∨ ∃ labelId name,
         renamingLabel dialog = Some labelId
         ∧ labelId ≠ EmptyString
         ∧ name ≠ EmptyString
         ∧ js name = Diff.trim (js (newSpeakerName dialog))
         ∧ startsClean (js name) ∧ endsClean (js name)
         ∧ out.2 = renameSpeaker labelId name reply rd st).
Proof.
  intros out. subst out. unfold handleRenameSave. simpl.
  split; [done |]. split.
  - intros Hblank. rewrite trimString_blank by done.
    destruct (renamingLabel dialog) as [labelId|]; [|done].
    by destruct (bool_decide (labelId = EmptyString)).
  - destruct (renamingLabel dialog) as [labelId|]; [|by left].
    case_bool_decide as Hlabel; [by left |].
    case_bool_decide as Hname; [by left |].
    right. exists labelId, (trimString (newSpeakerName dialog)).
    rewrite js_trimString.
    destruct (DiffSideFacts.trim_ends (js (newSpeakerName dialog))).
    done.
Qed.

End EditorFacts.

(** ** The paragraph of a segment row *)

Module ParagraphFacts.
Import Diff Row.

Lemma textOf_wordSpans (w : Word) (ws : list Word) :
  textOf (wordSpans (w :: ws))
  = Row.text w ++ flat_map (fun v => 32%N :: Row.text v) ws.
Proof.
  revert w. induction ws as [|v ws IH]; intros w.
  - unfold textOf. simpl. destruct (is_filler w); simpl;
      by rewrite ?app_nil_r.
  - change (wordSpans (w :: v :: ws))
      with (Span None
              [ if is_filler w
                then Span (Some "filler-word") [Text (Row.text w)]
                else Text (Row.text w);
                Text (js " ") ] :: wordSpans (v :: ws)).
    unfold textOf in *. cbn [map concat]. rewrite IH.
    destruct (is_filler w); simpl; by rewrite ?app_nil_r, <- ?app_assoc.
Qed.

(** X24.  What the paragraph of a row shows.  An edited row never reads
    [words]: its paragraph is the same whatever they are.  When the row is
    edited and has an original text that is not empty and differs from the
    text, the paragraph is the inline diff of the two.  When the row is not
    edited, filler words are shown and the words, of which there is one at
    least, are not empty and hold no white space, the text of the paragraph
    splits back into the words. *)
Theorem paragraph_words (props : Props) :
  (isEdited props = true →
   ∀ ws, paragraph props
         = paragraph {| p_text := p_text props;
                        originalText := originalText props;
                        words := ws; isEdited := true;
                        showFillerWords := showFillerWords props |})
  ∧ (hasDiff props = true →
     ∃ original,
       originalText props = Some original
       ∧ paragraph props
         = spaced (map partSpan (computeWordDiff original (p_text props))))
  ∧ (isEdited props = false →
     ∀ ws, words props = Some ws → ws ≠ [] →
           showFillerWords props = true →
           Forall (fun w => Row.text w ≠ []
                            ∧ Forall (fun c => isWhiteSpace c = false)
                                     (Row.text w)) ws →
           split (trim (textOf (paragraph props))) = map Row.text ws).
Proof.
  split; [|split].
  - intros Hed ws.
    unfold paragraph, hasDiff, renderInlineDiff, renderTextContent.
    simpl. by rewrite Hed.
  - unfold paragraph. intros Hdiff. rewrite Hdiff.
    unfold hasDiff in Hdiff. unfold renderInlineDiff.
    destruct (originalText props) as [original|];
      [|by rewrite andb_false_r in Hdiff].
    exists original. split; [done |].
    apply andb_prop in Hdiff as [_ [H1 H2]%andb_prop].
    apply negb_true_iff in H1, H2. by rewrite H1, H2.
  - intros Hed ws Hws Hne Hshow Hall.
    unfold paragraph, hasDiff, renderTextContent.
    rewrite Hed, Hws, Hshow. simpl.
    destruct ws as [|w ws]; [done |]. rewrite textOf_wordSpans.
    apply Forall_cons in Hall as [[Hw Hfree] Hall].
    assert (flat_map (fun v => 32%N :: Row.text v) ws
            = flat_map (fun v => 32%N :: v) (map Row.text ws)) as ->.
    { clear. induction ws as [|v ws IH]; simpl; [done |]. by rewrite IH. }
    assert (Forall (fun v => v ≠ []
                             ∧ Forall (fun c => isWhiteSpace c = false) v)
              (map Row.text ws)) as Htexts by by apply Forall_fmap.
    destruct (RowFacts.joined_clean _ _ Hw Hfree Htexts) as [Hs Hend].
    rewrite DiffSideFacts.trim_clean by done. unfold split.
    by rewrite RowFacts.splitFrom_joined by auto.
Qed.

Lemma paragraph_words_witness :
  let word t f :=
    {| Row.text := js t; start := 0%float; end_ := 1%float;
       confidence := 1%float; is_filler := f |} in
  let props :=
    {| p_text := js "so um  yes"; originalText := None;
       words := Some [word "so" false; word "um" true; word "yes" false];
       isEdited := false; showFillerWords := true |} in
  split (trim (textOf (paragraph props))) = [js "so"; js "um"; js "yes"].
Proof.
  intros word props.
  apply (proj2 (proj2 (paragraph_words props)) eq_refl
           [word "so" false; word "um" true; word "yes" false]);
    [reflexivity | discriminate | reflexivity |].
  repeat constructor; discriminate.
Defined.

End ParagraphFacts.
